(** * jsoncons: the source family and the json value variant

    A shallow embedding of [include/jsoncons/source.hpp] (the input
    sources and the bulk reader) and of [src/jsoncons/json.hpp] (the
    tagged value, its copy and move operations, its accessors and the
    lazy member proxy), with the properties of the specification that
    concern them.

    Conventions.
    - [std::size_t] counters are [nat]: every subtraction the sources
      perform on them is guarded by the comparison that precedes it.
    - The memory a [read] stores into is a [list] of units; a pointer
      into it is an offset.  A block store is stdpp's [list_inserts],
      which leaves the list length unchanged.
    - [int64_t] and [uint64_t] payloads are [Z]; conversions between
      them are written out with [Z.modulo]. *)

From Stdlib Require Import ZArith Lia Floats.SpecFloat.
From stdpp Require Import base option list strings.

Set Default Proof Using "Type".
Set Warnings "-register-all".
Open Scope nat_scope.

(** ** Part I: source.hpp *)

(** [character_result<CharT>] *)
Record character_result (CharT : Type) : Type :=
  { cr_value : CharT; cr_eof : bool }.
Arguments Build_character_result {CharT} _ _.
Arguments cr_value {CharT} _.
Arguments cr_eof {CharT} _.

(** The outcome of [read(p, length)]: the returned count, the source
    afterwards, and the caller's memory afterwards. *)
Definition read_result (S value_type : Type) : Type :=
  (nat * S * list value_type)%type.

(** What [source_reader] needs from its [Source] template argument. *)
Class Source (S value_type : Type) : Type :=
  { src_eof : S → bool;
    src_read : S → list value_type → nat → nat → read_result S value_type }.

(** *** string_source *)
Module string_source.
Section defs.
Context {value_type : Type}.
(** [value_type(0)], the unit a failed [peek] reports *)
Variable zero : value_type.
(** [sizeof(value_type)] *)
Variable sizeof_value_type : nat.

(** The three pointers are offsets into the viewed sequence [view_]
    (the caller-owned characters starting at [s.data()]). *)
Record t : Type :=
  { view_ : list value_type;
    data_ : nat;
    current_ : nat;
    end_ : nat }.

(** [string_source()] *)
Definition empty : t :=
  {| view_ := []; data_ := 0; current_ := 0; end_ := 0 |}.

(** [string_source(const Sourceable& s)] *)
Definition make (s : list value_type) : t :=
  {| view_ := s; data_ := 0; current_ := 0; end_ := 0 + length s |}.

Definition eof (s : t) : bool := current_ s =? end_ s.

Definition is_error (s : t) : bool := false.

Definition position (s : t) : nat :=
  (current_ s - data_ s) / sizeof_value_type + 1.

Definition ignore (s : t) (count : nat) : t :=
  let len := if end_ s - current_ s <? count then end_ s - current_ s else count in
  {| view_ := view_ s; data_ := data_ s;
     current_ := current_ s + len; end_ := end_ s |}.

Definition peek (s : t) : character_result value_type :=
  if current_ s <? end_ s
  then Build_character_result (default zero (view_ s !! current_ s)) false
  else Build_character_result zero true.

Definition read (s : t) (mem : list value_type) (p length : nat)
  : read_result t value_type :=
  let len := if end_ s - current_ s <? length then end_ s - current_ s else length in
  let mem' := list_inserts p (take len (drop (current_ s) (view_ s))) mem in
  (len,
   {| view_ := view_ s; data_ := data_ s;
      current_ := current_ s + len; end_ := end_ s |},
   mem').

(** Units between the cursor and the end: what is still to consume. *)
Definition remaining (s : t) : list value_type :=
  take (end_ s - current_ s) (drop (current_ s) (view_ s)).

(** The pointers of a source built by [make] and then moved only by
    [read] and [ignore]. *)
Definition wf (s : t) : Prop :=
  data_ s = 0 ∧ current_ s ≤ end_ s ∧ end_ s = length (view_ s).
End defs.
Arguments t : clear implicits.
End string_source.

(** *** bytes_source

    The same cursor over [uint8_t] units; [position] has no division. *)
Module bytes_source.
Section defs.
Context {value_type : Type}.
Variable zero : value_type.

Record t : Type :=
  { view_ : list value_type;
    data_ : nat;
    current_ : nat;
    end_ : nat }.

(** [bytes_source()] *)
Definition empty : t :=
  {| view_ := []; data_ := 0; current_ := 0; end_ := 0 |}.

(** [bytes_source(const Sourceable& source)] *)
Definition make (source : list value_type) : t :=
  {| view_ := source; data_ := 0; current_ := 0; end_ := 0 + length source |}.

Definition eof (s : t) : bool := current_ s =? end_ s.

Definition is_error (s : t) : bool := false.

Definition position (s : t) : nat := current_ s - data_ s + 1.

Definition ignore (s : t) (count : nat) : t :=
  let len := if end_ s - current_ s <? count then end_ s - current_ s else count in
  {| view_ := view_ s; data_ := data_ s;
     current_ := current_ s + len; end_ := end_ s |}.

Definition peek (s : t) : character_result value_type :=
  if current_ s <? end_ s
  then Build_character_result (default zero (view_ s !! current_ s)) false
  else Build_character_result zero true.

Definition read (s : t) (mem : list value_type) (p length : nat)
  : read_result t value_type :=
  let len := if end_ s - current_ s <? length then end_ s - current_ s else length in
  let mem' := list_inserts p (take len (drop (current_ s) (view_ s))) mem in
  (len,
   {| view_ := view_ s; data_ := data_ s;
      current_ := current_ s + len; end_ := end_ s |},
   mem').

Definition remaining (s : t) : list value_type :=
  take (end_ s - current_ s) (drop (current_ s) (view_ s)).

Definition wf (s : t) : Prop :=
  data_ s = 0 ∧ current_ s ≤ end_ s ∧ end_ s = length (view_ s).
End defs.
Arguments t : clear implicits.
End bytes_source.

(** The [iterator_category] of the wrapped iterator, as far as the
    [enable_if] conditions of the [read] overloads look at it. *)
Inductive iterator_category : Type :=
  | random_access_iterator_tag
  | other_iterator_tag.

Definition is_random_access (c : iterator_category) : bool :=
  match c with random_access_iterator_tag => true | other_iterator_tag => false end.

(** *** iterator_source

    The pair [current_, end_] is the list of the elements between the
    two iterators: [*current_] is its head, [++current_] drops the head,
    [current_ != end_] says the list is not empty and
    [std::distance(current_, end_)] is its length. *)
Module iterator_source.
Section defs.
Context {value_type : Type}.
Variable zero : value_type.

Record t : Type :=
  { range_ : list value_type;
    position_ : nat }.

(** [iterator_source(const IteratorT& first, const IteratorT& last)] *)
Definition make (range : list value_type) : t :=
  {| range_ := range; position_ := 0 |}.

Definition eof (s : t) : bool :=
  negb (match range_ s with [] => false | _ :: _ => true end).

Definition is_error (s : t) : bool := false.

Definition position (s : t) : nat := position_ s.

(** [while (count-- > 0 && current_ != end_) { ++position_; ++current_; }] *)
Fixpoint ignore_loop (count : nat) (range : list value_type) (position : nat)
  : list value_type * nat :=
  match count, range with
  | S count', _ :: range' => ignore_loop count' range' (S position)
  | _, _ => (range, position)
  end.

Definition ignore (s : t) (count : nat) : t :=
  let '(range, position) := ignore_loop count (range_ s) (position_ s) in
  {| range_ := range; position_ := position |}.

Definition peek (s : t) : character_result value_type :=
  match range_ s with
  | c :: _ => Build_character_result c false
  | [] => Build_character_result zero true
  end.

(** [while (p < pend && current_ != end_) { *p = *current_; ++p; ++current_; }]
    with [p] an offset into [mem] and [room = pend - p]; returns the
    final [p], the iterator and the memory. *)
Fixpoint read_loop (room : nat) (range : list value_type) (mem : list value_type) (p : nat)
  : nat * list value_type * list value_type :=
  match room, range with
  | S room', c :: range' => read_loop room' range' (<[p:=c]> mem) (S p)
  | _, _ => (p, range, mem)
  end.

(** The non-template [read]: overload resolution prefers it to the two
    member templates below, whatever the iterator category. *)
Definition read (s : t) (mem : list value_type) (data length : nat)
  : read_result t value_type :=
  let '(p, range, mem') := read_loop length (range_ s) mem data in
  (p - data, {| range_ := range; position_ := position_ s + (p - data) |}, mem').

(** The member template enabled for random access iterators. *)
Definition read_random_access (s : t) (mem : list value_type) (data length : nat)
  : read_result t value_type :=
  let '(p, range, mem') := read_loop length (range_ s) mem data in
  (p - data, {| range_ := range; position_ := position_ s + (p - data) |}, mem').

(** The member template enabled for every other category:
    [std::copy(current_, end_, data)] stores the whole rest of the range. *)
Definition read_not_random_access (s : t) (mem : list value_type) (data length : nat)
  : read_result t value_type :=
  let count := Nat.min length (List.length (range_ s)) in
  let mem' := list_inserts data (range_ s) mem in
  (count,
   {| range_ := drop count (range_ s); position_ := position_ s + count |},
   mem').

Definition remaining (s : t) : list value_type := range_ s.
End defs.
Arguments t : clear implicits.
End iterator_source.

(** *** binary_iterator_source

    Only the two member templates exist here, so the iterator category
    selects the [read] that runs.  [value_type] is [uint8_t]; the
    elements of the range are converted by [static_cast<value_type>],
    the function [cast]. *)
Module binary_iterator_source.
Section defs.
Context {elem_type value_type : Type}.
Variable zero : value_type.
Variable cast : elem_type → value_type.

Record t : Type :=
  { range_ : list elem_type;
    position_ : nat }.

Definition make (range : list elem_type) : t :=
  {| range_ := range; position_ := 0 |}.

Definition eof (s : t) : bool :=
  negb (match range_ s with [] => false | _ :: _ => true end).

Definition is_error (s : t) : bool := false.

Definition position (s : t) : nat := position_ s.

Fixpoint ignore_loop (count : nat) (range : list elem_type) (position : nat)
  : list elem_type * nat :=
  match count, range with
  | S count', _ :: range' => ignore_loop count' range' (S position)
  | _, _ => (range, position)
  end.

Definition ignore (s : t) (count : nat) : t :=
  let '(range, position) := ignore_loop count (range_ s) (position_ s) in
  {| range_ := range; position_ := position |}.

Definition peek (s : t) : character_result value_type :=
  match range_ s with
  | c :: _ => Build_character_result (cast c) false
  | [] => Build_character_result zero true
  end.

Fixpoint read_loop (room : nat) (range : list elem_type) (mem : list value_type) (p : nat)
  : nat * list elem_type * list value_type :=
  match room, range with
  | S room', c :: range' => read_loop room' range' (<[p:=cast c]> mem) (S p)
  | _, _ => (p, range, mem)
  end.

Definition read_random_access (s : t) (mem : list value_type) (data length : nat)
  : read_result t value_type :=
  let '(p, range, mem') := read_loop length (range_ s) mem data in
  (p - data, {| range_ := range; position_ := position_ s + (p - data) |}, mem').

Definition read_not_random_access (s : t) (mem : list value_type) (data length : nat)
  : read_result t value_type :=
  let count := Nat.min length (List.length (range_ s)) in
  let mem' := list_inserts data (cast <$> range_ s) mem in
  (count,
   {| range_ := drop count (range_ s); position_ := position_ s + count |},
   mem').

(** [read] as the [enable_if] pair resolves it. *)
Definition read (category : iterator_category)
    (s : t) (mem : list value_type) (data length : nat) : read_result t value_type :=
  if is_random_access category
  then read_random_access s mem data length
  else read_not_random_access s mem data length.

Definition remaining (s : t) : list value_type := cast <$> range_ s.
End defs.
Arguments t : clear implicits.
End binary_iterator_source.

(** *** stream_source

    The stream a [stream_source] reads is kept inside the record: its
    stream buffer (the transport) and the two state bits the source
    looks at.  A transport either delivers its pending units and then
    reports the end, or delivers them and then throws from the call that
    asks for more. *)
Module stream_source.
Section defs.
Context {value_type : Type}.
Variable zero : value_type.

(** [sizeof(value_type)], and the unit [bytes k new old] whose first [k]
    bytes are those of [new] and whose other bytes are those of [old],
    for [0 < k < sizeof(value_type)]. *)
Variable sizeof_value_type : nat.
Variable bytes : nat → value_type → value_type → value_type.

Inductive streambuf : Type :=
  | sb_data (pending : list value_type)
  | sb_throws (pending : list value_type).

(** [sbuf_->sgetn(s, n)]: the units stored at [s], whether the call
    threw, and the stream buffer afterwards. *)
Definition sgetn (sb : streambuf) (n : nat) : list value_type * bool * streambuf :=
  match sb with
  | sb_data pending => (take n pending, false, sb_data (drop n pending))
  | sb_throws pending =>
      if n <=? length pending
      then (take n pending, false, sb_throws (drop n pending))
      else (pending, true, sb_throws [])
  end.

Record istream : Type :=
  { rdbuf_ : streambuf;
    eofbit : bool;
    badbit : bool }.

(** [basic_null_istream]: nothing to deliver. *)
Definition null_is_ : istream :=
  {| rdbuf_ := sb_data []; eofbit := false; badbit := false |}.

Definition default_max_buffer_length : nat := 16 * 1024.

(** [buffer_data_] is an offset into [buffer_]. *)
Record t : Type :=
  { stream_ : istream;
    position_ : nat;
    buffer_ : list value_type;
    buffer_data_ : nat;
    buffer_length_ : nat;
    eof_ : bool }.

(** [stream_source()] *)
Definition empty : t :=
  {| stream_ := null_is_; position_ := 0; buffer_ := [];
     buffer_data_ := 0; buffer_length_ := 0; eof_ := true |}.

(** [stream_source(std::basic_istream<char_type>& is, std::size_t buf_size)] *)
Definition make (is_ : istream) (buf_size : nat) : t :=
  {| stream_ := is_; position_ := 0; buffer_ := replicate buf_size zero;
     buffer_data_ := 0; buffer_length_ := 0; eof_ := false |}.

(** [stream_source(stream_source&& other)]: the new source and what is
    left in [other] after the [swap]. *)
Definition move (other : t) : t * t := (other, empty).

Definition eof (s : t) : bool := eof_ s.

Definition is_error (s : t) : bool := badbit (stream_ s).

Definition position (s : t) : nat := position_ s.

Definition fill_buffer (s : t) : t :=
  if eofbit (stream_ s)
  then {| stream_ := stream_ s; position_ := position_ s; buffer_ := buffer_ s;
          buffer_data_ := buffer_data_ s; buffer_length_ := 0; eof_ := true |}
  else
    match sgetn (rdbuf_ (stream_ s)) (length (buffer_ s)) with
    | (got, false, sb) =>
        let count := length got in
        {| stream_ := {| rdbuf_ := sb;
                         eofbit := eofbit (stream_ s) || (count <? length (buffer_ s));
                         badbit := badbit (stream_ s) |};
           position_ := position_ s;
           buffer_ := list_inserts 0 got (buffer_ s);
           buffer_data_ := 0; buffer_length_ := count; eof_ := eof_ s |}
    | (got, true, sb) =>
        {| stream_ := {| rdbuf_ := sb; eofbit := true; badbit := true |};
           position_ := position_ s;
           buffer_ := list_inserts 0 got (buffer_ s);
           buffer_data_ := 0; buffer_length_ := 0; eof_ := eof_ s |}
    end.

(** [position_ += len; buffer_data_ += len; buffer_length_ -= len;] *)
Definition advance (s : t) (len : nat) : t :=
  {| stream_ := stream_ s; position_ := position_ s + len; buffer_ := buffer_ s;
     buffer_data_ := buffer_data_ s + len; buffer_length_ := buffer_length_ s - len;
     eof_ := eof_ s |}.

(** The units of the buffer the next [len] positions hold. *)
Definition buffered (s : t) (len : nat) : list value_type :=
  take len (drop (buffer_data_ s) (buffer_ s)).

(** The [while (length - len > 0)] loop of [ignore]; [todo] is
    [length - len].  Every round that does not leave the loop discards at
    least one unit, so [todo] rounds are enough. *)
Fixpoint ignore_loop (rounds : nat) (s : t) (todo : nat) : t :=
  match rounds with
  | 0 => s
  | S rounds' =>
      if 0 <? todo then
        let s1 := fill_buffer s in
        if buffer_length_ s1 =? 0 then s1
        else
          let len2 := Nat.min (buffer_length_ s1) todo in
          ignore_loop rounds' (advance s1 len2) (todo - len2)
      else s
  end.

Definition ignore (s : t) (length : nat) : t :=
  let len := if 0 <? buffer_length_ s then Nat.min (buffer_length_ s) length else 0 in
  let s1 := if 0 <? buffer_length_ s then advance s len else s in
  ignore_loop (S (length - len)) s1 (length - len).

Definition peek (s : t) : character_result value_type * t :=
  let s1 := if buffer_length_ s =? 0 then fill_buffer s else s in
  if 0 <? buffer_length_ s1
  then (Build_character_result (default zero (buffer_ s1 !! buffer_data_ s1)) false, s1)
  else (Build_character_result zero true, s1).

(** [memcpy(p, src, n)] into the caller's memory, [p] and [src]
    pointing to units: [n] bytes are copied, which is
    [n / sizeof(value_type)] units and the first
    [n mod sizeof(value_type)] bytes of the next one. *)
Definition memcpy (mem : list value_type) (p : nat) (src : list value_type) (n : nat)
  : list value_type :=
  let whole := n / sizeof_value_type in
  let part := n mod sizeof_value_type in
  let mem1 := list_inserts p (take whole src) mem in
  if part =? 0 then mem1
  else
    match src !! whole, mem1 !! (p + whole) with
    | Some new, Some old => <[p + whole := bytes part new old]> mem1
    | _, _ => mem1
    end.

(** [memcpy(p, buffer_data_, len)] is given the number of units [len]
    as its number of bytes. *)
Definition read (s : t) (mem : list value_type) (p length : nat)
  : read_result t value_type :=
  let len := if 0 <? buffer_length_ s then Nat.min (buffer_length_ s) length else 0 in
  let mem1 :=
    if 0 <? buffer_length_ s then memcpy mem p (drop (buffer_data_ s) (buffer_ s)) len
    else mem in
  let s1 := if 0 <? buffer_length_ s then advance s len else s in
  if length - len =? 0 then (len, s1, mem1)
  else if length - len <? List.length (buffer_ s1) then
    let s2 := fill_buffer s1 in
    if 0 <? buffer_length_ s2 then
      let len2 := Nat.min (buffer_length_ s2) (length - len) in
      (len + len2, advance s2 len2,
       memcpy mem1 (p + len) (drop (buffer_data_ s2) (buffer_ s2)) len2)
    else (len, s2, mem1)
  else if eofbit (stream_ s1) then
    (0,
     {| stream_ := stream_ s1; position_ := position_ s1; buffer_ := buffer_ s1;
        buffer_data_ := buffer_data_ s1; buffer_length_ := 0; eof_ := true |},
     mem1)
  else
    match sgetn (rdbuf_ (stream_ s1)) (length - len) with
    | (got, false, sb) =>
        let len2 := List.length got in
        (len + len2,
         {| stream_ := {| rdbuf_ := sb;
                          eofbit := eofbit (stream_ s1) || (len2 <? length - len);
                          badbit := badbit (stream_ s1) |};
            position_ := position_ s1 + len2; buffer_ := buffer_ s1;
            buffer_data_ := buffer_data_ s1; buffer_length_ := buffer_length_ s1;
            eof_ := eof_ s1 |},
         list_inserts (p + len) got mem1)
    | (got, true, sb) =>
        (0,
         {| stream_ := {| rdbuf_ := sb; eofbit := true; badbit := true |};
            position_ := position_ s1; buffer_ := buffer_ s1;
            buffer_data_ := buffer_data_ s1; buffer_length_ := buffer_length_ s1;
            eof_ := eof_ s1 |},
         list_inserts (p + len) got mem1)
    end.

(** What the transport still holds. *)
Definition pending (sb : streambuf) : list value_type :=
  match sb with sb_data l => l | sb_throws l => l end.

(** Units not yet consumed: the buffered ones, then the transport's. *)
Definition remaining (s : t) : list value_type :=
  buffered s (buffer_length_ s) ++ pending (rdbuf_ (stream_ s)).
End defs.
Arguments t : clear implicits.
Arguments istream : clear implicits.
Arguments streambuf : clear implicits.
End stream_source.

(** *** The sources as [Source] instances *)

#[export] Instance string_source_Source {value_type : Type}
  : Source (string_source.t value_type) value_type :=
  {| src_eof := string_source.eof; src_read := string_source.read |}.

#[export] Instance bytes_source_Source {value_type : Type}
  : Source (bytes_source.t value_type) value_type :=
  {| src_eof := bytes_source.eof; src_read := bytes_source.read |}.

#[export] Instance iterator_source_Source {value_type : Type}
  : Source (iterator_source.t value_type) value_type :=
  {| src_eof := iterator_source.eof; src_read := iterator_source.read |}.

#[export] Instance stream_source_Source {value_type : Type} (sizeof_value_type : nat)
    (bytes : nat → value_type → value_type → value_type)
  : Source (stream_source.t value_type) value_type :=
  {| src_eof := stream_source.eof;
     src_read := stream_source.read sizeof_value_type bytes |}.

(** *** source_reader *)
Module source_reader.
Section defs.
Context {Src value_type : Type} `{!Source Src value_type}.
(** a value-initialised element of the container *)
Variable zero : value_type.

Definition max_buffer_length : nat := 16 * 1024.

(** The loop of the overload chosen for a container with [reserve] and
    a [data()] of exactly [value_type*].  [rounds] bounds the number of
    iterations; [None] says the bound was reached with the loop
    condition still true. *)
Fixpoint read_loop (rounds : nat) (source : Src) (v : list value_type) (unread n : nat)
  : option (nat * Src * list value_type) :=
  match rounds with
  | 0 => None
  | S rounds' =>
      if (0 <? n) && negb (src_eof source) then
        let offset := length v in
        let v1 := v ++ replicate n zero in
        let '(actual, source1, v2) := src_read source v1 offset n in
        let unread1 := unread - actual in
        read_loop rounds' source1 v2 unread1 (Nat.min max_buffer_length unread1)
      else Some (unread, source, v)
  end.

Definition read (rounds : nat) (source : Src) (v : list value_type) (length : nat)
  : option (nat * Src * list value_type) :=
  let unread := length in
  let n := Nat.min max_buffer_length unread in
  match read_loop rounds source v unread n with
  | Some (unread1, source1, v1) => Some (length - unread1, source1, v1)
  | None => None
  end.

(** The inner loop of the other overload:
    [while (actual < n) { if (source.read(&c,1) != 1) break; v.push_back(c); ++actual; }]
    with [todo = n - actual]. *)
Fixpoint push_back_loop (todo : nat) (source : Src) (v : list value_type) (actual : nat)
  : nat * Src * list value_type :=
  match todo with
  | 0 => (actual, source, v)
  | S todo' =>
      let '(got, source1, c) := src_read source [zero] 0 1 in
      if got =? 1
      then push_back_loop todo' source1 (v ++ take 1 c) (S actual)
      else (actual, source1, v)
  end.

Fixpoint read_push_back_loop (rounds : nat) (source : Src) (v : list value_type) (unread n : nat)
  : option (nat * Src * list value_type) :=
  match rounds with
  | 0 => None
  | S rounds' =>
      if (0 <? n) && negb (src_eof source) then
        let '(actual, source1, v1) := push_back_loop n source v 0 in
        let unread1 := unread - actual in
        read_push_back_loop rounds' source1 v1 unread1 (Nat.min max_buffer_length unread1)
      else Some (unread, source, v)
  end.

Definition read_push_back (rounds : nat) (source : Src) (v : list value_type) (length : nat)
  : option (nat * Src * list value_type) :=
  let unread := length in
  let n := Nat.min max_buffer_length unread in
  match read_push_back_loop rounds source v unread n with
  | Some (unread1, source1, v1) => Some (length - unread1, source1, v1)
  | None => None
  end.
End defs.
End source_reader.

(** ** Part II: json.hpp

    [basic_json<StringT,Alloc>] for a character type of
    [sizeof_char_type] bytes.  A code unit is a [Z], a [string_type] a
    list of them.  A [basic_json] has the one field [var_], so a json
    value is its [variant]. *)

Abbreviation char_type := Z (only parsing).
Abbreviation string_type := (list Z) (only parsing).
Abbreviation addr := nat (only parsing).

Module value_types.
Inductive value_types_t : Type :=
  (* Simple types *)
  | empty_object_t
  | small_string_t
  | double_t
  | integer_t
  | uinteger_t
  | bool_t
  | null_t
  (* Non simple types *)
  | string_t
  | object_t
  | array_t
  | any_t.

(** The value of each enumerator. *)
Definition ord (type : value_types_t) : nat :=
  match type with
  | empty_object_t => 0
  | small_string_t => 1
  | double_t => 2
  | integer_t => 3
  | uinteger_t => 4
  | bool_t => 5
  | null_t => 6
  | string_t => 7
  | object_t => 8
  | array_t => 9
  | any_t => 10
  end.

Definition eqb (a b : value_types_t) : bool := ord a =? ord b.
End value_types.

Definition is_simple (type : value_types.value_types_t) : bool :=
  value_types.ord type <? value_types.ord value_types.string_t.

(** *** The tagged union and the heap

    [variant]: the tag [type_] with the member of the union [value_]
    that is active under it.  The four pointer members are addresses of
    heap cells.  The inline string is the [small_string_length_] units
    of [small_string_val_] before the terminating zero. *)
Module variant.
Inductive t : Type :=
  | empty_object_
  | small_string_val_ (s : string_type)
  | double_val_ (d : spec_float)
  | integer_val_ (i : Z)
  | uinteger_val_ (u : Z)
  | bool_val_ (b : bool)
  | null_
  | string_val_ (p : addr)
  | object_val_ (p : addr)
  | array_val_ (p : addr)
  | any_val_ (p : addr).

Definition type_ (var : t) : value_types.value_types_t :=
  match var with
  | empty_object_ => value_types.empty_object_t
  | small_string_val_ _ => value_types.small_string_t
  | double_val_ _ => value_types.double_t
  | integer_val_ _ => value_types.integer_t
  | uinteger_val_ _ => value_types.uinteger_t
  | bool_val_ _ => value_types.bool_t
  | null_ => value_types.null_t
  | string_val_ _ => value_types.string_t
  | object_val_ _ => value_types.object_t
  | array_val_ _ => value_types.array_t
  | any_val_ _ => value_types.any_t
  end.

(** The heap block a value owns, if its tag is one of the four that own one. *)
Definition heap_payload (var : t) : option addr :=
  match var with
  | string_val_ p | object_val_ p | array_val_ p | any_val_ p => Some p
  | _ => None
  end.
End variant.

(** [serializable_any]'s [any_handle_impl<T>]: the dynamic type and the
    held value.  The handle lives in the same cell as the
    [serializable_any] that owns it. *)
Record any_handle : Type :=
  { any_typeid : nat;
    any_value_ : Z }.

(** What one heap block holds. *)
Inductive cell : Type :=
  | string_data (p_ : string_type)
  | json_array (elements_ : list variant.t)
  | json_object (members_ : list (string_type * variant.t))
  | serializable_any (impl_ : option any_handle).

(** The heap: block [p] is [h !! p]; [Some None] is a block that was
    deallocated.  Addresses are never handed out twice. *)
Abbreviation heap := (list (option cell)) (only parsing).

Definition deref (h : heap) (p : addr) : option cell := mjoin (h !! p).

(** [create_instance], [alloc.allocate] and placement [new] *)
Definition alloc (h : heap) (c : cell) : addr * heap := (length h, h ++ [Some c]).

(** *** Outcomes *)
Inductive exn : Type :=
  | runtime_error (what : string)
  | out_of_range (what : string).

(** [Ok]: the call returns; [Throw]: it leaves by an exception;
    [Undefined]: it reads or releases a block that is not there, or
    converts a [double] that the target type cannot hold; [OutOfFuel]:
    the recursion bound of the model was reached. *)
Inductive outcome (A : Type) : Type :=
  | Ok (a : A)
  | Throw (e : exn)
  | Undefined
  | OutOfFuel.
Arguments Ok {A} _.
Arguments Throw {A} _.
Arguments Undefined {A}.
Arguments OutOfFuel {A}.

Definition obind {A B : Type} (o : outcome A) (k : A → outcome B) : outcome B :=
  match o with
  | Ok a => k a
  | Throw e => Throw e
  | Undefined => Undefined
  | OutOfFuel => OutOfFuel
  end.

Declare Scope json_scope.
Delimit Scope json_scope with json.
Notation "'let!' x := c 'in' k" := (obind c (fun x => k))
  (at level 10, x pattern, c at level 100, k at level 200, only parsing) : json_scope.
Open Scope json_scope.

Definition of_option {A : Type} (o : option A) : outcome A :=
  match o with Some a => Ok a | None => Undefined end.

(** [destroy_instance], [alloc.deallocate] *)
Definition free (h : heap) (p : addr) : outcome heap :=
  match deref h p with
  | Some _ => Ok (<[p:=None]> h)
  | None => Undefined
  end.

(** *** Conversions between the numeric payloads *)

(** [static_cast<uint64_t>] of an [int64_t] *)
Definition int64_to_uint64 (i : Z) : Z := (i mod 2 ^ 64)%Z.

(** [static_cast<int64_t>] of an [uint64_t] *)
Definition uint64_to_int64 (u : Z) : Z :=
  (if u <? 2 ^ 63 then u else u - 2 ^ 64)%Z.

(** [static_cast<double>] of a 64-bit integer: round to nearest even. *)
Definition Z_to_double (z : Z) : spec_float := binary_normalize 53 1024 z 0 false.

(** The integral part of a [double], none for a NaN or an infinity. *)
Definition double_trunc (d : spec_float) : option Z :=
  match d with
  | S754_zero _ => Some 0%Z
  | S754_finite s m e =>
      let a := match e with
               | Z0 => Zpos m
               | Zpos k => Z.shiftl (Zpos m) (Zpos k)
               | Zneg k => Z.shiftr (Zpos m) (Zpos k)
               end in
      Some (if s then Z.opp a else a)
  | S754_infinity _ | S754_nan => None
  end.

(** [static_cast<int64_t>] of a [double] *)
Definition double_to_int64 (d : spec_float) : outcome Z :=
  match double_trunc d with
  | Some z => if ((- 2 ^ 63 <=? z) && (z <? 2 ^ 63))%Z then Ok z else Undefined
  | None => Undefined
  end.

(** [static_cast<uint64_t>] of a [double] *)
Definition double_to_uint64 (d : spec_float) : outcome Z :=
  match double_trunc d with
  | Some z => if ((0 <=? z) && (z <? 2 ^ 64))%Z then Ok z else Undefined
  | None => Undefined
  end.

(** [std::numeric_limits<double>::quiet_NaN()] *)
Definition quiet_NaN : spec_float := S754_nan.

(** [std::char_traits<char_type>::compare(a, b, n) == 0] *)
Definition compare_is_0 (a b : string_type) (n : nat) : bool :=
  bool_decide (take n a = take n b).

(** *** variant: construction, copy, destruction, comparison *)
Module variant_ops.
Import variant.

(** [small_string_capacity], for [sizeof(int64_t) = 8].  For a character
    type of 1 to 8 bytes the quotient is at least 1 and the subtraction
    does not wrap. *)
Definition small_string_capacity (sizeof_char_type : nat) : nat :=
  8 / sizeof_char_type - 1.

(** [sizeof(storage_type)], the size of [string_dataA], and the offset
    of its member [c], where the units are written: for pointers and
    [size_t] of 8 bytes (as [small_string_capacity] takes
    [sizeof(int64_t) = 8]), an allocator without state and a character
    type of 1 to 8 bytes, [string_data] takes 16 bytes, [c] follows it
    and the whole is padded to 24. *)
Definition sizeof_storage_type : nat := 24.

Definition offsetof_c : nat := 16.

(** [aligned_size(n)] *)
Definition aligned_size (n : nat) : nat := sizeof_storage_type + n.

(** [create_string_data(s, length, allocator)]: the block asked from
    the allocator has [aligned_size(length*sizeof(char))] bytes; the
    [length] units of [s] and the zero after them are written at [c],
    which takes [(length + 1) * sizeof(char_type)] bytes.  Writing past
    the end of the block is undefined; otherwise the new block holds the
    header and the copy of the units. *)
Definition create_string_data (sizeof_char_type : nat) (s : string_type) (length : nat)
    (h : heap) : outcome (addr * heap) :=
  let mem_size := aligned_size (length * 1) in
  if offsetof_c + (length + 1) * sizeof_char_type <=? mem_size
  then Ok (alloc h (string_data (take length s)))
  else Undefined.

(** [create_string_data] on the data and the length of a heap string
    that exists, as [init_variant] calls it: the block asked for has as
    many bytes as the block of that string and the same bytes are
    written to it, so it holds the copy as that block holds the string. *)
Definition copy_string_data (s : string_type) (h : heap) : addr * heap :=
  alloc h (string_data (take (length s) s)).

(** [variant()] *)
Definition default_ : t := empty_object_.

(** [variant(null_type)] *)
Definition of_null : t := null_.

(** [variant(const string_type& s, const Alloc& a)] *)
Definition of_string (sizeof_char_type : nat) (s : string_type) (h : heap)
  : outcome (t * heap) :=
  if small_string_capacity sizeof_char_type <? length s then
    let! (p, h1) := create_string_data sizeof_char_type s (length s) h in
    Ok (string_val_ p, h1)
  else
    Ok (small_string_val_ (take (length s) s), h).

(** [variant(const array& val)]: the [json_array] copy constructor is
    the copy of its elements, done by [init_variant] below; this is the
    constructor from a sequence of values the new array is to own. *)
Definition of_elements (elements : list t) (h : heap) : t * heap :=
  let '(p, h1) := alloc h (json_array elements) in (array_val_ p, h1).

(** [variant(const Alloc& a)]: a new empty object *)
Definition of_alloc (h : heap) : t * heap :=
  let '(p, h1) := alloc h (json_object []) in (object_val_ p, h1).

(** The copy of a vector of values, element by element, by [copy]. *)
Fixpoint copy_elements (copy : t → heap → outcome (t * heap))
    (elements : list t) (h : heap) : outcome (list t * heap) :=
  match elements with
  | [] => Ok ([], h)
  | e :: rest =>
      let! (e1, h1) := copy e h in
      let! (rest1, h2) := copy_elements copy rest h1 in
      Ok (e1 :: rest1, h2)
  end.

(** The copy of a vector of [name_value_pair]s. *)
Fixpoint copy_members (copy : t → heap → outcome (t * heap))
    (members : list (string_type * t)) (h : heap)
  : outcome (list (string_type * t) * heap) :=
  match members with
  | [] => Ok ([], h)
  | (name, value) :: rest =>
      let! (value1, h1) := copy value h in
      let! (rest1, h2) := copy_members copy rest h1 in
      Ok ((name, value1) :: rest1, h2)
  end.

(** [init_variant(const variant& var)]: returns the value [*this] holds
    afterwards.  The copy constructors of [json_array] and
    [json_object] copy their elements with the copy constructor of
    [basic_json], which is [init_variant] again; [fuel] bounds that
    nesting. *)
Fixpoint init_variant (fuel : nat) (var : t) (h : heap) : outcome (t * heap) :=
  match fuel with
  | 0 => OutOfFuel
  | S fuel' =>
      match var with
      | null_ => Ok (null_, h)
      | empty_object_ => Ok (empty_object_, h)
      | double_val_ d => Ok (double_val_ d, h)
      | integer_val_ i => Ok (integer_val_ i, h)
      | uinteger_val_ u => Ok (uinteger_val_ u, h)
      | bool_val_ b => Ok (bool_val_ b, h)
      | small_string_val_ s => Ok (small_string_val_ (take (length s) s), h)
      | string_val_ p =>
          match deref h p with
          | Some (string_data s) =>
              let '(q, h1) := copy_string_data s h in
              Ok (string_val_ q, h1)
          | _ => Undefined
          end
      | array_val_ p =>
          match deref h p with
          | Some (json_array elements) =>
              let! (elements1, h1) := copy_elements (init_variant fuel') elements h in
              let '(q, h2) := alloc h1 (json_array elements1) in
              Ok (array_val_ q, h2)
          | _ => Undefined
          end
      | object_val_ p =>
          match deref h p with
          | Some (json_object members) =>
              let! (members1, h1) := copy_members (init_variant fuel') members h in
              let '(q, h2) := alloc h1 (json_object members1) in
              Ok (object_val_ q, h2)
          | _ => Undefined
          end
      | any_val_ p =>
          match deref h p with
          | Some (serializable_any impl) =>
              let '(q, h1) := alloc h (serializable_any impl) in
              Ok (any_val_ q, h1)
          | _ => Undefined
          end
      end
  end.

Fixpoint destroy_elements (destroy : t → heap → outcome heap)
    (elements : list t) (h : heap) : outcome heap :=
  match elements with
  | [] => Ok h
  | e :: rest => let! h1 := destroy e h in destroy_elements destroy rest h1
  end.

(** [destroy_variant()]: the destructors of [json_array] and
    [json_object] destroy their elements first. *)
Fixpoint destroy_variant (fuel : nat) (var : t) (h : heap) : outcome heap :=
  match fuel with
  | 0 => OutOfFuel
  | S fuel' =>
      match var with
      | string_val_ p =>
          match deref h p with
          | Some (string_data _) => free h p
          | _ => Undefined
          end
      | array_val_ p =>
          match deref h p with
          | Some (json_array elements) =>
              let! h1 := destroy_elements (destroy_variant fuel') elements h in
              free h1 p
          | _ => Undefined
          end
      | object_val_ p =>
          match deref h p with
          | Some (json_object members) =>
              let! h1 := destroy_elements (destroy_variant fuel') (members.*2) h in
              free h1 p
          | _ => Undefined
          end
      | any_val_ p =>
          match deref h p with
          | Some (serializable_any _) => free h p
          | _ => Undefined
          end
      | _ => Ok h
      end
  end.

Definition is_null (var : t) : bool :=
  value_types.eqb (type_ var) value_types.null_t.

Definition is_bool (var : t) : bool :=
  value_types.eqb (type_ var) value_types.bool_t.

Definition is_string (var : t) : bool :=
  value_types.eqb (type_ var) value_types.string_t
  || value_types.eqb (type_ var) value_types.small_string_t.

Definition is_number (var : t) : bool :=
  value_types.eqb (type_ var) value_types.double_t
  || value_types.eqb (type_ var) value_types.integer_t
  || value_types.eqb (type_ var) value_types.uinteger_t.

(** The nested [switch] at the head of [operator==]: the result when
    both operands are numbers. *)
Definition number_equal (lhs rhs : t) : option bool :=
  match lhs, rhs with
  | integer_val_ a, integer_val_ b => Some (a =? b)%Z
  | integer_val_ a, uinteger_val_ b => Some (int64_to_uint64 a =? b)%Z
  | integer_val_ a, double_val_ b => Some (SFeqb (Z_to_double a) b)
  | uinteger_val_ a, integer_val_ b => Some (a =? int64_to_uint64 b)%Z
  | uinteger_val_ a, uinteger_val_ b => Some (a =? b)%Z
  | uinteger_val_ a, double_val_ b => Some (SFeqb (Z_to_double a) b)
  | double_val_ a, integer_val_ b => Some (SFeqb a (Z_to_double b))
  | double_val_ a, uinteger_val_ b => Some (SFeqb a (Z_to_double b))
  | double_val_ a, double_val_ b => Some (SFeqb a b)
  | _, _ => None
  end.

(** Modelled from the spec: [operator==] of [json_array]
    (json_structures.hpp): "recursive structural equality of their
    ordered entries". *)
Fixpoint equal_elements (eq : t → t → outcome bool) (l1 l2 : list t) : outcome bool :=
  match l1, l2 with
  | [], [] => Ok true
  | a :: l1', b :: l2' =>
      let! r := eq a b in
      if r then equal_elements eq l1' l2' else Ok false
  | _, _ => Ok false
  end.

(** Modelled from the spec: [operator==] of [json_object]
    (json_structures.hpp), on the ordered name/value entries. *)
Fixpoint equal_members (eq : t → t → outcome bool)
    (l1 l2 : list (string_type * t)) : outcome bool :=
  match l1, l2 with
  | [], [] => Ok true
  | (n1, a) :: l1', (n2, b) :: l2' =>
      if bool_decide (n1 = n2) then
        let! r := eq a b in
        if r then equal_members eq l1' l2' else Ok false
      else Ok false
  | _, _ => Ok false
  end.

(** [operator==(const variant& rhs)] *)
Fixpoint equal (fuel : nat) (h : heap) (lhs rhs : t) : outcome bool :=
  match fuel with
  | 0 => OutOfFuel
  | S fuel' =>
      match number_equal lhs rhs with
      | Some r => Ok r
      | None =>
          if negb (value_types.eqb (type_ rhs) (type_ lhs)) then Ok false
          else
            match lhs, rhs with
            | bool_val_ a, bool_val_ b => Ok (Bool.eqb a b)
            | null_, _ => Ok true
            | empty_object_, _ => Ok true
            | small_string_val_ a, small_string_val_ b =>
                Ok (if length a =? length b then compare_is_0 a b (length a) else false)
            | string_val_ p, string_val_ q =>
                match deref h p, deref h q with
                | Some (string_data a), Some (string_data b) =>
                    Ok (if length a =? length b then compare_is_0 a b (length a) else false)
                | _, _ => Undefined
                end
            | array_val_ p, array_val_ q =>
                match deref h p, deref h q with
                | Some (json_array a), Some (json_array b) =>
                    equal_elements (equal fuel' h) a b
                | _, _ => Undefined
                end
            | object_val_ p, object_val_ q =>
                match deref h p, deref h q with
                | Some (json_object a), Some (json_object b) =>
                    equal_members (equal fuel' h) a b
                | _, _ => Undefined
                end
            | _, _ => Ok false
            end
      end
  end.

(** [empty()] *)
Definition empty (h : heap) (var : t) : outcome bool :=
  match var with
  | small_string_val_ s => Ok (length s =? 0)
  | string_val_ p =>
      match deref h p with
      | Some (string_data s) => Ok (length s =? 0)
      | _ => Undefined
      end
  | array_val_ p =>
      match deref h p with
      | Some (json_array elements) => Ok (length elements =? 0)
      | _ => Undefined
      end
  | empty_object_ => Ok true
  | object_val_ p =>
      match deref h p with
      | Some (json_object members) => Ok (length members =? 0)
      | _ => Undefined
      end
  | _ => Ok false
  end.
End variant_ops.

(** *** Objects, references and the state

    A [basic_json] object is either a variable of the program, the
    value of the [i]-th member of the [json_object] in block [p], or
    the [i]-th element of the [json_array] in block [p]; an [lvalue]
    names one ([basic_json&], [this]). *)
Inductive lvalue : Type :=
  | lv_var (x : nat)
  | lv_member (p : addr) (i : nat)
  | lv_element (p : addr) (i : nat).

#[export] Instance lvalue_eq_dec : EqDecision lvalue.
Proof. solve_decision. Defined.

Record state : Type :=
  { vars_ : list variant.t;
    heap_ : heap }.

Definition load (σ : state) (lv : lvalue) : option variant.t :=
  match lv with
  | lv_var x => vars_ σ !! x
  | lv_member p i =>
      match deref (heap_ σ) p with
      | Some (json_object members) => snd <$> members !! i
      | _ => None
      end
  | lv_element p i =>
      match deref (heap_ σ) p with
      | Some (json_array elements) => elements !! i
      | _ => None
      end
  end.

Definition store (σ : state) (lv : lvalue) (v : variant.t) : state :=
  match lv with
  | lv_var x => {| vars_ := <[x:=v]> (vars_ σ); heap_ := heap_ σ |}
  | lv_member p i =>
      match deref (heap_ σ) p with
      | Some (json_object members) =>
          {| vars_ := vars_ σ;
             heap_ := <[p:=Some (json_object (alter (λ m, (m.1, v)) i members))]> (heap_ σ) |}
      | _ => σ
      end
  | lv_element p i =>
      match deref (heap_ σ) p with
      | Some (json_array elements) =>
          {| vars_ := vars_ σ;
             heap_ := <[p:=Some (json_array (<[i:=v]> elements))]> (heap_ σ) |}
      | _ => σ
      end
  end.

(** A member function that changes the state, also when it throws. *)
Definition M (A : Type) : Type := state → outcome A * state.

Definition ret {A : Type} (a : A) : M A := λ σ, (Ok a, σ).

Definition throw {A : Type} (e : exn) : M A := λ σ, (Throw e, σ).

Definition bind {A B : Type} (m : M A) (k : A → M B) : M B :=
  λ σ, match m σ with
       | (Ok a, σ1) => k a σ1
       | (Throw e, σ1) => (Throw e, σ1)
       | (Undefined, σ1) => (Undefined, σ1)
       | (OutOfFuel, σ1) => (OutOfFuel, σ1)
       end.

Notation "'do!' x := c 'in' k" := (bind c (fun x => k))
  (at level 10, x pattern, c at level 100, k at level 200, only parsing) : json_scope.

Definition lift {A : Type} (o : outcome A) : M A := λ σ, (o, σ).

Definition get_heap : M (list (option cell)) := λ σ, (Ok (heap_ σ), σ).

Definition put_heap (h : heap) : M unit :=
  λ σ, (Ok (), {| vars_ := vars_ σ; heap_ := h |}).

(** Runs a function of the heap, as [init_variant] is one. *)
Definition on_heap {A : Type} (f : heap → outcome (A * heap)) : M A :=
  λ σ, match f (heap_ σ) with
       | Ok (a, h) => (Ok a, {| vars_ := vars_ σ; heap_ := h |})
       | Throw e => (Throw e, σ)
       | Undefined => (Undefined, σ)
       | OutOfFuel => (OutOfFuel, σ)
       end.

Definition load_ (lv : lvalue) : M variant.t := λ σ, (of_option (load σ lv), σ).

Definition store_ (lv : lvalue) (v : variant.t) : M unit := λ σ, (Ok (), store σ lv v).

(** The block [p] as a [json_object] *)
Definition object_at (p : addr) : M (list (string_type * variant.t)) :=
  λ σ, (match deref (heap_ σ) p with
        | Some (json_object members) => Ok members
        | _ => Undefined
        end, σ).

Definition array_at (p : addr) : M (list variant.t) :=
  λ σ, (match deref (heap_ σ) p with
        | Some (json_array elements) => Ok elements
        | _ => Undefined
        end, σ).

(** A new variable of the program, holding [v]. *)
Definition new_var (v : variant.t) : M lvalue :=
  λ σ, (Ok (lv_var (length (vars_ σ))), {| vars_ := vars_ σ ++ [v]; heap_ := heap_ σ |}).

(** *** json_object (json_structures.hpp) *)
Module json_object_ops.

(** Modelled from the spec: [json_object::find] (json_structures.hpp),
    "key lookup returning an end-sentinel on miss": the position of the
    first member called [name], [None] for [end()]. *)
Fixpoint find (members : list (string_type * variant.t)) (name : string_type) : option nat :=
  match members with
  | [] => None
  | (n, _) :: rest =>
      if bool_decide (n = name) then Some 0 else S <$> find rest name
  end.

(** Modelled from the spec: [json_object::set] with or without a hint
    (json_structures.hpp), "hinted insertion": the value of the member
    called [name] is replaced, and a name that is absent is inserted.
    "The ordering policy (insertion order vs. sorted) is an external
    decision": [position name members] is where the container puts a
    new name.  Returns the members and the position of the entry. *)
Definition set (position : string_type → list (string_type * variant.t) → nat)
    (members : list (string_type * variant.t)) (name : string_type) (value : variant.t)
  : list (string_type * variant.t) * nat :=
  match find members name with
  | Some i => (<[i:=(name, value)]> members, i)
  | None =>
      let i := Nat.min (position name members) (length members) in
      (take i members ++ (name, value) :: drop i members, i)
  end.
End json_object_ops.

(** *** basic_json_output_handler (json_output_handler.hpp)

    The calls [to_stream] makes on the handler it is given, in order:
    [begin_object()], [end_object()], [begin_array()], [end_array()],
    [name(p, length)], the overloads of [value], and the [to_stream] of
    the handle of an Any payload. *)
Module handler.
Inductive event : Type :=
  | begin_object
  | end_object
  | begin_array
  | end_array
  | name (s : string_type)
  | value_string (s : string_type)
  | value_double (d : spec_float)
  | value_integer (i : Z)
  | value_uinteger (u : Z)
  | value_bool (b : bool)
  | value_null
  | any_to_stream (impl : any_handle).
End handler.

(** *** basic_json *)
Module basic_json.
Import variant.

(** [basic_json()] *)
Definition default_ : t := variant_ops.default_.

(** [basic_json(const string_type&)] by way of [assign_string] *)
Definition of_string (sizeof_char_type : nat) (s : string_type) : M t :=
  on_heap (variant_ops.of_string sizeof_char_type s).

(** [variant::swap(variant& rhs)] *)
Definition swap (this rhs : lvalue) : M unit :=
  if decide (this = rhs) then ret ()
  else
    do! a := load_ this in
    do! b := load_ rhs in
    do! _ := store_ this b in
    store_ rhs a.

(** [basic_json(basic_json&& other)]: [variant(variant&& var)] starts
    the new object as [null_t] and swaps. *)
Definition move_construct (other : lvalue) : M lvalue :=
  do! this := new_var null_ in
  do! _ := swap this other in
  ret this.

(** [operator=(basic_json&& rhs)], which is [variant::operator=(variant&& val)] *)
Definition move_assign (this rhs : lvalue) : M unit :=
  if decide (this ≠ rhs) then
    (* variant::operator=(variant&&) *)
    if decide (this ≠ rhs) then swap rhs this else ret ()
  else ret ().

(** [basic_json(const basic_json& val)] *)
Definition copy_construct (fuel : nat) (val : lvalue) : M lvalue :=
  do! var := load_ val in
  do! v := on_heap (variant_ops.init_variant fuel var) in
  new_var v.

(** [destroy_variant()] on the value of [this] *)
Definition destroy_variant (fuel : nat) (this : lvalue) : M unit :=
  do! w := load_ this in
  on_heap (λ h, let! h1 := variant_ops.destroy_variant fuel w h in Ok ((), h1)).

(** [init_variant(val)] into [this] *)
Definition init_variant (fuel : nat) (this val : lvalue) : M unit :=
  do! var := load_ val in
  do! v := on_heap (variant_ops.init_variant fuel var) in
  store_ this v.

(** [operator=(const basic_json& rhs)], which is
    [variant::operator=(const variant& val)] *)
Definition copy_assign (fuel : nat) (this val : lvalue) : M unit :=
  if decide (this ≠ val) then
    do! w := load_ this in
    do! v := load_ val in
    if is_simple (type_ w) then
      if is_simple (type_ v) then store_ this v
      else init_variant fuel this val
    else
      do! _ := destroy_variant fuel this in
      init_variant fuel this val
  else ret ().

Definition is_null (var : t) : bool := variant_ops.is_null var.

Definition is_string (var : t) : bool := variant_ops.is_string var.

Definition is_bool (var : t) : bool := variant_ops.is_bool var.

Definition is_number (var : t) : bool := variant_ops.is_number var.

Definition is_object (var : t) : bool :=
  value_types.eqb (type_ var) value_types.object_t
  || value_types.eqb (type_ var) value_types.empty_object_t.

Definition is_array (var : t) : bool :=
  value_types.eqb (type_ var) value_types.array_t.

Definition is_any (var : t) : bool :=
  value_types.eqb (type_ var) value_types.any_t.

Definition size (h : heap) (var : t) : outcome nat :=
  match var with
  | empty_object_ => Ok 0
  | object_val_ p =>
      match deref h p with
      | Some (json_object members) => Ok (length members)
      | _ => Undefined
      end
  | array_val_ p =>
      match deref h p with
      | Some (json_array elements) => Ok (length elements)
      | _ => Undefined
      end
  | _ => Ok 0
  end.

Definition as_bool (h : heap) (var : t) : outcome bool :=
  match var with
  | null_ | empty_object_ => Ok false
  | bool_val_ b => Ok b
  | double_val_ d => Ok (negb (SFeqb d (S754_zero false)))
  | integer_val_ i => Ok (negb (i =? 0)%Z)
  | uinteger_val_ u => Ok (negb (u =? 0)%Z)
  | small_string_val_ s => Ok (negb (length s =? 0))
  | string_val_ p =>
      match deref h p with
      | Some (string_data s) => Ok (negb (length s =? 0))
      | _ => Undefined
      end
  | array_val_ p =>
      match deref h p with
      | Some (json_array elements) => Ok (negb (length elements =? 0))
      | _ => Undefined
      end
  | object_val_ p =>
      match deref h p with
      | Some (json_object members) => Ok (negb (length members =? 0))
      | _ => Undefined
      end
  | any_val_ _ => Ok true
  end.

Definition as_integer (var : t) : outcome Z :=
  match var with
  | double_val_ d => double_to_int64 d
  | integer_val_ i => Ok i
  | uinteger_val_ u => Ok (uint64_to_int64 u)
  | bool_val_ b => Ok (if b then 1 else 0)%Z
  | _ => Throw (runtime_error "Not an integer")
  end.

Definition as_uinteger (var : t) : outcome Z :=
  match var with
  | double_val_ d => double_to_uint64 d
  | integer_val_ i => Ok (int64_to_uint64 i)
  | uinteger_val_ u => Ok u
  | bool_val_ b => Ok (if b then 1 else 0)%Z
  | _ => Throw (runtime_error "Not an unsigned integer")
  end.

Definition as_double (var : t) : outcome spec_float :=
  match var with
  | double_val_ d => Ok d
  | integer_val_ i => Ok (Z_to_double i)
  | uinteger_val_ u => Ok (Z_to_double u)
  | null_ => Ok quiet_NaN
  | _ => Throw (runtime_error "Not a double")
  end.

(** [as_string()]; [to_string] is the serializer (json_serializer.hpp)
    the other tags are printed by. *)
Definition as_string (to_string : heap → t → string_type) (h : heap) (var : t)
  : outcome string_type :=
  match var with
  | small_string_val_ s => Ok (take (length s) s)
  | string_val_ p =>
      match deref h p with
      | Some (string_data s) => Ok (take (length s) s)
      | _ => Undefined
      end
  | _ => Ok (to_string h var)
  end.

(** [create_object_implicitly()] *)
Definition create_object_implicitly (this : lvalue) : M unit :=
  do! v := on_heap (λ h, Ok (variant_ops.of_alloc h)) in
  store_ this v.

(** [at(const string_type& name)]: a reference to the member's value *)
Definition at_ (this : lvalue) (name : string_type) : M lvalue :=
  do! var := load_ this in
  match var with
  | empty_object_ => throw (out_of_range "%s not found")
  | object_val_ p =>
      do! members := object_at p in
      match json_object_ops.find members name with
      | None => throw (out_of_range "%s not found")
      | Some i => ret (lv_member p i)
      end
  | _ => throw (runtime_error "Attempting to get %s from a value that is not an object")
  end.

(** [at(size_t i)] *)
Definition at_index (this : lvalue) (i : nat) : M lvalue :=
  do! var := load_ this in
  match var with
  | array_val_ p =>
      do! elements := array_at p in
      if length elements <=? i
      then throw (out_of_range "Invalid array subscript")
      else ret (lv_element p i)
  | _ => throw (runtime_error "Index on non-array value not supported")
  end.

(** [find(const string_type& name)]: [None] is [members().end()] *)
Definition find (this : lvalue) (name : string_type) : M (option nat) :=
  do! var := load_ this in
  match var with
  | empty_object_ => ret None
  | object_val_ p =>
      do! members := object_at p in
      ret (json_object_ops.find members name)
  | _ => throw (runtime_error "Attempting to get %s from a value that is not an object")
  end.

(** [object_value()]: a reference to the [json_object], its block *)
Definition object_value (this : lvalue) : M nat :=
  do! var := load_ this in
  match var with
  | empty_object_ =>
      do! _ := create_object_implicitly this in
      do! var1 := load_ this in
      lift (of_option (heap_payload var1))
  | object_val_ p => ret p
  | _ => throw (runtime_error "Bad object cast")
  end.

(** [set(object_iterator hint, const string_type& name, basic_json&& value)]:
    returns the position of the entry.  The plain
    [set(const string_type& name, basic_json&& value)] is the same
    without the result. *)
Definition set_hint (position : string_type → list (string_type * t) → nat)
    (this : lvalue) (name : string_type) (value : t) : M nat :=
  do! var := load_ this in
  do! p :=
    match var with
    | empty_object_ =>
        do! _ := create_object_implicitly this in
        do! var1 := load_ this in
        lift (of_option (heap_payload var1))
    | object_val_ p => ret p
    | _ => throw (runtime_error "Attempting to set %s on a value that is not an object")
    end in
  do! members := object_at p in
  let '(members1, i) := json_object_ops.set position members name value in
  do! h := get_heap in
  do! _ := put_heap (<[p:=Some (json_object members1)]> h) in
  ret i.

Definition set (position : string_type → list (string_type * t) → nat)
    (this : lvalue) (name : string_type) (value : t) : M unit :=
  do! _ := set_hint position this name value in
  ret ().

(** [add(basic_json&& value)] *)
Definition add (this : lvalue) (value : t) : M unit :=
  do! var := load_ this in
  match var with
  | array_val_ p =>
      do! elements := array_at p in
      do! h := get_heap in
      put_heap (<[p:=Some (json_array (elements ++ [value]))]> h)
  | _ => throw (runtime_error "Attempting to insert into a value that is not an array")
  end.

(** [variant::assign(null_type)], [assign(bool)], [assign(int64_t)],
    [assign(uint64_t)] and [assign(double)]: [destroy_variant()], then
    the new tag and payload. *)
Definition assign (fuel : nat) (this : lvalue) (val : t) : M unit :=
  do! _ := destroy_variant fuel this in
  store_ this val.

Definition assign_null (fuel : nat) (this : lvalue) : M unit :=
  assign fuel this null_.

Definition assign_bool (fuel : nat) (this : lvalue) (rhs : bool) : M unit :=
  assign fuel this (bool_val_ rhs).

Definition assign_integer (fuel : nat) (this : lvalue) (rhs : Z) : M unit :=
  assign fuel this (integer_val_ rhs).

Definition assign_uinteger (fuel : nat) (this : lvalue) (rhs : Z) : M unit :=
  assign fuel this (uinteger_val_ rhs).

Definition assign_double (fuel : nat) (this : lvalue) (rhs : spec_float) : M unit :=
  assign fuel this (double_val_ rhs).

(** [assign_string(const string_type& rhs)], which is
    [variant::assign(const string_type& s)] *)
Definition assign_string (sizeof_char_type fuel : nat) (this : lvalue) (rhs : string_type)
  : M unit :=
  do! _ := destroy_variant fuel this in
  do! v := of_string sizeof_char_type rhs in
  store_ this v.

Definition is_double (var : t) : bool :=
  value_types.eqb (type_ var) value_types.double_t.

(** [is_integer()]; [LLONG_MAX] is [2 ^ 63 - 1]. *)
Definition is_integer (var : t) : bool :=
  value_types.eqb (type_ var) value_types.integer_t
  || (value_types.eqb (type_ var) value_types.uinteger_t
      && match as_uinteger var with
         | Ok u => (u <=? 2 ^ 63 - 1)%Z
         | _ => false
         end).

Definition is_uinteger (var : t) : bool :=
  value_types.eqb (type_ var) value_types.uinteger_t
  || (value_types.eqb (type_ var) value_types.integer_t
      && match as_integer var with
         | Ok i => (0 <=? i)%Z
         | _ => false
         end).

Definition empty (h : heap) (var : t) : outcome bool := variant_ops.empty h var.

(** [has_member(const string_type& name)] *)
Definition has_member (h : heap) (var : t) (name : string_type) : outcome bool :=
  match var with
  | object_val_ p =>
      match deref h p with
      | Some (json_object members) =>
          Ok (match json_object_ops.find members name with Some _ => true | None => false end)
      | _ => Undefined
      end
  | _ => Ok false
  end.

(** The loop of [count]:
    [while (it != members().end() && it->name() == name) { ++count; ++it; }] *)
Fixpoint count_loop (members : list (string_type * t)) (name : string_type) (count : nat)
  : nat :=
  match members with
  | (n, _) :: rest =>
      if bool_decide (n = name) then count_loop rest name (S count) else count
  | [] => count
  end.

(** [count(const string_type& name)] *)
Definition count (h : heap) (var : t) (name : string_type) : outcome nat :=
  match var with
  | object_val_ p =>
      match deref h p with
      | Some (json_object members) =>
          match json_object_ops.find members name with
          | None => Ok 0
          | Some i => Ok (count_loop (drop i members) name 0)
          end
      | _ => Undefined
      end
  | _ => Ok 0
  end.

(** The loop of [to_stream] over the members of an object. *)
Fixpoint to_stream_members (to_stream : t → outcome (list handler.event))
    (members : list (string_type * t)) : outcome (list handler.event) :=
  match members with
  | [] => Ok []
  | (name, value) :: rest =>
      let! evs := to_stream value in
      let! evs' := to_stream_members to_stream rest in
      Ok (handler.name name :: evs ++ evs')
  end.

(** The loop of [to_stream] over the elements of an array. *)
Fixpoint to_stream_elements (to_stream : t → outcome (list handler.event))
    (elements : list t) : outcome (list handler.event) :=
  match elements with
  | [] => Ok []
  | e :: rest =>
      let! evs := to_stream e in
      let! evs' := to_stream_elements to_stream rest in
      Ok (evs ++ evs')
  end.

(** [to_stream(basic_json_output_handler<char_type>& handler)]: the
    calls it makes on [handler].  The Any payload forwards to its
    handle, which has to be there. *)
Fixpoint to_stream (fuel : nat) (h : heap) (var : t) : outcome (list handler.event) :=
  match fuel with
  | 0 => OutOfFuel
  | S fuel' =>
      match var with
      | small_string_val_ s => Ok [handler.value_string (take (length s) s)]
      | string_val_ p =>
          match deref h p with
          | Some (string_data s) => Ok [handler.value_string (take (length s) s)]
          | _ => Undefined
          end
      | double_val_ d => Ok [handler.value_double d]
      | integer_val_ i => Ok [handler.value_integer i]
      | uinteger_val_ u => Ok [handler.value_uinteger u]
      | bool_val_ b => Ok [handler.value_bool b]
      | null_ => Ok [handler.value_null]
      | empty_object_ => Ok [handler.begin_object; handler.end_object]
      | object_val_ p =>
          match deref h p with
          | Some (json_object members) =>
              let! evs := to_stream_members (to_stream fuel' h) members in
              Ok (handler.begin_object :: evs ++ [handler.end_object])
          | _ => Undefined
          end
      | array_val_ p =>
          match deref h p with
          | Some (json_array elements) =>
              let! evs := to_stream_elements (to_stream fuel' h) elements in
              Ok (handler.begin_array :: evs ++ [handler.end_array])
          | _ => Undefined
          end
      | any_val_ p =>
          match deref h p with
          | Some (serializable_any (Some impl)) => Ok [handler.any_to_stream impl]
          | _ => Undefined
          end
      end
  end.
End basic_json.

(** *** json_proxy

    [json_proxy<ParentT>]: the parent is a [basic_json] or another proxy. *)
Inductive json_proxy : Type :=
  | proxy_of_json (parent_ : lvalue) (name_ : string_type)
  | proxy_of_proxy (parent_ : json_proxy) (name_ : string_type).

Module proxy.
Import variant.

(** [basic_json::operator[](const string_type& name)], not const *)
Definition subscript (this : lvalue) (name : string_type) : M json_proxy :=
  do! var := load_ this in
  match var with
  | empty_object_ =>
      do! _ := basic_json.create_object_implicitly this in
      ret (proxy_of_json this name)
  | object_val_ _ => ret (proxy_of_json this name)
  | _ => throw (runtime_error "Not an object")
  end.

(** [basic_json::operator[](const string_type& name) const] *)
Definition subscript_const (this : lvalue) (name : string_type) : M lvalue :=
  basic_json.at_ this name.

(** [json_proxy::operator[](const string_type& name)] *)
Definition subscript_proxy (this : json_proxy) (name : string_type) : json_proxy :=
  proxy_of_proxy this name.

(** [evaluate()]: [parent_.evaluate(name_)], where the [evaluate(name)]
    of a [basic_json] is [at(name)] and that of a proxy is
    [parent_.evaluate(name_).at(name)]. *)
Fixpoint evaluate (this : json_proxy) : M lvalue :=
  match this with
  | proxy_of_json parent name => basic_json.at_ parent name
  | proxy_of_proxy parent name =>
      do! val := evaluate parent in
      basic_json.at_ val name
  end.

(** The body of [evaluate_with_default()] once [parent_.evaluate_with_default()]
    has returned [val]. *)
Definition evaluate_with_default_in
    (position : string_type → list (string_type * t) → nat)
    (val : lvalue) (name : string_type) : M lvalue :=
  do! it := basic_json.find val name in
  match it with
  | Some i =>
      do! var := load_ val in
      do! p := lift (of_option (heap_payload var)) in
      ret (lv_member p i)
  | None =>
      (* object(val.object_value().get_allocator()) as a basic_json *)
      do! p := basic_json.object_value val in
      do! value := on_heap (λ h, Ok (variant_ops.of_alloc h)) in
      do! i := basic_json.set_hint position val name value in
      ret (lv_member p i)
  end.

(** [evaluate_with_default()]; that of a [basic_json] returns [*this]. *)
Fixpoint evaluate_with_default
    (position : string_type → list (string_type * t) → nat)
    (this : json_proxy) : M lvalue :=
  match this with
  | proxy_of_json parent name => evaluate_with_default_in position parent name
  | proxy_of_proxy parent name =>
      do! val := evaluate_with_default position parent in
      evaluate_with_default_in position val name
  end.

(** [parent_.evaluate_with_default()] *)
Definition parent_evaluate_with_default
    (position : string_type → list (string_type * t) → nat)
    (this : json_proxy) : M lvalue :=
  match this with
  | proxy_of_json parent _ => ret parent
  | proxy_of_proxy parent _ => evaluate_with_default position parent
  end.

Definition name_ (this : json_proxy) : string_type :=
  match this with
  | proxy_of_json _ name => name
  | proxy_of_proxy _ name => name
  end.

(** [json_proxy::operator=(basic_json&& val)] *)
Definition assign (position : string_type → list (string_type * t) → nat)
    (this : json_proxy) (val : t) : M unit :=
  do! parent := parent_evaluate_with_default position this in
  basic_json.set position parent (name_ this) val.

(** [json_proxy::add(basic_json&& value)] *)
Definition add (position : string_type → list (string_type * t) → nat)
    (this : json_proxy) (value : t) : M unit :=
  do! val := evaluate_with_default position this in
  basic_json.add val value.

(** The reads of [json_proxy] that carry no [JSONCONS_NOEXCEPT]:
    [evaluate()] first, then the accessor of the value.  The accessors
    declared [JSONCONS_NOEXCEPT] ([is_null()], [is_object()], [size()],
    [as_string()] and others) are not modelled.

    [json_proxy::as_integer()] *)
Definition as_integer (this : json_proxy) : M Z :=
  do! val := evaluate this in
  do! var := load_ val in
  lift (basic_json.as_integer var).

(** [json_proxy::empty()] *)
Definition empty (this : json_proxy) : M bool :=
  do! val := evaluate this in
  do! var := load_ val in
  do! h := get_heap in
  lift (basic_json.empty h var).

(** [json_proxy::count(const string_type& name)] *)
Definition count (this : json_proxy) (name : string_type) : M nat :=
  do! val := evaluate this in
  do! var := load_ val in
  do! h := get_heap in
  lift (basic_json.count h var name).

(** [json_proxy::operator[](size_t i)], not const *)
Definition subscript_index (position : string_type → list (string_type * t) → nat)
    (this : json_proxy) (i : nat) : M lvalue :=
  do! val := evaluate_with_default position this in
  basic_json.at_index val i.
End proxy.

(** ** Part III: notions the properties are stated with *)

(** A position of the caller's memory outside the buffer [p, p + n)
    handed to [read(p, n)]. *)
Definition outside (p n j : nat) : Prop := j < p ∨ p + n ≤ j.

(** The document a value stands for: the value with every pointer
    replaced by what its block holds. *)
Inductive tree : Type :=
  | t_empty_object
  | t_small_string (s : string_type)
  | t_double (d : spec_float)
  | t_integer (i : Z)
  | t_uinteger (u : Z)
  | t_bool (b : bool)
  | t_null
  | t_string (s : string_type)
  | t_object (members : list (string_type * tree))
  | t_array (elements : list tree)
  | t_any (impl : option any_handle).

(** How deeply arrays and objects nest in a tree. *)
Fixpoint depth (t : tree) : nat :=
  match t with
  | t_object members => S (foldr Nat.max 0 (map (λ m, depth m.2) members))
  | t_array elements => S (foldr Nat.max 0 (map depth elements))
  | _ => 0
  end.

(** No [double] of the tree is a NaN and no node is an Any payload. *)
Fixpoint comparable (t : tree) : bool :=
  match t with
  | t_double S754_nan => false
  | t_any _ => false
  | t_object members => forallb (λ m, comparable m.2) members
  | t_array elements => forallb comparable elements
  | _ => true
  end.

(** [repr h v t A]: in the heap [h] the value [v] stands for the tree
    [t], and [A] lists the blocks it owns, its own first and then those
    of its elements in order. *)
Inductive repr (h : list (option cell)) : variant.t → tree → list nat → Prop :=
  | repr_empty_object : repr h variant.empty_object_ t_empty_object []
  | repr_small_string s : repr h (variant.small_string_val_ s) (t_small_string s) []
  | repr_double d : repr h (variant.double_val_ d) (t_double d) []
  | repr_integer i : repr h (variant.integer_val_ i) (t_integer i) []
  | repr_uinteger u : repr h (variant.uinteger_val_ u) (t_uinteger u) []
  | repr_bool b : repr h (variant.bool_val_ b) (t_bool b) []
  | repr_null : repr h variant.null_ t_null []
  | repr_string p s :
      deref h p = Some (string_data s) →
      repr h (variant.string_val_ p) (t_string s) [p]
  | repr_object p members tmembers A :
      deref h p = Some (json_object members) →
      repr_members h members tmembers A →
      repr h (variant.object_val_ p) (t_object tmembers) (p :: A)
  | repr_array p elements telements A :
      deref h p = Some (json_array elements) →
      repr_elements h elements telements A →
      repr h (variant.array_val_ p) (t_array telements) (p :: A)
  | repr_any p impl :
      deref h p = Some (serializable_any impl) →
      repr h (variant.any_val_ p) (t_any impl) [p]
with repr_elements (h : list (option cell))
  : list variant.t → list tree → list nat → Prop :=
  | repr_elements_nil : repr_elements h [] [] []
  | repr_elements_cons e t A elements telements B :
      repr h e t A →
      repr_elements h elements telements B →
      repr_elements h (e :: elements) (t :: telements) (A ++ B)
with repr_members (h : list (option cell))
  : list (string_type * variant.t) → list (string_type * tree) → list nat → Prop :=
  | repr_members_nil : repr_members h [] [] []
  | repr_members_cons name e t A members tmembers B :
      repr h e t A →
      repr_members h members tmembers B →
      repr_members h ((name, e) :: members) ((name, t) :: tmembers) (A ++ B).

Scheme repr_mut := Minimality for repr Sort Prop
  with repr_elements_mut := Minimality for repr_elements Sort Prop
  with repr_members_mut := Minimality for repr_members Sort Prop.

Combined Scheme repr_mutind from repr_mut, repr_elements_mut, repr_members_mut.

(** No block of [A] existed in the heap [H]. *)
Definition fresh_for (H : list (option cell)) (A : list nat) : Prop :=
  ∀ a, a ∈ A → length H ≤ a.

(** What destroying a value does to a heap: the blocks of the
    footprint are released and nothing else changes. *)
Definition released (H H' : list (option cell)) (W : list nat) : Prop :=
  length H' = length H
  ∧ (∀ a, a ∉ W → H' !! a = H !! a)
  ∧ (∀ a, a ∈ W → deref H' a = None).

(** The block an lvalue lies in, when it is an element of an array or
    the value of a member. *)
Definition slot_block (lv : lvalue) : option nat :=
  match lv with
  | lv_var _ => None
  | lv_member p _ | lv_element p _ => Some p
  end.

(** [v'] is a deep copy of [v] in the state [σ]: both stand for the
    tree [t], on separate blocks; they compare equal when the tree can
    be compared at all; and [v] stands for [t] in every heap that
    differs from the one of [σ] outside the blocks of [v] only, in
    particular after any store into a block of [v']. *)
Definition deep_copy (fuel : nat) (σ : state) (v v' : variant.t) (t : tree)
    (A A' : list nat) : Prop :=
  repr (heap_ σ) v' t A' ∧ repr (heap_ σ) v t A
  ∧ NoDup A' ∧ (∀ a, a ∈ A' → a ∉ A)
  ∧ (comparable t = true → variant_ops.equal fuel (heap_ σ) v' v = Ok true)
  ∧ (∀ H, (∀ a, a ∈ A → deref H a = deref (heap_ σ) a) → repr H v t A)
  ∧ (∀ p i x, p ∈ A' →
       repr (heap_ (store σ (lv_member p i) x)) v t A
       ∧ repr (heap_ (store σ (lv_element p i) x)) v t A).

Section stream_notions.
Context {value_type : Type}.

(** The buffered window lies in the buffer, a stream at its end has
    nothing pending, and the transport does not throw. *)
Definition stream_inv (s : stream_source.t value_type) : Prop :=
  stream_source.buffer_data_ s + stream_source.buffer_length_ s
    ≤ length (stream_source.buffer_ s)
  ∧ (stream_source.eofbit (stream_source.stream_ s) = true →
     stream_source.pending (stream_source.rdbuf_ (stream_source.stream_ s)) = [])
  ∧ ∃ l, stream_source.rdbuf_ (stream_source.stream_ s) = stream_source.sb_data l.

(** Position plus what is left: constant while the source is read. *)
Definition stream_total (s : stream_source.t value_type) : nat :=
  stream_source.position_ s + length (stream_source.remaining s).

(** Once [eof()] holds the buffer is empty and the stream is at its end. *)
Definition stream_eof_inv (s : stream_source.t value_type) : Prop :=
  stream_source.eof_ s = true →
  stream_source.buffer_length_ s = 0
  ∧ stream_source.eofbit (stream_source.stream_ s) = true.

(** [read(p, n)] finds the stream at its end, some but fewer than [n]
    units in the buffer, and the rest of the request no smaller than
    the buffer. *)
Definition stream_read_undercounts (s : stream_source.t value_type) (n : nat) : bool :=
  stream_source.eofbit (stream_source.stream_ s)
  && (0 <? stream_source.buffer_length_ s)
  && (stream_source.buffer_length_ s <? n)
  && (length (stream_source.buffer_ s) <=? n - stream_source.buffer_length_ s).

(** A new [stream_source] over a stream that delivers [data]. *)
Definition stream_over (zero : value_type) (data : list value_type) (buf_size : nat)
  : stream_source.t value_type :=
  stream_source.make zero
    {| stream_source.rdbuf_ := stream_source.sb_data data;
       stream_source.eofbit := false; stream_source.badbit := false |} buf_size.

(** What [peek()] is to report when [R] is what remains. *)
Definition next_unit (zero : value_type) (R : list value_type) : character_result value_type :=
  match R with
  | c :: _ => Build_character_result c false
  | [] => Build_character_result zero true
  end.
End stream_notions.

(** Every Any payload of the tree has its handle. *)
Fixpoint serializable (t : tree) : bool :=
  match t with
  | t_any None => false
  | t_object members => forallb (λ m, serializable m.2) members
  | t_array elements => forallb serializable elements
  | _ => true
  end.

(** The calls a handler is to receive for the document [t]. *)
Fixpoint tree_events (t : tree) : list handler.event :=
  match t with
  | t_empty_object => [handler.begin_object; handler.end_object]
  | t_small_string s => [handler.value_string s]
  | t_double d => [handler.value_double d]
  | t_integer i => [handler.value_integer i]
  | t_uinteger u => [handler.value_uinteger u]
  | t_bool b => [handler.value_bool b]
  | t_null => [handler.value_null]
  | t_string s => [handler.value_string s]
  | t_object members =>
      handler.begin_object
      :: concat (map (λ m, handler.name m.1 :: tree_events m.2) members)
      ++ [handler.end_object]
  | t_array elements =>
      handler.begin_array :: concat (map tree_events elements) ++ [handler.end_array]
  | t_any (Some impl) => [handler.any_to_stream impl]
  | t_any None => []
  end.

(** Where a handler stands in the document it is given: in an object
    before a name, in an object after a name, or in an array.  The
    empty stack is the top level. *)
Inductive frame : Type :=
  | expect_name
  | expect_value
  | in_array.

Definition value_allowed (stack : list frame) : bool :=
  match stack with
  | expect_name :: _ => false
  | _ => true
  end.

(** The stack once a value is complete. *)
Definition after_value (stack : list frame) : list frame :=
  match stack with
  | expect_value :: rest => expect_name :: rest
  | _ => stack
  end.

(** One call on the handler; [None] when the call is out of place. *)
Definition handler_step (stack : list frame) (ev : handler.event) : option (list frame) :=
  match ev with
  | handler.begin_object =>
      if value_allowed stack then Some (expect_name :: stack) else None
  | handler.end_object =>
      match stack with
      | expect_name :: rest => Some (after_value rest)
      | _ => None
      end
  | handler.begin_array =>
      if value_allowed stack then Some (in_array :: stack) else None
  | handler.end_array =>
      match stack with
      | in_array :: rest => Some (after_value rest)
      | _ => None
      end
  | handler.name _ =>
      match stack with
      | expect_name :: rest => Some (expect_value :: rest)
      | _ => None
      end
  | _ => if value_allowed stack then Some (after_value stack) else None
  end.

Fixpoint handler_run (stack : list frame) (evs : list handler.event) : option (list frame) :=
  match evs with
  | [] => Some stack
  | ev :: evs' =>
      match handler_step stack ev with
      | Some stack' => handler_run stack' evs'
      | None => None
      end
  end.

(** One call on a source. *)
Inductive source_op : Type :=
  | op_read (p n : nat)
  | op_ignore (n : nat).

Section runs.
Context {Src value_type : Type}.
Variable read : Src → list value_type → nat → nat → read_result Src value_type.
Variable ignore : Src → nat → Src.

(** The source and the caller's memory after a sequence of calls. *)
Fixpoint run (ops : list source_op) (s : Src) (mem : list value_type)
  : Src * list value_type :=
  match ops with
  | [] => (s, mem)
  | op_read p n :: ops' =>
      let '(_, s1, mem1) := read s mem p n in run ops' s1 mem1
  | op_ignore n :: ops' => run ops' (ignore s n) mem
  end.
End runs.

(** *** The states the examples run in *)

(** Where the examples put a new member: behind the others. *)
Definition at_the_end (name : list Z) (members : list (list Z * variant.t)) : nat :=
  length members.

(** Two variables: [w], a heap string, and [v], an integer. *)
Definition two_values : state :=
  {| vars_ := [variant.string_val_ 0; variant.integer_val_ 2];
     heap_ := [Some (string_data [104; 101; 108; 108; 111; 32; 119; 111; 114; 108; 100]%Z)] |}.

(** One variable, a default-constructed value. *)
Definition one_empty_object : state := {| vars_ := [basic_json.default_]; heap_ := [] |}.

(** Two variables: [w], a heap string, and [v], an array of an
    integer, a heap string and an object with one member. *)
Definition nested_values : state :=
  {| vars_ := [variant.string_val_ 0; variant.array_val_ 3];
     heap_ := [Some (string_data [111; 108; 100; 32; 118; 97; 108; 117; 101]%Z);
               Some (string_data [97; 32; 108; 111; 110; 103; 32; 115; 116; 114]%Z);
               Some (json_object [([107]%Z, variant.null_)]);
               Some (json_array [variant.integer_val_ 1; variant.string_val_ 1;
                                 variant.object_val_ 2])] |}.

Definition nested_tree : tree :=
  t_array [t_integer 1;
           t_string [97; 32; 108; 111; 110; 103; 32; 115; 116; 114]%Z;
           t_object [([107]%Z, t_null)]].

(** One variable, an array whose one element is a heap string. *)
Definition alias_state : state :=
  {| vars_ := [variant.array_val_ 0];
     heap_ := [Some (json_array [variant.string_val_ 1]);
               Some (string_data [97; 32; 108; 111; 110; 103; 32; 115; 116; 114]%Z)] |}.

(** Two variables: a null, and an object whose one member [k] is null. *)
Definition an_object : state :=
  {| vars_ := [variant.null_; variant.object_val_ 0];
     heap_ := [Some (json_object [([107%Z], variant.null_)])] |}.

(** One variable, an object without members. *)
Definition an_object_without_members : state :=
  {| vars_ := [variant.object_val_ 0]; heap_ := [Some (json_object [])] |}.

(** [5.5] as a [double] *)
Definition five_and_a_half : spec_float := S754_finite false 6192449487634432 (-50).

(** Membership in a footprint built with [::] and [++]. *)
Ltac elem := rewrite ?elem_of_cons, ?elem_of_app; auto.

(** ** Part IV: the sources *)

(** *** [read] and the caller's buffer *)

Section read_bounds.
Context {value_type : Type}.
Context (sizeof_value_type : nat) (bytes : nat → value_type → value_type → value_type).
Implicit Types (mem view range v : list value_type) (p n j : nat).

Lemma inserts_outside mem p (k : list value_type) n j :
  length k ≤ n → outside p n j → list_inserts p k mem !! j = mem !! j.
Proof.
  intros Hk [Hj|Hj].
  - by apply list_lookup_inserts_lt.
  - apply list_lookup_inserts_ge. lia.
Qed.

Lemma string_source_read_in_bounds (s : string_source.t value_type) mem p n j :
  outside p n j →
  (string_source.read s mem p n).1.1 ≤ n
  ∧ (string_source.read s mem p n).2 !! j = mem !! j.
Proof.
  intros Hj. unfold string_source.read. cbn [fst snd].
  split.
  - case_match; [apply Nat.ltb_lt in H; lia|lia].
  - apply (inserts_outside _ _ _ n); [|done].
    rewrite length_take. case_match; [apply Nat.ltb_lt in H|]; lia.
Qed.

Lemma bytes_source_read_in_bounds (s : bytes_source.t value_type) mem p n j :
  outside p n j →
  (bytes_source.read s mem p n).1.1 ≤ n
  ∧ (bytes_source.read s mem p n).2 !! j = mem !! j.
Proof.
  intros Hj. unfold bytes_source.read. cbn [fst snd].
  split.
  - case_match; [apply Nat.ltb_lt in H; lia|lia].
  - apply (inserts_outside _ _ _ n); [|done].
    rewrite length_take. case_match; [apply Nat.ltb_lt in H|]; lia.
Qed.

Lemma iterator_source_read_loop_spec room range mem p :
  iterator_source.read_loop room range mem p
  = (p + Nat.min room (length range), drop room range,
     list_inserts p (take room range) mem).
Proof.
  revert range mem p. induction room as [|room IH]; intros range mem p.
  - simpl. rewrite drop_0. destruct range; simpl; do 2 f_equal; lia.
  - destruct range as [|c range]; simpl.
    + do 2 f_equal; lia.
    + rewrite IH. f_equal; [f_equal; lia|].
      symmetry. apply list_insert_inserts_lt. lia.
Qed.

Lemma iterator_source_read_spec (s : iterator_source.t value_type) mem p n :
  iterator_source.read s mem p n
  = (Nat.min n (length (iterator_source.range_ s)),
     {| iterator_source.range_ := drop n (iterator_source.range_ s);
        iterator_source.position_ :=
          iterator_source.position_ s + Nat.min n (length (iterator_source.range_ s)) |},
     list_inserts p (take n (iterator_source.range_ s)) mem).
Proof.
  unfold iterator_source.read. rewrite iterator_source_read_loop_spec.
  replace (p + Nat.min n (length (iterator_source.range_ s)) - p)
    with (Nat.min n (length (iterator_source.range_ s))) by lia.
  done.
Qed.

Lemma iterator_source_read_in_bounds (s : iterator_source.t value_type) mem p n j :
  outside p n j →
  (iterator_source.read s mem p n).1.1 ≤ n
  ∧ (iterator_source.read s mem p n).2 !! j = mem !! j.
Proof.
  intros Hj. rewrite iterator_source_read_spec. cbn [fst snd]. split; [lia|].
  apply (inserts_outside _ _ _ n); [|done]. rewrite length_take. lia.
Qed.

Lemma stream_source_sgetn_length (sb : stream_source.streambuf value_type) n :
  length (stream_source.sgetn sb n).1.1 ≤ n.
Proof.
  destruct sb as [l|l]; simpl.
  - rewrite length_take. lia.
  - destruct (Nat.leb_spec n (length l)); simpl.
    + rewrite length_take. lia.
    + lia.
Qed.

Lemma stream_source_buffered_length (s : stream_source.t value_type) len :
  length (stream_source.buffered s len) ≤ len.
Proof. unfold stream_source.buffered. rewrite length_take. lia. Qed.

(** [memcpy] of [len] bytes stores at most [len] units. *)
Lemma memcpy_whole_part (len : nat) :
  len / sizeof_value_type ≤ len
  ∧ (len mod sizeof_value_type ≠ 0 → len / sizeof_value_type < len).
Proof.
  destruct sizeof_value_type as [|sz] eqn:Hsz; [simpl; lia|].
  pose proof (Nat.div_mod_eq len (S sz)) as Hdm. nia.
Qed.

Lemma memcpy_length (mem src : list value_type) p len :
  length (stream_source.memcpy sizeof_value_type bytes mem p src len) = length mem.
Proof.
  unfold stream_source.memcpy. repeat case_match;
    rewrite ?length_insert, ?length_inserts; done.
Qed.

Lemma memcpy_outside (mem src : list value_type) p len n j :
  len ≤ n → outside p n j →
  stream_source.memcpy sizeof_value_type bytes mem p src len !! j = mem !! j.
Proof.
  intros Hlen Hj. destruct (memcpy_whole_part len) as [Hw Hp].
  assert (Hins : list_inserts p (take (len / sizeof_value_type) src) mem !! j = mem !! j).
  { apply (inserts_outside _ _ _ n); [|done]. rewrite length_take. lia. }
  unfold stream_source.memcpy.
  destruct (Nat.eqb_spec (len mod sizeof_value_type) 0) as [|Hne]; [done|].
  repeat case_match; try done.
  rewrite list_lookup_insert_ne; [done|]. specialize (Hp Hne). destruct Hj; lia.
Qed.

(** For a unit of one byte [memcpy] of [n] bytes stores [n] units. *)
Lemma memcpy_units (mem src : list value_type) p n :
  stream_source.memcpy 1 bytes mem p src n = list_inserts p (take n src) mem.
Proof.
  unfold stream_source.memcpy. by rewrite Nat.div_1_r, Nat.mod_1_r.
Qed.

Lemma stream_source_read_in_bounds (s : stream_source.t value_type) mem p n j :
  outside p n j →
  (stream_source.read sizeof_value_type bytes s mem p n).1.1 ≤ n
  ∧ (stream_source.read sizeof_value_type bytes s mem p n).2 !! j = mem !! j.
Proof.
  intros Hj. unfold stream_source.read.
  set (len := if 0 <? stream_source.buffer_length_ s
              then Nat.min (stream_source.buffer_length_ s) n else 0).
  assert (Hlen : len ≤ n) by (subst len; case_match; lia).
  set (mem1 := if 0 <? stream_source.buffer_length_ s
               then stream_source.memcpy sizeof_value_type bytes mem p
                      (drop (stream_source.buffer_data_ s) (stream_source.buffer_ s)) len
               else mem).
  assert (Hmem1 : mem1 !! j = mem !! j).
  { subst mem1. case_match; [|done]. by apply (memcpy_outside _ _ _ _ n). }
  set (s1 := if 0 <? stream_source.buffer_length_ s
             then stream_source.advance s len else s).
  assert (Hj' : outside (p + len) (n - len) j) by (destruct Hj; [left|right]; lia).
  assert (Hout : ∀ k : list value_type, length k ≤ n - len →
                 list_inserts (p + len) k mem1 !! j = mem !! j).
  { intros k Hk. rewrite <-Hmem1. destruct Hj as [Hj|Hj].
    - apply list_lookup_inserts_lt. lia.
    - apply list_lookup_inserts_ge. lia. }
  destruct (n - len =? 0) eqn:Hz; [cbn [fst snd]; done|].
  destruct (n - len <? length (stream_source.buffer_ s1)) eqn:Hb.
  - destruct (0 <? stream_source.buffer_length_ (stream_source.fill_buffer s1)) eqn:Hf;
      cbn [fst snd]; [|done].
    split; [lia|]. rewrite <-Hmem1.
    apply (memcpy_outside _ _ _ _ (n - len)); [lia|done].
  - destruct (stream_source.eofbit (stream_source.stream_ s1)); [cbn [fst snd]; split; [lia|done]|].
    pose proof (stream_source_sgetn_length
                  (stream_source.rdbuf_ (stream_source.stream_ s1)) (n - len)) as Hg.
    destruct (stream_source.sgetn (stream_source.rdbuf_ (stream_source.stream_ s1)) (n - len))
      as [[got threw] sb]. cbn [fst snd] in Hg.
    destruct threw; cbn [fst snd]; (split; [lia|by apply Hout]).
Qed.
End read_bounds.

Section more.
Context {value_type elem_type : Type}.
Implicit Types (mem view range v : list value_type) (p n j : nat).

Lemma binary_iterator_source_read_loop_spec (cast : elem_type → value_type)
    room (range : list elem_type) mem p :
  binary_iterator_source.read_loop cast room range mem p
  = (p + Nat.min room (length range), drop room range,
     list_inserts p (cast <$> take room range) mem).
Proof.
  revert range mem p. induction room as [|room IH]; intros range mem p.
  - simpl. rewrite drop_0. destruct range; simpl; do 2 f_equal; lia.
  - destruct range as [|c range]; simpl.
    + do 2 f_equal; lia.
    + rewrite IH. f_equal; [f_equal; lia|].
      symmetry. apply list_insert_inserts_lt. lia.
Qed.

Lemma binary_iterator_source_read_random_access_in_bounds (cast : elem_type → value_type)
    (s : binary_iterator_source.t elem_type) mem p n j :
  j < p ∨ p + n ≤ j →
  (binary_iterator_source.read cast random_access_iterator_tag s mem p n).1.1 ≤ n
  ∧ (binary_iterator_source.read cast random_access_iterator_tag s mem p n).2 !! j = mem !! j.
Proof.
  intros Hj. unfold binary_iterator_source.read, binary_iterator_source.read_random_access.
  cbn [is_random_access]. rewrite binary_iterator_source_read_loop_spec. cbn [fst snd].
  split; [lia|].
  destruct Hj as [Hj|Hj].
  - by apply list_lookup_inserts_lt.
  - apply list_lookup_inserts_ge. rewrite length_fmap, length_take. lia.
Qed.

(** The overload for the other categories stores the unit that follows
    the [n] requested ones right behind the caller's buffer. *)
Lemma binary_iterator_source_read_not_random_access_overrun (cast : elem_type → value_type)
    (s : binary_iterator_source.t elem_type) mem p n (c : elem_type) :
  binary_iterator_source.range_ s !! n = Some c →
  p + n < length mem →
  (binary_iterator_source.read cast other_iterator_tag s mem p n).1.1 = n
  ∧ (binary_iterator_source.read cast other_iterator_tag s mem p n).2 !! (p + n)
    = Some (cast c).
Proof.
  intros Hc Hmem. unfold binary_iterator_source.read, binary_iterator_source.read_not_random_access.
  cbn [is_random_access fst snd].
  pose proof (lookup_lt_Some _ _ _ Hc) as Hlt.
  split; [lia|].
  rewrite list_lookup_inserts; [|rewrite length_fmap; lia|lia].
  replace (p + n - p) with n by lia.
  by rewrite list_lookup_fmap, Hc.
Qed.

Lemma iterator_source_read_not_random_access_overrun
    (s : iterator_source.t value_type) mem p n (c : value_type) :
  iterator_source.range_ s !! n = Some c →
  p + n < length mem →
  (iterator_source.read_not_random_access s mem p n).1.1 = n
  ∧ (iterator_source.read_not_random_access s mem p n).2 !! (p + n) = Some c.
Proof.
  intros Hc Hmem. unfold iterator_source.read_not_random_access.
  cbn [fst snd].
  pose proof (lookup_lt_Some _ _ _ Hc) as Hlt.
  split; [lia|].
  rewrite list_lookup_inserts; [|lia|lia].
  replace (p + n - p) with n by lia. done.
Qed.

Lemma iterator_source_ignore_loop_spec count range position :
  iterator_source.ignore_loop count range position
  = (drop count range, position + Nat.min count (length range)).
Proof.
  revert range position. induction count as [|count IH]; intros range position.
  - simpl. rewrite drop_0. destruct range; simpl; f_equal; lia.
  - destruct range as [|c range]; simpl.
    + f_equal; lia.
    + rewrite IH. f_equal; lia.
Qed.

(** [iterator_source]: [position()] is the number of units consumed. *)
Lemma iterator_source_position_counts range (s : iterator_source.t value_type) mem p n :
  iterator_source.position (iterator_source.make range) = 0
  ∧ (let s' := (iterator_source.read s mem p n).1.2 in
     iterator_source.position s' + length (iterator_source.remaining s')
     = iterator_source.position s + length (iterator_source.remaining s))
  ∧ (let s' := iterator_source.ignore s n in
     iterator_source.position s' + length (iterator_source.remaining s')
     = iterator_source.position s + length (iterator_source.remaining s)).
Proof.
  split; [done|]. split.
  - rewrite iterator_source_read_spec.
    unfold iterator_source.position, iterator_source.remaining.
    cbn [fst snd iterator_source.range_ iterator_source.position_].
    rewrite length_drop. lia.
  - unfold iterator_source.ignore. rewrite iterator_source_ignore_loop_spec.
    unfold iterator_source.position, iterator_source.remaining.
    cbn [fst snd iterator_source.range_ iterator_source.position_].
    rewrite length_drop. lia.
Qed.
End more.

Section in_buffer.
Context {value_type : Type}.
Context (sizeof_value_type : nat) (bytes : nat → value_type → value_type → value_type).
Implicit Types (mem : list value_type) (p n j : nat).

Lemma outside_take_drop mem mem' p n :
  length mem' = length mem →
  (∀ j, outside p n j → mem' !! j = mem !! j) →
  take p mem' = take p mem ∧ drop (p + n) mem' = drop (p + n) mem.
Proof.
  intros Hlen Hout. split; apply list_eq; intros j.
  - destruct (decide (j < p)) as [Hj|Hj].
    + rewrite !lookup_take_lt by done. apply Hout. by left.
    + rewrite !lookup_take_ge by lia. done.
  - rewrite !lookup_drop. apply Hout. right. lia.
Qed.

(** Every [read] but the two for iterators that are not random access
    returns at most [n] and leaves the caller's memory before [p] and
    from [p + n] on as it was. *)
Theorem reads_stay_in_the_buffer mem p n :
  (∀ s : string_source.t value_type,
     (string_source.read s mem p n).1.1 ≤ n
     ∧ take p (string_source.read s mem p n).2 = take p mem
     ∧ drop (p + n) (string_source.read s mem p n).2 = drop (p + n) mem)
  ∧ (∀ s : bytes_source.t value_type,
     (bytes_source.read s mem p n).1.1 ≤ n
     ∧ take p (bytes_source.read s mem p n).2 = take p mem
     ∧ drop (p + n) (bytes_source.read s mem p n).2 = drop (p + n) mem)
  ∧ (∀ s : iterator_source.t value_type,
     (iterator_source.read s mem p n).1.1 ≤ n
     ∧ take p (iterator_source.read s mem p n).2 = take p mem
     ∧ drop (p + n) (iterator_source.read s mem p n).2 = drop (p + n) mem)
  ∧ (∀ s : stream_source.t value_type,
     (stream_source.read sizeof_value_type bytes s mem p n).1.1 ≤ n
     ∧ take p (stream_source.read sizeof_value_type bytes s mem p n).2 = take p mem
     ∧ drop (p + n) (stream_source.read sizeof_value_type bytes s mem p n).2 = drop (p + n) mem).
Proof.
  split; [|split; [|split]]; intros s.
  - split; [apply (string_source_read_in_bounds s mem p n (p + n)); by right|].
    apply outside_take_drop.
    + unfold string_source.read. cbn [snd]. apply length_inserts.
    + intros j Hj. by apply string_source_read_in_bounds.
  - split; [apply (bytes_source_read_in_bounds s mem p n (p + n)); by right|].
    apply outside_take_drop.
    + unfold bytes_source.read. cbn [snd]. apply length_inserts.
    + intros j Hj. by apply bytes_source_read_in_bounds.
  - split; [apply (iterator_source_read_in_bounds s mem p n (p + n)); by right|].
    apply outside_take_drop.
    + rewrite iterator_source_read_spec. cbn [snd]. apply length_inserts.
    + intros j Hj. by apply iterator_source_read_in_bounds.
  - split; [apply (stream_source_read_in_bounds sizeof_value_type bytes s mem p n (p + n));
            by right|].
    apply outside_take_drop.
    + unfold stream_source.read.
      repeat case_match; cbn [snd]; rewrite ?length_inserts, ?memcpy_length; done.
    + intros j Hj. by apply stream_source_read_in_bounds.
Qed.
End in_buffer.

(** C8: [read(buffer, n)] of every source is to store at most [n]
    units.  The overload of [binary_iterator_source::read] (and of
    [iterator_source::read]) for iterators that are not random access
    does not: over a range of five units and asked for two, it returns
    2 and stores all five, three of them behind the two-unit buffer.
    The overload for random access iterators, on the same input, stores
    two. *)
Theorem C8_read_not_random_access_overruns :
  binary_iterator_source.read (λ x : Z, x) other_iterator_tag
    (binary_iterator_source.make [1; 2; 3; 4; 5]%Z) [0; 0; 0; 0; 0; 0]%Z 0 2
  = (2, {| binary_iterator_source.range_ := [3; 4; 5]%Z;
           binary_iterator_source.position_ := 2 |},
     [1; 2; 3; 4; 5; 0]%Z)
  ∧ binary_iterator_source.read (λ x : Z, x) random_access_iterator_tag
      (binary_iterator_source.make [1; 2; 3; 4; 5]%Z) [0; 0; 0; 0; 0; 0]%Z 0 2
    = (2, {| binary_iterator_source.range_ := [3; 4; 5]%Z;
             binary_iterator_source.position_ := 2 |},
       [1; 2; 0; 0; 0; 0]%Z)
  ∧ iterator_source.read_not_random_access
      (iterator_source.make [1; 2; 3; 4; 5]%Z) [0; 0; 0; 0; 0; 0]%Z 0 2
    = (2, {| iterator_source.range_ := [3; 4; 5]%Z; iterator_source.position_ := 2 |},
       [1; 2; 3; 4; 5; 0]%Z).
Proof. repeat split. Qed.

(** *** [position] *)

Section source_facts.
Context {value_type : Type}.
Implicit Types (mem view range : list value_type) (p n j : nat).

Lemma string_source_remaining_wf (s : string_source.t value_type) :
  string_source.wf s →
  string_source.remaining s = drop (string_source.current_ s) (string_source.view_ s)
  ∧ length (string_source.remaining s) = string_source.end_ s - string_source.current_ s.
Proof.
  intros (Hd & Hc & He). unfold string_source.remaining.
  assert (Hl : length (drop (string_source.current_ s) (string_source.view_ s))
               = string_source.end_ s - string_source.current_ s)
    by (rewrite length_drop; lia).
  rewrite take_ge by lia. done.
Qed.

Lemma string_source_read_spec (s : string_source.t value_type) mem p n :
  string_source.wf s →
  ∃ s', string_source.read s mem p n
        = (Nat.min n (length (string_source.remaining s)), s',
           list_inserts p (take n (string_source.remaining s)) mem)
      ∧ string_source.wf s'
      ∧ string_source.remaining s' = drop n (string_source.remaining s)
      ∧ string_source.view_ s' = string_source.view_ s.
Proof.
  intros Hwf. destruct (string_source_remaining_wf s Hwf) as [Hr Hl].
  destruct Hwf as (Hd & Hc & He).
  unfold string_source.read. rewrite Hl, Hr.
  destruct (Nat.ltb_spec (string_source.end_ s - string_source.current_ s) n) as [Hlt|Hge].
  - eexists. split; [|split; [|split]]; simpl.
    + f_equal; [f_equal; lia|].
      f_equal. rewrite !take_ge; [done| |]; rewrite length_drop; lia.
    + unfold string_source.wf; simpl. lia.
    + unfold string_source.remaining; simpl.
      rewrite drop_drop. rewrite !drop_ge by lia. by rewrite take_nil.
    + done.
  - eexists. split; [|split; [|split]]; simpl.
    + f_equal. f_equal. lia.
    + unfold string_source.wf; simpl. lia.
    + unfold string_source.remaining; simpl.
      rewrite drop_drop. rewrite take_ge; [done|]. rewrite length_drop. lia.
    + done.
Qed.
End source_facts.

Section stream_facts.
Context {value_type : Type}.
Context (sizeof_value_type : nat) (bytes : nat → value_type → value_type → value_type).
Implicit Types (s : stream_source.t value_type) (mem : list value_type) (p n len : nat).

Lemma stream_buffered_length s :
  stream_inv s →
  length (stream_source.buffered s (stream_source.buffer_length_ s))
  = stream_source.buffer_length_ s.
Proof.
  intros (Hw & _). unfold stream_source.buffered.
  rewrite length_take, length_drop. lia.
Qed.

Lemma stream_advance_spec s len :
  stream_inv s → len ≤ stream_source.buffer_length_ s →
  stream_inv (stream_source.advance s len)
  ∧ stream_total (stream_source.advance s len) = stream_total s.
Proof.
  intros Hinv Hlen. pose proof (stream_buffered_length s Hinv) as Hbl.
  destruct Hinv as (Hw & He & Hq). split.
  - split; [simpl; lia|]. split; done.
  - unfold stream_total, stream_source.remaining in *.
    unfold stream_source.buffered in *. simpl.
    rewrite !length_app, !length_take, !length_drop in *. lia.
Qed.

Lemma stream_fill_buffer_spec s :
  stream_inv s → stream_source.buffer_length_ s = 0 →
  stream_inv (stream_source.fill_buffer s)
  ∧ stream_total (stream_source.fill_buffer s) = stream_total s.
Proof.
  intros (Hw & He & [l Hl]) H0. unfold stream_source.fill_buffer.
  destruct (stream_source.eofbit (stream_source.stream_ s)) eqn:Heof.
  - split.
    + split; [simpl; lia|]. split; [simpl; by rewrite Heof|by exists l].
    + unfold stream_total, stream_source.remaining, stream_source.buffered. simpl.
      rewrite H0. done.
  - rewrite Hl. simpl.
    set (N := length (stream_source.buffer_ s)).
    split.
    + split; [simpl; rewrite length_inserts, length_take; lia|].
      split; [|by eexists]. simpl. intros Hlt.
      apply Nat.ltb_lt in Hlt. rewrite length_take in Hlt.
      apply drop_ge. lia.
    + unfold stream_total, stream_source.remaining, stream_source.buffered. simpl.
      rewrite H0, Hl. simpl.
      rewrite !length_app, !length_take, ?length_drop, ?length_inserts.
      fold N. lia.
Qed.

Lemma stream_read_conserves s mem p n :
  stream_inv s →
  stream_inv (stream_source.read sizeof_value_type bytes s mem p n).1.2
  ∧ stream_total (stream_source.read sizeof_value_type bytes s mem p n).1.2 = stream_total s.
Proof.
  intros Hinv. unfold stream_source.read.
  set (len := if 0 <? stream_source.buffer_length_ s
              then Nat.min (stream_source.buffer_length_ s) n else 0).
  set (s1 := if 0 <? stream_source.buffer_length_ s
             then stream_source.advance s len else s).
  assert (Hlen : len ≤ n) by (subst len; case_match; lia).
  assert (H1 : stream_inv s1 ∧ stream_total s1 = stream_total s
               ∧ (len < n → stream_source.buffer_length_ s1 = 0)).
  { subst s1 len. destruct (Nat.ltb_spec 0 (stream_source.buffer_length_ s)) as [Hb|Hb].
    - destruct (stream_advance_spec s (Nat.min (stream_source.buffer_length_ s) n) Hinv)
        as [? ?]; [lia|].
      split; [done|]. split; [done|]. simpl. lia.
    - split; [done|]. split; [done|]. lia. }
  destruct H1 as (Hinv1 & Htot1 & Hempty).
  destruct (Nat.eqb_spec (n - len) 0) as [Hz|Hz]; [cbn [fst snd]; done|].
  assert (Hb0 : stream_source.buffer_length_ s1 = 0) by (apply Hempty; lia).
  destruct (n - len <? length (stream_source.buffer_ s1)) eqn:Hb.
  - destruct (stream_fill_buffer_spec s1 Hinv1 Hb0) as [Hinv2 Htot2].
    destruct (Nat.ltb_spec 0 (stream_source.buffer_length_ (stream_source.fill_buffer s1)));
      cbn [fst snd].
    + destruct (stream_advance_spec (stream_source.fill_buffer s1)
                  (Nat.min (stream_source.buffer_length_ (stream_source.fill_buffer s1))
                     (n - len)) Hinv2) as [? ?]; [lia|].
      split; [done|congruence].
    + split; [done|congruence].
  - destruct Hinv1 as (Hw1 & He1 & [l Hl1]).
    destruct (stream_source.eofbit (stream_source.stream_ s1)) eqn:Heof; cbn [fst snd].
    + split.
      * split; [simpl; lia|]. split; [simpl; intros _; by apply He1|simpl; by exists l].
      * rewrite <-Htot1. unfold stream_total, stream_source.remaining, stream_source.buffered.
        simpl. by rewrite Hb0.
    + rewrite Hl1. simpl. split.
      * split; [simpl; lia|]. split; [|by eexists]. simpl. intros Hlt.
        apply Nat.ltb_lt in Hlt. rewrite length_take in Hlt. apply drop_ge. lia.
      * rewrite <-Htot1. unfold stream_total, stream_source.remaining, stream_source.buffered.
        simpl. rewrite Hl1, Hb0. simpl.
        rewrite ?length_app, ?length_take, ?length_drop. simpl. lia.
Qed.

Lemma stream_ignore_loop_conserves rounds s todo :
  stream_inv s → stream_source.buffer_length_ s = 0 ∨ todo = 0 →
  stream_inv (stream_source.ignore_loop rounds s todo)
  ∧ stream_total (stream_source.ignore_loop rounds s todo) = stream_total s.
Proof.
  revert s todo. induction rounds as [|rounds IH]; intros s todo Hinv Hb; [done|].
  simpl. destruct (Nat.ltb_spec 0 todo) as [Ht|Ht]; [|done].
  destruct Hb as [Hb|Hb]; [|lia].
  destruct (stream_fill_buffer_spec s Hinv Hb) as [Hinv2 Htot2].
  destruct (Nat.eqb_spec (stream_source.buffer_length_ (stream_source.fill_buffer s)) 0)
    as [Hz|Hz]; [done|].
  destruct (stream_advance_spec (stream_source.fill_buffer s)
              (Nat.min (stream_source.buffer_length_ (stream_source.fill_buffer s)) todo)
              Hinv2) as [Hinv3 Htot3]; [lia|].
  destruct (IH (stream_source.advance (stream_source.fill_buffer s)
                  (Nat.min (stream_source.buffer_length_ (stream_source.fill_buffer s)) todo))
              (todo - Nat.min (stream_source.buffer_length_ (stream_source.fill_buffer s)) todo)
              Hinv3) as [? ?]; [simpl; lia|].
  split; [done|congruence].
Qed.

Lemma stream_ignore_conserves s n :
  stream_inv s →
  stream_inv (stream_source.ignore s n)
  ∧ stream_total (stream_source.ignore s n) = stream_total s.
Proof.
  intros Hinv. unfold stream_source.ignore.
  set (len := if 0 <? stream_source.buffer_length_ s
              then Nat.min (stream_source.buffer_length_ s) n else 0).
  set (s1 := if 0 <? stream_source.buffer_length_ s
             then stream_source.advance s len else s).
  assert (H1 : stream_inv s1 ∧ stream_total s1 = stream_total s
               ∧ (stream_source.buffer_length_ s1 = 0 ∨ n - len = 0)).
  { subst s1 len. destruct (Nat.ltb_spec 0 (stream_source.buffer_length_ s)) as [Hb|Hb].
    - destruct (stream_advance_spec s (Nat.min (stream_source.buffer_length_ s) n) Hinv)
        as [? ?]; [lia|].
      split; [done|]. split; [done|]. simpl. lia.
    - split; [done|]. split; [done|]. lia. }
  destruct H1 as (Hinv1 & Htot1 & Hempty).
  destruct (stream_ignore_loop_conserves (S (n - len)) s1 (n - len) Hinv1 Hempty) as [? ?].
  split; [done|congruence].
Qed.

(** A new [stream_source] over a transport that delivers [data]:
    [position()] is [0] and stays the number of units consumed. *)
Lemma stream_make_inv (zero : value_type) (data : list value_type) buf_size :
  let s := stream_source.make zero
             {| stream_source.rdbuf_ := stream_source.sb_data data;
                stream_source.eofbit := false; stream_source.badbit := false |} buf_size in
  stream_inv s ∧ stream_source.position s = 0 ∧ stream_total s = length data.
Proof.
  split; [|split; [done|]].
  - split; [simpl; lia|]. split; [done|by eexists].
  - unfold stream_total, stream_source.remaining, stream_source.buffered. done.
Qed.
End stream_facts.

Section position_facts.
Context {value_type : Type}.
Context (sizeof_value_type : nat) (bytes : nat → value_type → value_type → value_type).
Implicit Types (mem data : list value_type) (ops : list source_op).

Lemma string_source_ignore_spec (s : string_source.t value_type) n :
  string_source.wf s →
  string_source.wf (string_source.ignore s n)
  ∧ string_source.remaining (string_source.ignore s n) = drop n (string_source.remaining s)
  ∧ string_source.view_ (string_source.ignore s n) = string_source.view_ s.
Proof.
  intros Hwf. destruct (string_source_remaining_wf s Hwf) as [Hr Hl].
  destruct Hwf as (Hd & Hc & He). unfold string_source.ignore.
  destruct (Nat.ltb_spec (string_source.end_ s - string_source.current_ s) n) as [Hlt|Hge].
  - split; [unfold string_source.wf; simpl; lia|]. split; [|done].
    rewrite Hr. unfold string_source.remaining; simpl.
    rewrite drop_drop. rewrite !drop_ge by lia. by rewrite take_nil.
  - split; [unfold string_source.wf; simpl; lia|]. split; [|done].
    rewrite Hr. unfold string_source.remaining; simpl.
    rewrite drop_drop. rewrite take_ge; [done|]. rewrite length_drop. lia.
Qed.

(** [string_source]: [position()] is one more than the number of units
    consumed. *)
Lemma string_source_position_spec (s : string_source.t value_type) :
  string_source.wf s →
  string_source.position 1 s
  = length (string_source.view_ s) - length (string_source.remaining s) + 1.
Proof.
  intros Hwf. destruct (string_source_remaining_wf s Hwf) as [_ Hl].
  destruct Hwf as (Hd & Hc & He). unfold string_source.position.
  rewrite Nat.div_1_r. lia.
Qed.

Lemma string_source_run_wf ops (s : string_source.t value_type) mem :
  string_source.wf s →
  string_source.wf (run string_source.read string_source.ignore ops s mem).1
  ∧ string_source.view_ (run string_source.read string_source.ignore ops s mem).1
    = string_source.view_ s.
Proof.
  revert s mem. induction ops as [|[p n|n] ops IH]; intros s mem Hwf; [done| |].
  - cbn [run]. destruct (string_source_read_spec s mem p n Hwf) as (s' & Hread & Hwf' & _ & Hv).
    rewrite Hread. destruct (IH s' (list_inserts p (take n (string_source.remaining s)) mem) Hwf')
      as [? ?]. split; [done|congruence].
  - cbn [run]. destruct (string_source_ignore_spec s n Hwf) as (Hwf' & _ & Hv).
    destruct (IH (string_source.ignore s n) mem Hwf') as [? ?]. split; [done|congruence].
Qed.

Lemma string_source_position_after_run ops data mem :
  let s := (run string_source.read string_source.ignore ops (string_source.make data) mem).1 in
  string_source.position 1 s = length data - length (string_source.remaining s) + 1.
Proof.
  intros s.
  assert (Hwf : string_source.wf (string_source.make data))
    by (unfold string_source.wf; simpl; lia).
  destruct (string_source_run_wf ops _ mem Hwf) as [Hwf' Hv].
  subst s. rewrite string_source_position_spec by done. by rewrite Hv.
Qed.

(** [iterator_source]: after any sequence of reads and ignores on a
    source made over a range, [position()] and the number of elements
    left add up to the length of the range. *)
Lemma iterator_source_position_after_run ops data mem :
  let s := (run iterator_source.read iterator_source.ignore ops
              (iterator_source.make data) mem).1 in
  iterator_source.position s + length (iterator_source.remaining s) = length data.
Proof.
  intros s.
  assert (Hgen : ∀ ops (s0 : iterator_source.t value_type) mem,
    let s := (run iterator_source.read iterator_source.ignore ops s0 mem).1 in
    iterator_source.position s + length (iterator_source.remaining s)
    = iterator_source.position s0 + length (iterator_source.remaining s0)).
  { clear. induction ops as [|[p n|n] ops IH]; intros s0 mem; [done| |].
    - cbn [run]. destruct (iterator_source.read s0 mem p n) as [[c s1] mem1] eqn:Hr.
      pose proof (proj1 (proj2 (iterator_source_position_counts [] s0 mem p n))) as Hc.
      rewrite Hr in Hc. simpl in Hc. rewrite <-Hc. apply IH.
    - cbn [run].
      pose proof (proj2 (proj2 (iterator_source_position_counts [] s0 mem 0 n))) as Hc.
      simpl in Hc. rewrite <-Hc. apply IH. }
  subst s. rewrite Hgen. done.
Qed.

(** [stream_source]: after any sequence of reads and ignores,
    [position()] and the number of units left in the buffer and in the
    stream add up to the length of the stream's data. *)
Lemma stream_source_position_after_run (zero : value_type) ops data buf_size mem :
  let s := (run (stream_source.read sizeof_value_type bytes) stream_source.ignore ops
              (stream_source.make zero
                 {| stream_source.rdbuf_ := stream_source.sb_data data;
                    stream_source.eofbit := false; stream_source.badbit := false |}
                 buf_size) mem).1 in
  stream_source.position s + length (stream_source.remaining s) = length data.
Proof.
  intros s.
  assert (Hgen : ∀ ops (s0 : stream_source.t value_type) mem, stream_inv s0 →
    stream_total (run (stream_source.read sizeof_value_type bytes) stream_source.ignore ops s0 mem).1
    = stream_total s0).
  { clear. induction ops as [|[p n|n] ops IH]; intros s0 mem Hinv; [done| |].
    - cbn [run]. destruct (stream_read_conserves sizeof_value_type bytes s0 mem p n Hinv) as [Hinv' Htot].
      destruct (stream_source.read sizeof_value_type bytes s0 mem p n) as [[c s1] mem1]. simpl in *.
      rewrite <-Htot. by apply IH.
    - cbn [run]. destruct (stream_ignore_conserves s0 n Hinv) as [Hinv' Htot].
      rewrite <-Htot. by apply IH. }
  destruct (stream_make_inv zero data buf_size) as (Hinv & _ & Htot).
  subst s. specialize (Hgen ops _ mem Hinv). unfold stream_total in Hgen, Htot.
  unfold stream_source.position. rewrite Hgen. done.
Qed.
End position_facts.

(** C9: [position()] is to be the number of units consumed, 0 for a new
    source.  A new [string_source] and a new [bytes_source] over three
    units, nothing consumed, report 1; a new [iterator_source],
    [binary_iterator_source] and [stream_source] report 0. *)
Theorem C9_slice_sources_start_at_1 :
  string_source.position 1 (string_source.make [97; 98; 99]%Z) = 1
  ∧ string_source.remaining (string_source.make [97; 98; 99]%Z) = [97; 98; 99]%Z
  ∧ bytes_source.position (bytes_source.make [97; 98; 99]%Z) = 1
  ∧ bytes_source.remaining (bytes_source.make [97; 98; 99]%Z) = [97; 98; 99]%Z
  ∧ iterator_source.position (iterator_source.make [97; 98; 99]%Z) = 0
  ∧ binary_iterator_source.position (binary_iterator_source.make [97; 98; 99]%Z) = 0
  ∧ stream_source.position
      (stream_source.make 0%Z
         {| stream_source.rdbuf_ := stream_source.sb_data [97; 98; 99]%Z;
            stream_source.eofbit := false; stream_source.badbit := false |} 4) = 0.
Proof. repeat split. Qed.

(** *** The bulk reader *)

Section source_facts2.
Context {value_type : Type}.
Implicit Types (mem view range v : list value_type) (p n j : nat).

Lemma string_source_eof_remaining (s : string_source.t value_type) :
  string_source.wf s →
  string_source.eof s = bool_decide (string_source.remaining s = []).
Proof.
  intros Hwf. destruct (string_source_remaining_wf s Hwf) as [_ Hl].
  destruct Hwf as (Hd & Hc & He). unfold string_source.eof.
  destruct (Nat.eqb_spec (string_source.current_ s) (string_source.end_ s)) as [Heq|Hne].
  - symmetry. apply bool_decide_eq_true. apply length_zero_iff_nil. lia.
  - symmetry. apply bool_decide_eq_false. intros Hnil.
    rewrite Hnil in Hl. simpl in Hl. lia.
Qed.

Lemma inserts_into_padding v (k : list value_type) n (zero : value_type) :
  length k ≤ n →
  list_inserts (length v) k (v ++ replicate n zero)
  = v ++ k ++ replicate (n - length k) zero.
Proof.
  intros Hk.
  replace (length v) with (length v + 0) by lia.
  rewrite list_inserts_app_r. f_equal.
  replace n with (length k + (n - length k)) at 1 by lia.
  rewrite replicate_add. apply list_inserts_0_r. by rewrite length_replicate.
Qed.

End source_facts2.


(** *** What [read], [ignore] and [peek] deliver *)

Section slice_facts.
Context {value_type : Type}.
Implicit Types (mem data : list value_type) (ops : list source_op) (p n : nat).

Lemma bytes_source_remaining_wf (s : bytes_source.t value_type) :
  bytes_source.wf s →
  bytes_source.remaining s = drop (bytes_source.current_ s) (bytes_source.view_ s)
  ∧ length (bytes_source.remaining s) = bytes_source.end_ s - bytes_source.current_ s.
Proof.
  intros (Hd & Hc & He). unfold bytes_source.remaining.
  assert (Hl : length (drop (bytes_source.current_ s) (bytes_source.view_ s))
               = bytes_source.end_ s - bytes_source.current_ s)
    by (rewrite length_drop; lia).
  rewrite take_ge by lia. done.
Qed.

Lemma bytes_source_read_spec (s : bytes_source.t value_type) mem p n :
  bytes_source.wf s →
  ∃ s', bytes_source.read s mem p n
        = (Nat.min n (length (bytes_source.remaining s)), s',
           list_inserts p (take n (bytes_source.remaining s)) mem)
      ∧ bytes_source.wf s'
      ∧ bytes_source.remaining s' = drop n (bytes_source.remaining s)
      ∧ bytes_source.view_ s' = bytes_source.view_ s
      ∧ bytes_source.ignore s n = s'.
Proof.
  intros Hwf. destruct (bytes_source_remaining_wf s Hwf) as [Hr Hl].
  destruct Hwf as (Hd & Hc & He).
  unfold bytes_source.read, bytes_source.ignore. rewrite Hl, Hr.
  destruct (Nat.ltb_spec (bytes_source.end_ s - bytes_source.current_ s) n) as [Hlt|Hge].
  - eexists. split; [|split; [|split; [|split]]]; simpl.
    + f_equal; [f_equal; lia|].
      f_equal. rewrite !take_ge; [done| |]; rewrite length_drop; lia.
    + unfold bytes_source.wf; simpl. lia.
    + unfold bytes_source.remaining; simpl.
      rewrite drop_drop. rewrite !drop_ge by lia. by rewrite take_nil.
    + done.
    + done.
  - eexists. split; [|split; [|split; [|split]]]; simpl.
    + f_equal. f_equal. lia.
    + unfold bytes_source.wf; simpl. lia.
    + unfold bytes_source.remaining; simpl.
      rewrite drop_drop. rewrite take_ge; [done|]. rewrite length_drop. lia.
    + done.
    + done.
Qed.

Lemma string_source_ignore_is_read (s : string_source.t value_type) mem p n :
  string_source.ignore s n = (string_source.read s mem p n).1.2.
Proof. done. Qed.

Lemma bytes_source_run_wf ops (s : bytes_source.t value_type) mem :
  bytes_source.wf s →
  bytes_source.wf (run bytes_source.read bytes_source.ignore ops s mem).1
  ∧ bytes_source.view_ (run bytes_source.read bytes_source.ignore ops s mem).1
    = bytes_source.view_ s.
Proof.
  revert s mem. induction ops as [|[p n|n] ops IH]; intros s mem Hwf; [done| |].
  - cbn [run]. destruct (bytes_source_read_spec s mem p n Hwf) as (s' & Hread & Hwf' & _ & Hv & _).
    rewrite Hread. destruct (IH s' (list_inserts p (take n (bytes_source.remaining s)) mem) Hwf')
      as [? ?]. split; [done|congruence].
  - cbn [run]. destruct (bytes_source_read_spec s [] 0 n Hwf) as (s' & _ & Hwf' & _ & Hv & Hi).
    rewrite Hi. destruct (IH s' mem Hwf') as [? ?]. split; [done|congruence].
Qed.

(** [read] of a [string_source] and of a [bytes_source], in any state
    reached from a new source: it returns the smaller of [n] and the
    number of units that remain, stores exactly the first [n] of them at
    [p], and leaves the rest; [ignore(n)] leaves the same source. *)
Theorem slice_sources_read_delivers ops data mem0 mem p n :
  (let s := (run string_source.read string_source.ignore ops
               (string_source.make data) mem0).1 in
   let R := string_source.remaining s in
   ∃ s', string_source.read s mem p n
         = (Nat.min n (length R), s', list_inserts p (take n R) mem)
       ∧ string_source.remaining s' = drop n R
       ∧ string_source.ignore s n = s')
  ∧ (let s := (run bytes_source.read bytes_source.ignore ops
                 (bytes_source.make data) mem0).1 in
     let R := bytes_source.remaining s in
     ∃ s', bytes_source.read s mem p n
           = (Nat.min n (length R), s', list_inserts p (take n R) mem)
         ∧ bytes_source.remaining s' = drop n R
         ∧ bytes_source.ignore s n = s').
Proof.
  split; intros s R.
  - assert (Hwf : string_source.wf (string_source.make data))
      by (unfold string_source.wf; simpl; lia).
    destruct (string_source_run_wf ops _ mem0 Hwf) as [Hwf' _]. fold s in Hwf'.
    destruct (string_source_read_spec s mem p n Hwf') as (s' & Hread & _ & Hrem & _).
    exists s'. split; [done|]. split; [done|].
    rewrite (string_source_ignore_is_read s mem p n), Hread. done.
  - assert (Hwf : bytes_source.wf (bytes_source.make data))
      by (unfold bytes_source.wf; simpl; lia).
    destruct (bytes_source_run_wf ops _ mem0 Hwf) as [Hwf' _]. fold s in Hwf'.
    destruct (bytes_source_read_spec s mem p n Hwf') as (s' & Hread & _ & Hrem & _ & Hi).
    by exists s'.
Qed.

(** [position()] of a [string_source] over units of [sz] bytes and of a
    [bytes_source], after any sequence of reads and ignores: what
    remains is the data without the [k] units consumed, and the position
    reported is [k / sz + 1], for bytes [k + 1]. *)
Theorem slice_sources_position_after_run ops data mem (sz : nat) :
  (let s := (run string_source.read string_source.ignore ops
               (string_source.make data) mem).1 in
   let k := length data - length (string_source.remaining s) in
   string_source.remaining s = drop k data
   ∧ string_source.position sz s = k / sz + 1)
  ∧ (let s := (run bytes_source.read bytes_source.ignore ops
                 (bytes_source.make data) mem).1 in
     let k := length data - length (bytes_source.remaining s) in
     bytes_source.remaining s = drop k data
     ∧ bytes_source.position s = k + 1).
Proof.
  split; intros s k.
  - assert (Hwf : string_source.wf (string_source.make data))
      by (unfold string_source.wf; simpl; lia).
    destruct (string_source_run_wf ops _ mem Hwf) as [Hwf' Hv]. fold s in Hwf', Hv.
    simpl in Hv.
    destruct (string_source_remaining_wf s Hwf') as [Hr Hl].
    destruct Hwf' as (Hd & Hc & He). rewrite Hv in *.
    assert (Hk : k = string_source.current_ s) by (subst k; lia).
    split; [by rewrite Hk|].
    unfold string_source.position. rewrite Hd, Nat.sub_0_r. by rewrite Hk.
  - assert (Hwf : bytes_source.wf (bytes_source.make data))
      by (unfold bytes_source.wf; simpl; lia).
    destruct (bytes_source_run_wf ops _ mem Hwf) as [Hwf' Hv]. fold s in Hwf', Hv.
    simpl in Hv.
    destruct (bytes_source_remaining_wf s Hwf') as [Hr Hl].
    destruct Hwf' as (Hd & Hc & He). rewrite Hv in *.
    assert (Hk : k = bytes_source.current_ s) by (subst k; lia).
    split; [by rewrite Hk|].
    unfold bytes_source.position. lia.
Qed.
End slice_facts.

Section iterator_facts.
Context {value_type elem_type : Type}.
Implicit Types (mem : list value_type) (ops : list source_op) (p n : nat).

Lemma binary_iterator_source_ignore_loop_spec count (range : list elem_type) position :
  binary_iterator_source.ignore_loop count range position
  = (drop count range, position + Nat.min count (length range)).
Proof.
  revert range position. induction count as [|count IH]; intros range position.
  - simpl. rewrite drop_0. destruct range; simpl; f_equal; lia.
  - destruct range as [|c range]; simpl.
    + f_equal; lia.
    + rewrite IH. f_equal; lia.
Qed.

(** [read] of an [iterator_source] and, for random access iterators, of
    a [binary_iterator_source]: it returns the smaller of [n] and the
    number of elements left, stores exactly the first [n] of them
    (converted) at [p], advances [position()] by the count, and leaves
    the rest; [ignore(n)] leaves the same source. *)
Theorem iterator_sources_read_delivers (cast : elem_type → value_type)
    (s : iterator_source.t value_type) (b : binary_iterator_source.t elem_type) mem p n :
  (let R := iterator_source.remaining s in
   ∃ s', iterator_source.read s mem p n
         = (Nat.min n (length R), s', list_inserts p (take n R) mem)
       ∧ iterator_source.remaining s' = drop n R
       ∧ iterator_source.position s' = iterator_source.position s + Nat.min n (length R)
       ∧ iterator_source.ignore s n = s')
  ∧ (let R := binary_iterator_source.remaining cast b in
     ∃ b', binary_iterator_source.read cast random_access_iterator_tag b mem p n
           = (Nat.min n (length R), b', list_inserts p (take n R) mem)
         ∧ binary_iterator_source.remaining cast b' = drop n R
         ∧ binary_iterator_source.position b'
           = binary_iterator_source.position b + Nat.min n (length R)
         ∧ binary_iterator_source.ignore b n = b').
Proof.
  split; intros R.
  - eexists. split; [apply iterator_source_read_spec|]. split; [done|]. split; [done|].
    unfold iterator_source.ignore. by rewrite iterator_source_ignore_loop_spec.
  - unfold binary_iterator_source.read, binary_iterator_source.read_random_access.
    cbn [is_random_access]. rewrite binary_iterator_source_read_loop_spec.
    subst R. unfold binary_iterator_source.remaining.
    rewrite length_fmap, <-fmap_take.
    replace (p + Nat.min n (length (binary_iterator_source.range_ b)) - p)
      with (Nat.min n (length (binary_iterator_source.range_ b))) by lia.
    eexists. split; [done|]. split; [simpl; by rewrite fmap_drop|]. split; [done|].
    unfold binary_iterator_source.ignore. by rewrite binary_iterator_source_ignore_loop_spec.
Qed.

(** [binary_iterator_source]: whichever [read] the iterator category
    selects, [position()] stays the number of elements consumed. *)
Theorem binary_iterator_source_position_after_run (cast : elem_type → value_type)
    (category : iterator_category) ops (data : list elem_type) mem :
  let s := (run (binary_iterator_source.read cast category) binary_iterator_source.ignore ops
              (binary_iterator_source.make data) mem).1 in
  binary_iterator_source.position s + length (binary_iterator_source.remaining cast s)
  = length data.
Proof.
  intros s.
  assert (Hgen : ∀ ops (s0 : binary_iterator_source.t elem_type) mem,
    let s := (run (binary_iterator_source.read cast category)
                binary_iterator_source.ignore ops s0 mem).1 in
    binary_iterator_source.position s + length (binary_iterator_source.range_ s)
    = binary_iterator_source.position s0 + length (binary_iterator_source.range_ s0)).
  { clear. induction ops as [|[p n|n] ops IH]; intros s0 mem; [done| |].
    - cbn [run]. unfold binary_iterator_source.read.
      destruct category; cbn [is_random_access].
      + unfold binary_iterator_source.read_random_access.
        rewrite binary_iterator_source_read_loop_spec.
        etrans; [apply IH|]. unfold binary_iterator_source.position. simpl.
        rewrite length_drop. lia.
      + unfold binary_iterator_source.read_not_random_access.
        etrans; [apply IH|]. unfold binary_iterator_source.position. simpl.
        rewrite length_drop. lia.
    - cbn [run]. unfold binary_iterator_source.ignore.
      rewrite binary_iterator_source_ignore_loop_spec.
      etrans; [apply IH|]. unfold binary_iterator_source.position. simpl.
      rewrite length_drop. lia. }
  subst s. unfold binary_iterator_source.remaining. rewrite length_fmap, Hgen. done.
Qed.

(** [peek()] of the four sources without a buffer reports the first
    unit of what remains, and the end when nothing remains. *)
Theorem peek_is_the_next_unit (zero : value_type) (cast : elem_type → value_type)
    ops (data : list value_type) mem
    (s : iterator_source.t value_type) (b : binary_iterator_source.t elem_type) :
  (let ss := (run string_source.read string_source.ignore ops
                (string_source.make data) mem).1 in
   string_source.peek zero ss = next_unit zero (string_source.remaining ss))
  ∧ (let bs := (run bytes_source.read bytes_source.ignore ops
                  (bytes_source.make data) mem).1 in
     bytes_source.peek zero bs = next_unit zero (bytes_source.remaining bs))
  ∧ iterator_source.peek zero s = next_unit zero (iterator_source.remaining s)
  ∧ binary_iterator_source.peek zero cast b
    = next_unit zero (binary_iterator_source.remaining cast b).
Proof.
  split; [|split; [|split]].
  - intros ss.
    assert (Hwf : string_source.wf (string_source.make data))
      by (unfold string_source.wf; simpl; lia).
    destruct (string_source_run_wf ops _ mem Hwf) as [Hwf' _]. fold ss in Hwf'.
    destruct (string_source_remaining_wf ss Hwf') as [Hr Hl].
    destruct Hwf' as (Hd & Hc & He). unfold string_source.peek.
    destruct (Nat.ltb_spec (string_source.current_ ss) (string_source.end_ ss)) as [Hlt|Hge].
    + destruct (string_source.remaining ss) as [|c R] eqn:HR; [simpl in Hl; lia|].
      assert (Hc0 : string_source.view_ ss !! string_source.current_ ss = Some c).
      { replace (string_source.current_ ss) with (string_source.current_ ss + 0) by lia.
        rewrite <-lookup_drop, <-Hr. done. }
      by rewrite Hc0.
    + destruct (string_source.remaining ss) as [|c R] eqn:HR; [done|simpl in Hl; lia].
  - intros bs.
    assert (Hwf : bytes_source.wf (bytes_source.make data))
      by (unfold bytes_source.wf; simpl; lia).
    destruct (bytes_source_run_wf ops _ mem Hwf) as [Hwf' _]. fold bs in Hwf'.
    destruct (bytes_source_remaining_wf bs Hwf') as [Hr Hl].
    destruct Hwf' as (Hd & Hc & He). unfold bytes_source.peek.
    destruct (Nat.ltb_spec (bytes_source.current_ bs) (bytes_source.end_ bs)) as [Hlt|Hge].
    + destruct (bytes_source.remaining bs) as [|c R] eqn:HR; [simpl in Hl; lia|].
      assert (Hc0 : bytes_source.view_ bs !! bytes_source.current_ bs = Some c).
      { replace (bytes_source.current_ bs) with (bytes_source.current_ bs + 0) by lia.
        rewrite <-lookup_drop, <-Hr. done. }
      by rewrite Hc0.
    + destruct (bytes_source.remaining bs) as [|c R] eqn:HR; [done|simpl in Hl; lia].
  - unfold iterator_source.peek, iterator_source.remaining. by destruct (iterator_source.range_ s).
  - unfold binary_iterator_source.peek, binary_iterator_source.remaining.
    by destruct (binary_iterator_source.range_ b).
Qed.
End iterator_facts.

(** *** The buffered stream *)

Section stream_content.
Context {value_type : Type}.
Context (sizeof_value_type : nat) (bytes : nat → value_type → value_type → value_type).
Implicit Types (s : stream_source.t value_type) (mem : list value_type) (p n len : nat).

Lemma inserts_0_take (k buf : list value_type) :
  length k ≤ length buf → take (length k) (list_inserts 0 k buf) = k.
Proof.
  intros Hk. rewrite <-(take_drop (length k) buf) at 1.
  rewrite list_inserts_0_r by (rewrite length_take; lia).
  by rewrite take_app_length.
Qed.

Lemma take_min_length (l : list value_type) n :
  take (Nat.min n (length l)) l = take n l.
Proof.
  destruct (decide (n ≤ length l)).
  - by rewrite Nat.min_l.
  - rewrite Nat.min_r by lia. rewrite !take_ge by lia. done.
Qed.

Lemma drop_min_length (l : list value_type) n :
  drop (Nat.min n (length l)) l = drop n l.
Proof.
  destruct (decide (n ≤ length l)).
  - by rewrite Nat.min_l.
  - rewrite Nat.min_r by lia. rewrite !drop_ge by lia. done.
Qed.

Lemma stream_remaining_length s :
  stream_inv s →
  length (stream_source.remaining s)
  = stream_source.buffer_length_ s
    + length (stream_source.pending (stream_source.rdbuf_ (stream_source.stream_ s))).
Proof.
  intros Hinv. unfold stream_source.remaining.
  by rewrite length_app, stream_buffered_length.
Qed.

Lemma stream_advance_content s len :
  stream_inv s → len ≤ stream_source.buffer_length_ s →
  stream_source.buffered s len = take len (stream_source.remaining s)
  ∧ stream_source.remaining (stream_source.advance s len)
    = drop len (stream_source.remaining s).
Proof.
  intros Hinv Hlen. pose proof (stream_buffered_length s Hinv) as Hbl.
  destruct Hinv as (Hw & _). unfold stream_source.remaining, stream_source.buffered in *.
  split.
  - rewrite take_app_le by lia. rewrite take_take. f_equal. lia.
  - simpl. rewrite drop_app_le by lia. f_equal.
    rewrite !take_drop_commute, drop_drop. f_equal. f_equal. lia.
Qed.

Lemma stream_fill_buffer_content s :
  stream_inv s → stream_source.buffer_length_ s = 0 →
  stream_source.remaining (stream_source.fill_buffer s) = stream_source.remaining s
  ∧ stream_source.position_ (stream_source.fill_buffer s) = stream_source.position_ s
  ∧ length (stream_source.buffer_ (stream_source.fill_buffer s))
    = length (stream_source.buffer_ s)
  ∧ (stream_source.buffer_length_ (stream_source.fill_buffer s)
       < length (stream_source.buffer_ s) →
     stream_source.pending
       (stream_source.rdbuf_ (stream_source.stream_ (stream_source.fill_buffer s))) = [])
  ∧ (stream_eof_inv s → stream_eof_inv (stream_source.fill_buffer s)).
Proof.
  intros (Hw & He & [l Hl]) H0. unfold stream_source.fill_buffer.
  destruct (stream_source.eofbit (stream_source.stream_ s)) eqn:Heof.
  - unfold stream_source.remaining, stream_source.buffered. simpl. rewrite H0.
    split; [done|]. split; [done|]. split; [done|]. split; [intros _; by apply He|].
    intros _ _. done.
  - rewrite Hl. simpl.
    unfold stream_source.remaining, stream_source.buffered. simpl. rewrite H0, Hl. simpl.
    rewrite drop_0.
    split.
    { rewrite inserts_0_take by (rewrite length_take; lia). apply take_drop. }
    split; [done|]. split; [apply length_inserts|]. split.
    + rewrite length_take. intros Hlt. apply drop_ge. lia.
    + intros HJ Heof_. destruct (HJ Heof_) as [_ Hb]. congruence.
Qed.

(** The source a [read] leaves and the count it returns do not depend
    on the size of a unit. *)
Lemma stream_read_state s mem p n :
  (stream_source.read sizeof_value_type bytes s mem p n).1
  = (stream_source.read 1 bytes s mem p n).1.
Proof. unfold stream_source.read. by repeat case_match. Qed.

(** [read] for units of one byte. *)
Lemma stream_read_units_spec s mem p n :
  stream_inv s →
  let R := stream_source.remaining s in
  let r := stream_source.read 1 bytes s mem p n in
  r.1.1 = (if stream_read_undercounts s n then 0 else Nat.min n (length R))
  ∧ r.2 = list_inserts p (take n R) mem
  ∧ stream_source.remaining r.1.2 = drop n R
  ∧ stream_source.position r.1.2 = stream_source.position s + Nat.min n (length R)
  ∧ (stream_eof_inv s → stream_eof_inv r.1.2).
Proof.
  intros Hinv R r. subst r. unfold stream_source.read. rewrite !memcpy_units.
  repeat match goal with
         | |- context [take ?k (drop (stream_source.buffer_data_ ?x) (stream_source.buffer_ ?x))] =>
             change (take k (drop (stream_source.buffer_data_ x) (stream_source.buffer_ x)))
               with (stream_source.buffered x k)
         end.
  pose proof (stream_remaining_length s Hinv) as HRl. fold R in HRl.
  set (len := if 0 <? stream_source.buffer_length_ s
              then Nat.min (stream_source.buffer_length_ s) n else 0).
  set (mem1 := if 0 <? stream_source.buffer_length_ s
               then list_inserts p (stream_source.buffered s len) mem else mem).
  set (s1 := if 0 <? stream_source.buffer_length_ s
             then stream_source.advance s len else s).
  assert (Hlen : len = Nat.min (stream_source.buffer_length_ s) n).
  { subst len. case_match; [done|]. apply Nat.ltb_ge in H. lia. }
  assert (H1 : stream_inv s1
               ∧ mem1 = list_inserts p (take len R) mem
               ∧ stream_source.remaining s1 = drop len R
               ∧ stream_source.position_ s1 = stream_source.position_ s + len
               ∧ (len < n → stream_source.buffer_length_ s1 = 0)
               ∧ stream_source.stream_ s1 = stream_source.stream_ s
               ∧ stream_source.buffer_ s1 = stream_source.buffer_ s
               ∧ (stream_eof_inv s → stream_eof_inv s1)).
  { subst s1 mem1. destruct (Nat.ltb_spec 0 (stream_source.buffer_length_ s)) as [Hb|Hb].
    - destruct (stream_advance_spec s len Hinv) as [? _]; [lia|].
      destruct (stream_advance_content s len Hinv) as [Hbuf Hrem]; [lia|].
      split; [done|]. split; [by rewrite Hbuf|]. split; [done|]. split; [done|].
      split; [simpl; lia|]. split; [done|]. split; [done|].
      intros HJ Heof_. destruct (HJ Heof_) as [? ?]. simpl in *. lia.
    - assert (len = 0) as -> by lia.
      split; [done|]. split; [by rewrite take_0|]. split; [by rewrite drop_0|].
      split; [lia|]. split; [lia|]. done. }
  destruct H1 as (Hinv1 & Hmem1 & Hrem1 & Hpos1 & Hempty & Hst1 & Hbuf1 & HJ1).
  unfold stream_source.position.
  destruct (Nat.eqb_spec (n - len) 0) as [Hz|Hz]; cbn [fst snd].
  { assert (Hn : len = n) by lia. rewrite Hn in *.
    split.
    - unfold stream_read_undercounts.
      destruct (Nat.ltb_spec (stream_source.buffer_length_ s) n); [lia|].
      rewrite andb_false_r. simpl. lia.
    - split; [done|]. split; [done|]. split; [lia|done]. }
  assert (Hb0 : stream_source.buffer_length_ s1 = 0) by (apply Hempty; lia).
  assert (Hbl : len = stream_source.buffer_length_ s) by lia.
  pose proof (stream_remaining_length s1 Hinv1) as HR1l. rewrite Hrem1, Hb0 in HR1l.
  destruct (Nat.ltb_spec (n - len) (length (stream_source.buffer_ s1))) as [Hb|Hb].
  - destruct (stream_fill_buffer_spec s1 Hinv1 Hb0) as [Hinv2 _].
    destruct (stream_fill_buffer_content s1 Hinv1 Hb0) as (Hrem2 & Hpos2 & Hbuf2 & Hpend2 & HJ2).
    pose proof (stream_remaining_length _ Hinv2) as HR2l. rewrite Hrem2, Hrem1 in HR2l.
    set (s2 := stream_source.fill_buffer s1) in *.
    assert (Hu : stream_read_undercounts s n = false).
    { unfold stream_read_undercounts. rewrite <-Hbuf1, <-Hbl.
      destruct (Nat.leb_spec (length (stream_source.buffer_ s1)) (n - len)); [lia|].
      by rewrite andb_false_r. }
    rewrite Hu.
    destruct (Nat.ltb_spec 0 (stream_source.buffer_length_ s2)) as [Hf|Hf]; cbn [fst snd].
    + set (len2 := Nat.min (stream_source.buffer_length_ s2) (n - len)).
      destruct (stream_advance_spec s2 len2 Hinv2) as [Hinv3 _]; [lia|].
      destruct (stream_advance_content s2 len2 Hinv2) as [Hbuf3 Hrem3]; [lia|].
      assert (Htot : len + len2 = Nat.min n (length R)).
      { destruct (decide (stream_source.buffer_length_ s2 < n - len)) as [Hlt|Hge].
        - rewrite Hpend2 in HR2l by lia. simpl in HR2l. rewrite length_drop in HR2l. lia.
        - rewrite length_drop in HR2l. lia. }
      split; [done|]. split.
      { rewrite Hbuf3, Hrem2, Hrem1, Hmem1.
        replace (p + len) with (length (take len R) + p)
          by (rewrite length_take; lia).
        rewrite <-list_inserts_app_l. f_equal.
        rewrite take_take_drop.
        rewrite Htot. apply take_min_length. }
      split.
      { rewrite Hrem3, Hrem2, Hrem1, drop_drop. 
        destruct (decide (n ≤ length R)).
        - f_equal. lia.
        - rewrite !drop_ge by lia. done. }
      split; [simpl; lia|].
      intros HJ Heof_. simpl in Heof_.
      destruct (HJ2 (HJ1 HJ) Heof_) as [? ?]. simpl. split; [lia|done].
    + assert (Hpend : stream_source.pending
                (stream_source.rdbuf_ (stream_source.stream_ s2)) = [])
        by (apply Hpend2; lia).
      rewrite Hpend in HR2l. simpl in HR2l. rewrite length_drop in HR2l.
      split; [lia|]. split.
      { rewrite Hmem1. f_equal. rewrite !take_ge by lia. done. }
      split.
      { rewrite Hrem2, Hrem1. rewrite !drop_ge by lia. done. }
      split; [lia|]. intros HJ. apply HJ2, HJ1, HJ.
  - destruct Hinv1 as (Hw1 & He1 & [l Hl1]).
    destruct (stream_source.eofbit (stream_source.stream_ s1)) eqn:Heof; cbn [fst snd].
    + rewrite (He1 eq_refl) in HR1l. simpl in HR1l. rewrite length_drop in HR1l.
      split.
      { unfold stream_read_undercounts. rewrite <-Hst1, Heof, <-Hbuf1, <-Hbl. simpl.
        destruct (Nat.ltb_spec 0 len); destruct (Nat.ltb_spec len n);
          destruct (Nat.leb_spec (length (stream_source.buffer_ s1)) (n - len));
          simpl; lia. }
      split.
      { rewrite Hmem1. f_equal. rewrite !take_ge by lia. done. }
      split.
      { unfold stream_source.remaining, stream_source.buffered. simpl.
        rewrite (He1 eq_refl). rewrite drop_ge by lia. done. }
      split; [simpl; lia|]. intros _ _. done.
    + rewrite Hl1 in *. simpl in *.
      assert (Hu : stream_read_undercounts s n = false).
      { unfold stream_read_undercounts. rewrite <-Hst1, Heof. done. }
      rewrite Hu. rewrite length_take. rewrite length_drop in HR1l.
      split; [lia|]. split.
      { rewrite Hmem1.
        replace (p + len) with (length (take len R) + p)
          by (rewrite length_take; lia).
        rewrite <-list_inserts_app_l. f_equal.
        assert (Hl : l = drop len R).
        { rewrite <-Hrem1. unfold stream_source.remaining, stream_source.buffered.
          rewrite Hb0, Hl1. done. }
        rewrite Hl. rewrite take_take_drop. f_equal. lia. }
      split.
      { unfold stream_source.remaining, stream_source.buffered. simpl.
        rewrite Hb0. simpl.
        assert (Hl : l = drop len R).
        { rewrite <-Hrem1. unfold stream_source.remaining, stream_source.buffered.
          rewrite Hb0, Hl1. done. }
        rewrite Hl, drop_drop. f_equal. lia. }
      split; [lia|].
      intros HJ Heof_. destruct (HJ1 HJ Heof_) as [_ Hb']. congruence.
Qed.

(** [read] for units of any size: the count, what remains and the
    position; the memory for units of one byte. *)
Lemma stream_read_spec s mem p n :
  stream_inv s →
  let R := stream_source.remaining s in
  let r := stream_source.read sizeof_value_type bytes s mem p n in
  r.1.1 = (if stream_read_undercounts s n then 0 else Nat.min n (length R))
  ∧ (sizeof_value_type = 1 → r.2 = list_inserts p (take n R) mem)
  ∧ stream_source.remaining r.1.2 = drop n R
  ∧ stream_source.position r.1.2 = stream_source.position s + Nat.min n (length R)
  ∧ (stream_eof_inv s → stream_eof_inv r.1.2).
Proof.
  intros Hinv R r. subst r.
  destruct (stream_read_units_spec s mem p n Hinv) as (Hc & Hm & Hr & Hp & HJ).
  rewrite stream_read_state.
  split; [done|]. split; [by intros ->|]. done.
Qed.

(** [read] served from the buffer alone copies [n] bytes. *)
Lemma stream_read_from_buffer s mem p n :
  stream_inv s → n ≤ stream_source.buffer_length_ s →
  (stream_source.read sizeof_value_type bytes s mem p n).2
  = stream_source.memcpy sizeof_value_type bytes mem p
      (take n (stream_source.remaining s)) n.
Proof.
  intros Hinv Hn. pose proof Hinv as (Hw & _ & _).
  destruct (memcpy_whole_part sizeof_value_type n) as [Hwh Hpt].
  assert (Hsrc : take n (stream_source.remaining s)
                 = take n (drop (stream_source.buffer_data_ s) (stream_source.buffer_ s))).
  { unfold stream_source.remaining, stream_source.buffered.
    rewrite take_app_le by (rewrite length_take, length_drop; lia).
    rewrite take_take. f_equal. lia. }
  assert (Hcopy : stream_source.memcpy sizeof_value_type bytes mem p
                    (drop (stream_source.buffer_data_ s) (stream_source.buffer_ s)) n
                  = stream_source.memcpy sizeof_value_type bytes mem p
                      (take n (stream_source.remaining s)) n).
  { rewrite Hsrc. unfold stream_source.memcpy.
    rewrite take_take, Nat.min_l by lia.
    destruct (Nat.eqb_spec (n mod sizeof_value_type) 0) as [|Hne]; [done|].
    by rewrite lookup_take_lt by (by apply Hpt). }
  unfold stream_source.read.
  destruct (Nat.ltb_spec 0 (stream_source.buffer_length_ s)) as [Hb|Hb].
  - rewrite Nat.min_r by lia. rewrite Nat.sub_diag. cbn [Nat.eqb snd]. done.
  - assert (n = 0) as -> by lia. cbn [Nat.sub Nat.eqb snd].
    unfold stream_source.memcpy. destruct sizeof_value_type; simpl; by rewrite ?Nat.sub_diag.
Qed.

Lemma stream_advance_eof_inv s len :
  stream_eof_inv s → stream_eof_inv (stream_source.advance s len).
Proof. intros HJ Heof_. destruct (HJ Heof_) as [? ?]. simpl. split; [lia|done]. Qed.

Lemma stream_read_buffer_length s mem p n :
  length (stream_source.buffer_ (stream_source.read sizeof_value_type bytes s mem p n).1.2)
  = length (stream_source.buffer_ s).
Proof.
  unfold stream_source.read, stream_source.fill_buffer.
  repeat case_match; simpl; rewrite ?length_inserts; done.
Qed.

Lemma stream_ignore_loop_eof_inv rounds s todo :
  stream_inv s → stream_source.buffer_length_ s = 0 ∨ todo = 0 →
  stream_eof_inv s →
  stream_eof_inv (stream_source.ignore_loop rounds s todo)
  ∧ length (stream_source.buffer_ (stream_source.ignore_loop rounds s todo))
    = length (stream_source.buffer_ s).
Proof.
  revert s todo. induction rounds as [|rounds IH]; intros s todo Hinv Hb HJ; [done|].
  simpl. destruct (Nat.ltb_spec 0 todo) as [Ht|Ht]; [|done].
  destruct Hb as [Hb|Hb]; [|lia].
  destruct (stream_fill_buffer_spec s Hinv Hb) as [Hinv2 _].
  destruct (stream_fill_buffer_content s Hinv Hb) as (_ & _ & Hbuf2 & _ & HJ2).
  destruct (Nat.eqb_spec (stream_source.buffer_length_ (stream_source.fill_buffer s)) 0)
    as [Hz|Hz]; [split; [by apply HJ2|done]|].
  set (len2 := Nat.min (stream_source.buffer_length_ (stream_source.fill_buffer s)) todo).
  destruct (stream_advance_spec (stream_source.fill_buffer s) len2 Hinv2) as [Hinv3 _];
    [lia|].
  destruct (IH (stream_source.advance (stream_source.fill_buffer s) len2) (todo - len2) Hinv3)
    as [? Hl]; [simpl; lia|by apply stream_advance_eof_inv, HJ2|].
  split; [done|]. rewrite Hl. done.
Qed.

Lemma stream_ignore_eof_inv s n :
  stream_inv s → stream_eof_inv s →
  stream_eof_inv (stream_source.ignore s n)
  ∧ length (stream_source.buffer_ (stream_source.ignore s n))
    = length (stream_source.buffer_ s).
Proof.
  intros Hinv HJ. unfold stream_source.ignore.
  set (len := if 0 <? stream_source.buffer_length_ s
              then Nat.min (stream_source.buffer_length_ s) n else 0).
  set (s1 := if 0 <? stream_source.buffer_length_ s
             then stream_source.advance s len else s).
  assert (H1 : stream_inv s1 ∧ stream_eof_inv s1
               ∧ (stream_source.buffer_length_ s1 = 0 ∨ n - len = 0)
               ∧ length (stream_source.buffer_ s1) = length (stream_source.buffer_ s)).
  { subst s1 len. destruct (Nat.ltb_spec 0 (stream_source.buffer_length_ s)) as [Hb|Hb].
    - destruct (stream_advance_spec s (Nat.min (stream_source.buffer_length_ s) n) Hinv)
        as [? ?]; [lia|].
      split; [done|]. split; [by apply stream_advance_eof_inv|]. split; [simpl; lia|done].
    - split; [done|]. split; [done|]. split; [lia|done]. }
  destruct H1 as (Hinv1 & HJ1 & Hempty & Hbuf1).
  destruct (stream_ignore_loop_eof_inv (S (n - len)) s1 (n - len) Hinv1 Hempty HJ1) as [? Hl].
  split; [done|]. by rewrite Hl.
Qed.

Lemma stream_ignore_loop_content rounds s todo :
  stream_inv s → stream_source.buffer_length_ s = 0 ∨ todo = 0 → todo < rounds →
  ∃ k, k ≤ todo ∧ k ≤ length (stream_source.remaining s)
    ∧ stream_source.remaining (stream_source.ignore_loop rounds s todo)
      = drop k (stream_source.remaining s)
    ∧ stream_source.position_ (stream_source.ignore_loop rounds s todo)
      = stream_source.position_ s + k
    ∧ (0 < length (stream_source.buffer_ s) →
       k = Nat.min todo (length (stream_source.remaining s))).
Proof.
  revert s todo. induction rounds as [|rounds IH]; intros s todo Hinv Hb Hr; [lia|].
  simpl. destruct (Nat.ltb_spec 0 todo) as [Ht|Ht].
  2:{ exists 0. rewrite drop_0. split; [lia|]. split; [lia|]. split; [done|].
      split; [lia|]. lia. }
  destruct Hb as [Hb|Hb]; [|lia].
  destruct (stream_fill_buffer_spec s Hinv Hb) as [Hinv2 _].
  destruct (stream_fill_buffer_content s Hinv Hb) as (Hrem2 & Hpos2 & Hbuf2 & Hpend2 & _).
  pose proof (stream_remaining_length _ Hinv2) as HR2l. rewrite Hrem2 in HR2l.
  destruct (Nat.eqb_spec (stream_source.buffer_length_ (stream_source.fill_buffer s)) 0)
    as [Hz|Hz].
  - exists 0. rewrite drop_0, Hrem2, Hpos2. split; [lia|]. split; [lia|]. split; [done|].
    split; [lia|]. intros Hsz. rewrite Hpend2 in HR2l by lia. simpl in HR2l. lia.
  - set (len2 := Nat.min (stream_source.buffer_length_ (stream_source.fill_buffer s)) todo)
      in *.
    destruct (stream_advance_spec (stream_source.fill_buffer s) len2 Hinv2) as [Hinv3 _];
      [lia|].
    destruct (stream_advance_content (stream_source.fill_buffer s) len2 Hinv2)
      as [_ Hrem3]; [lia|].
    destruct (IH (stream_source.advance (stream_source.fill_buffer s) len2) (todo - len2) Hinv3)
      as (k & Hk1 & Hk2 & Hrem & Hpos & Hsz'); [simpl; lia|lia|].
    rewrite Hrem3, Hrem2, length_drop in Hk2.
    exists (len2 + k).
    rewrite Hrem, Hpos, Hrem3, Hrem2, drop_drop. simpl. rewrite Hpos2.
    split; [lia|]. split; [lia|]. split; [done|]. split; [lia|].
    intros Hsz. simpl in Hsz'. rewrite Hbuf2 in Hsz'. specialize (Hsz' Hsz).
    rewrite Hrem3, Hrem2, length_drop in Hsz'. lia.
Qed.

Lemma stream_ignore_content s n :
  stream_inv s →
  ∃ k, k ≤ n ∧ k ≤ length (stream_source.remaining s)
    ∧ stream_source.remaining (stream_source.ignore s n)
      = drop k (stream_source.remaining s)
    ∧ stream_source.position (stream_source.ignore s n) = stream_source.position s + k
    ∧ (0 < length (stream_source.buffer_ s) →
       k = Nat.min n (length (stream_source.remaining s))).
Proof.
  intros Hinv. unfold stream_source.ignore, stream_source.position.
  pose proof (stream_remaining_length s Hinv) as HRl.
  set (len := if 0 <? stream_source.buffer_length_ s
              then Nat.min (stream_source.buffer_length_ s) n else 0).
  set (s1 := if 0 <? stream_source.buffer_length_ s
             then stream_source.advance s len else s).
  assert (Hlen : len = Nat.min (stream_source.buffer_length_ s) n).
  { subst len. case_match; [done|]. apply Nat.ltb_ge in H. lia. }
  assert (H1 : stream_inv s1
               ∧ stream_source.remaining s1 = drop len (stream_source.remaining s)
               ∧ stream_source.position_ s1 = stream_source.position_ s + len
               ∧ (stream_source.buffer_length_ s1 = 0 ∨ n - len = 0)
               ∧ length (stream_source.buffer_ s1) = length (stream_source.buffer_ s)).
  { subst s1. destruct (Nat.ltb_spec 0 (stream_source.buffer_length_ s)) as [Hb|Hb].
    - destruct (stream_advance_spec s len Hinv) as [? _]; [lia|].
      destruct (stream_advance_content s len Hinv) as [_ Hrem]; [lia|].
      split; [done|]. split; [done|]. split; [done|]. split; [simpl; lia|done].
    - assert (len = 0) as -> by lia.
      split; [done|]. split; [by rewrite drop_0|]. split; [lia|]. split; [lia|done]. }
  destruct H1 as (Hinv1 & Hrem1 & Hpos1 & Hempty & Hbuf1).
  destruct (stream_ignore_loop_content (S (n - len)) s1 (n - len) Hinv1 Hempty)
    as (k & Hk1 & Hk2 & Hrem & Hpos & Hsz'); [lia|].
  rewrite Hrem1, length_drop in Hk2.
  exists (len + k).
  rewrite Hrem, Hpos, Hrem1, Hpos1, drop_drop.
  split; [lia|]. split; [lia|]. split; [done|]. split; [lia|].
  intros Hsz. rewrite Hbuf1 in Hsz'. specialize (Hsz' Hsz).
  rewrite Hrem1, length_drop in Hsz'. lia.
Qed.

Lemma stream_peek_spec (zero : value_type) s :
  stream_inv s → 0 < length (stream_source.buffer_ s) →
  (stream_source.peek zero s).1 = next_unit zero (stream_source.remaining s)
  ∧ stream_source.remaining (stream_source.peek zero s).2 = stream_source.remaining s
  ∧ stream_source.position (stream_source.peek zero s).2 = stream_source.position s.
Proof.
  intros Hinv Hsz. unfold stream_source.peek, stream_source.position.
  set (s1 := if stream_source.buffer_length_ s =? 0 then stream_source.fill_buffer s else s).
  assert (H1 : stream_inv s1
               ∧ stream_source.remaining s1 = stream_source.remaining s
               ∧ stream_source.position_ s1 = stream_source.position_ s
               ∧ (stream_source.buffer_length_ s1 = 0 → stream_source.remaining s = [])).
  { subst s1. destruct (Nat.eqb_spec (stream_source.buffer_length_ s) 0) as [Hb|Hb].
    - destruct (stream_fill_buffer_spec s Hinv Hb) as [Hinv2 _].
      destruct (stream_fill_buffer_content s Hinv Hb) as (Hrem2 & Hpos2 & _ & Hpend2 & _).
      split; [done|]. split; [done|]. split; [done|]. intros H0.
      pose proof (stream_remaining_length _ Hinv2) as HR2l.
      rewrite Hrem2, H0, Hpend2 in HR2l by lia. by apply length_zero_iff_nil.
    - split; [done|]. split; [done|]. split; [done|]. lia. }
  destruct H1 as (Hinv1 & Hrem1 & Hpos1 & Hnil).
  destruct (Nat.ltb_spec 0 (stream_source.buffer_length_ s1)) as [Hb|Hb]; cbn [fst snd].
  - split; [|done]. rewrite <-Hrem1.
    destruct Hinv1 as (Hw & _).
    unfold stream_source.remaining, stream_source.buffered.
    destruct (lookup_lt_is_Some_2 (stream_source.buffer_ s1) (stream_source.buffer_data_ s1))
      as [c Hc]; [lia|].
    rewrite Hc. simpl.
    rewrite (drop_S _ c _ Hc).
    destruct (stream_source.buffer_length_ s1) as [|k] eqn:Hk; [lia|]. simpl. done.
  - assert (H0 : stream_source.buffer_length_ s1 = 0) by lia.
    rewrite (Hnil H0). split; [done|]. split; [|done]. by rewrite Hrem1, Hnil.
Qed.

Lemma stream_run_inv ops s mem :
  stream_inv s → stream_eof_inv s →
  let s' := (run (stream_source.read sizeof_value_type bytes) stream_source.ignore ops s mem).1 in
  stream_inv s' ∧ stream_eof_inv s'
  ∧ length (stream_source.buffer_ s') = length (stream_source.buffer_ s).
Proof.
  revert s mem. induction ops as [|[p n|n] ops IH]; intros s mem Hinv HJ; [done| |].
  - cbn [run]. destruct (stream_read_conserves sizeof_value_type bytes s mem p n Hinv) as [Hinv' _].
    destruct (stream_read_spec s mem p n Hinv) as (_ & _ & _ & _ & HJ').
    pose proof (stream_read_buffer_length s mem p n) as Hl.
    destruct (stream_source.read sizeof_value_type bytes s mem p n) as [[c s1] mem1]. simpl in *.
    destruct (IH s1 mem1 Hinv' (HJ' HJ)) as (? & ? & Hl'). rewrite <-Hl. done.
  - cbn [run]. destruct (stream_ignore_conserves s n Hinv) as [Hinv' _].
    destruct (stream_ignore_eof_inv s n Hinv HJ) as [HJ' Hl].
    destruct (IH (stream_source.ignore s n) mem Hinv' HJ') as (? & ? & Hl').
    rewrite <-Hl. done.
Qed.

Lemma stream_over_inv (zero : value_type) data buf_size :
  stream_inv (stream_over zero data buf_size)
  ∧ stream_eof_inv (stream_over zero data buf_size)
  ∧ length (stream_source.buffer_ (stream_over zero data buf_size)) = buf_size.
Proof.
  split; [|split].
  - split; [simpl; lia|]. split; [done|by eexists].
  - intros Heof. done.
  - simpl. apply length_replicate.
Qed.

(** What remains of the stream is the data without the units consumed. *)
Lemma stream_run_remaining (zero : value_type) data buf_size ops mem :
  let s := (run (stream_source.read sizeof_value_type bytes) stream_source.ignore ops
              (stream_over zero data buf_size) mem).1 in
  stream_source.position s ≤ length data
  ∧ stream_source.remaining s = drop (stream_source.position s) data.
Proof.
  intros s.
  assert (Hgen : ∀ ops (s0 : stream_source.t value_type) mem, stream_inv s0 →
    stream_source.position_ s0 ≤ length data →
    stream_source.remaining s0 = drop (stream_source.position_ s0) data →
    let s := (run (stream_source.read sizeof_value_type bytes) stream_source.ignore ops s0 mem).1 in
    stream_source.position_ s ≤ length data
    ∧ stream_source.remaining s = drop (stream_source.position_ s) data).
  { clear. induction ops as [|[p n|n] ops IH]; intros s0 mem Hinv Hle Hrem; [done| |].
    - cbn [run]. destruct (stream_read_conserves sizeof_value_type bytes s0 mem p n Hinv) as [Hinv' _].
      destruct (stream_read_spec s0 mem p n Hinv) as (_ & _ & Hrem' & Hpos' & _).
      destruct (stream_source.read sizeof_value_type bytes s0 mem p n) as [[c s1] mem1]. simpl in *.
      unfold stream_source.position in Hpos'.
      rewrite Hrem, length_drop in Hpos'. rewrite Hrem, drop_drop in Hrem'.
      apply IH; [done|lia|]. rewrite Hrem', Hpos'.
      destruct (decide (n ≤ length data - stream_source.position_ s0)).
      + f_equal. lia.
      + rewrite !drop_ge by lia. done.
    - cbn [run]. destruct (stream_ignore_conserves s0 n Hinv) as [Hinv' _].
      destruct (stream_ignore_content s0 n Hinv) as (k & _ & Hk & Hrem' & Hpos' & _).
      unfold stream_source.position in Hpos'.
      rewrite Hrem, length_drop in Hk. rewrite Hrem, drop_drop in Hrem'.
      apply IH; [done|lia|]. by rewrite Hrem', Hpos'. }
  destruct (stream_over_inv zero data buf_size) as (Hinv & _ & _).
  apply Hgen; [done|simpl; lia|]. done.
Qed.
End stream_content.

Section stream_theorems.
Context {value_type : Type}.
Context (sizeof_value_type : nat) (bytes : nat → value_type → value_type → value_type).
Implicit Types (mem data : list value_type) (ops : list source_op) (p n : nat).




(** A [stream_source] constructed with a buffer of no units: [ignore]
    skips nothing and [peek] reports the end, whatever the stream
    holds. *)
Theorem stream_source_without_buffer (zero : value_type) data n :
  let s := stream_over zero data 0 in
  stream_source.remaining (stream_source.ignore s n) = data
  ∧ stream_source.position (stream_source.ignore s n) = 0
  ∧ (stream_source.peek zero s).1 = Build_character_result zero true
  ∧ stream_source.remaining (stream_source.peek zero s).2 = data.
Proof.
  intros s. unfold s, stream_over, stream_source.ignore, stream_source.peek.
  destruct n as [|n]; simpl; unfold stream_source.remaining; simpl; by rewrite ?drop_0.
Qed.
End stream_theorems.


(** The case [read] undercounts in is reached: a stream of six units
    of one byte behind a buffer of four, after [read(p, 4)] and
    [read(p, 1)]; the next [read(p, 5)] stores and consumes the last
    unit and returns 0. *)
Example stream_source_read_undercount_example :
  let s := (run (stream_source.read 1 (λ _ new _, new)) stream_source.ignore
              [op_read 0 4; op_read 0 1]
              (stream_over 0%Z [1; 2; 3; 4; 5; 6]%Z 4) [0; 0; 0; 0; 0; 0]%Z).1 in
  let r := stream_source.read 1 (λ _ new _, new) s [0; 0; 0; 0; 0; 0]%Z 0 5 in
  stream_source.remaining s = [6%Z]
  ∧ stream_read_undercounts s 5 = true
  ∧ r.1.1 = 0
  ∧ r.2 = [6; 0; 0; 0; 0; 0]%Z
  ∧ stream_source.position r.1.2 = 6.
Proof. repeat split. Qed.

(** Units of four bytes: [read(p, 4)] from a new source over six units
    behind a buffer of eight returns 4 and consumes four units, and
    stores one: [memcpy] is given 4 as its number of bytes. *)
Example stream_source_read_wide_example :
  let s := stream_over 0%Z [1; 2; 3; 4; 5; 6]%Z 8 in
  let r := stream_source.read 4 (λ _ new _, new) s [0; 0; 0; 0; 0; 0]%Z 0 4 in
  r.1.1 = 4
  ∧ r.2 = [1; 0; 0; 0; 0; 0]%Z
  ∧ stream_source.position r.1.2 = 4
  ∧ stream_source.remaining r.1.2 = [5; 6]%Z.
Proof. repeat split. Qed.

(** *** The bulk reader, in general *)

Section reader_facts.
Context {value_type : Type}.
Implicit Types (mem data v : list value_type) (ops : list source_op) (p n : nat).

Lemma max_buffer_length_pos : 0 < source_reader.max_buffer_length.
Proof. unfold source_reader.max_buffer_length. lia. Qed.

Lemma source_reader_read_loop_string (zero : value_type) rounds
    (s : string_source.t value_type) v unread :
  string_source.wf s → unread < rounds →
  let R := string_source.remaining s in
  ∃ pad s',
    source_reader.read_loop zero rounds s v unread
      (Nat.min source_reader.max_buffer_length unread)
    = Some (unread - Nat.min unread (length R), s', v ++ take unread R ++ replicate pad zero)
    ∧ string_source.remaining s' = drop unread R
    ∧ pad ≤ unread - length R
    ∧ pad < source_reader.max_buffer_length
    ∧ (R = [] → pad = 0).
Proof.
  pose proof max_buffer_length_pos as Hmax.
  revert s v unread. induction rounds as [|rounds IH]; intros s v unread Hwf Hr R; [lia|].
  set (n := Nat.min source_reader.max_buffer_length unread).
  cbn [source_reader.read_loop]. cbn [src_eof src_read string_source_Source].
  rewrite string_source_eof_remaining by done. fold R.
  destruct (Nat.ltb_spec 0 n) as [Hn|Hn]; cbn [andb].
  2:{ assert (unread = 0) as -> by lia. exists 0, s. simpl. rewrite ?take_0, ?drop_0, ?app_nil_r, ?Nat.sub_0_r.
      split; [done|]. split; [done|]. split; [lia|]. split; [lia|done]. }
  destruct (decide (R = [])) as [HR|HR].
  { rewrite bool_decide_eq_true_2 by done. cbn [negb].
    exists 0, s. rewrite HR. simpl. rewrite ?take_nil, ?drop_nil, ?app_nil_r, ?Nat.min_0_r, ?Nat.sub_0_r.
    split; [done|]. split; [done|]. split; [lia|]. split; [lia|done]. }
  rewrite bool_decide_eq_false_2 by done. cbn [negb].
  assert (HRl : 0 < length R) by (destruct R; [done|simpl; lia]).
  destruct (string_source_read_spec s (v ++ replicate n zero) (length v) n Hwf)
    as (s1 & Hread & Hwf1 & Hrem1 & _).
  rewrite Hread. fold R. fold R in Hrem1.
  rewrite inserts_into_padding by (rewrite length_take; lia).
  rewrite length_take.
  set (actual := Nat.min n (length R)).
  destruct (IH s1 (v ++ take n R ++ replicate (n - actual) zero) (unread - actual) Hwf1)
    as (pad' & s' & Hloop & Hrem' & Hpad1 & Hpad2 & Hpad3); [lia|].
  rewrite Hloop. rewrite Hrem1 in Hrem', Hpad1, Hpad3 |- *. rewrite length_drop in Hpad1 |- *.
  destruct (decide (n ≤ length R)) as [Hle|Hgt].
  - assert (actual = n) as Ha by lia. rewrite Ha in *.
    exists pad', s'. replace (n - n) with 0 by lia. simpl replicate. rewrite app_nil_r.
    split.
    { f_equal. f_equal; [f_equal; lia|].
      rewrite <-!app_assoc. f_equal. rewrite app_assoc, take_take_drop.
      do 2 f_equal. lia. }
    split; [rewrite Hrem', drop_drop; f_equal; lia|].
    split; [lia|]. split; [lia|done].
  - assert (actual = length R) as Ha by lia. rewrite Ha in *.
    assert (Hnil : drop n R = []) by (apply drop_ge; lia).
    rewrite Hnil in *. rewrite (Hpad3 eq_refl). simpl replicate.
    exists (n - length R), s'. rewrite take_nil. simpl.
    rewrite !take_ge by lia. rewrite !app_nil_r.
    split; [do 3 f_equal; lia|].
    split; [rewrite Hrem'; rewrite drop_nil, drop_ge by lia; done|].
    split; [lia|]. split; [lia|done].
Qed.

(** [source_reader::read] into a contiguous container from a
    [string_source], in any state reached from a new source: it returns
    the smaller of [length_] and the number of units that remain, and
    [v] ends as its old content, the first [length_] remaining units
    and then some value-initialised elements; there are none when the
    source holds [length_] units, and always fewer than one chunk. *)
Theorem source_reader_read_delivers (zero : value_type) ops data mem0 v (length_ : nat) :
  let s := (run string_source.read string_source.ignore ops
              (string_source.make data) mem0).1 in
  let R := string_source.remaining s in
  ∃ pad s',
    source_reader.read zero (S length_) s v length_
    = Some (Nat.min length_ (length R), s', v ++ take length_ R ++ replicate pad zero)
    ∧ string_source.remaining s' = drop length_ R
    ∧ pad ≤ length_ - length R
    ∧ pad < source_reader.max_buffer_length.
Proof.
  intros s R.
  assert (Hwf : string_source.wf (string_source.make data))
    by (unfold string_source.wf; simpl; lia).
  destruct (string_source_run_wf ops _ mem0 Hwf) as [Hwf' _]. fold s in Hwf'.
  destruct (source_reader_read_loop_string zero (S length_) s v length_ Hwf')
    as (pad & s' & Hloop & Hrem & Hp1 & Hp2 & _); [lia|].
  exists pad, s'. unfold source_reader.read. rewrite Hloop. fold R.
  split; [|done]. do 3 f_equal. lia.
Qed.

Lemma source_reader_push_back_loop_iterator (zero : value_type) todo
    (s : iterator_source.t value_type) v actual :
  let R := iterator_source.remaining s in
  ∃ s', source_reader.push_back_loop zero todo s v actual
        = (actual + Nat.min todo (length R), s', v ++ take todo R)
      ∧ iterator_source.remaining s' = drop todo R
      ∧ iterator_source.position s'
        = iterator_source.position s + Nat.min todo (length R).
Proof.
  revert s v actual. induction todo as [|todo IH]; intros s v actual R.
  - exists s. simpl. rewrite ?take_0, ?drop_0, ?app_nil_r. split; [do 2 f_equal; lia|].
    split; [done|]. unfold iterator_source.position. lia.
  - cbn [source_reader.push_back_loop]. cbn [src_read iterator_source_Source].
    rewrite iterator_source_read_spec. fold (iterator_source.remaining s). fold R.
    destruct R as [|c R'] eqn:HR.
    + eexists. simpl. rewrite ?app_nil_r. split; [do 2 f_equal; lia|].
      split; [done|]. unfold iterator_source.position. simpl. lia.
    + simpl.
      edestruct (IH {| iterator_source.range_ := drop 0 R';
                       iterator_source.position_ := iterator_source.position_ s + 1 |}
                    (v ++ [c]) (S actual)) as (s' & Hloop & Hrem & Hpos).
      rewrite Hloop. exists s'. unfold iterator_source.remaining in *. simpl in *.
      rewrite drop_0 in *.
      split; [f_equal; [f_equal; lia|by rewrite <-app_assoc]|].
      split; [done|]. unfold iterator_source.position in *. simpl in *. lia.
Qed.

Lemma source_reader_read_push_back_loop_iterator (zero : value_type) rounds
    (s : iterator_source.t value_type) v unread :
  unread < rounds →
  let R := iterator_source.remaining s in
  ∃ s',
    source_reader.read_push_back_loop zero rounds s v unread
      (Nat.min source_reader.max_buffer_length unread)
    = Some (unread - Nat.min unread (length R), s', v ++ take unread R)
    ∧ iterator_source.remaining s' = drop unread R
    ∧ iterator_source.position s'
      = iterator_source.position s + Nat.min unread (length R).
Proof.
  pose proof max_buffer_length_pos as Hmax.
  revert s v unread. induction rounds as [|rounds IH]; intros s v unread Hr R; [lia|].
  set (n := Nat.min source_reader.max_buffer_length unread).
  cbn [source_reader.read_push_back_loop]. cbn [src_eof iterator_source_Source].
  destruct (Nat.ltb_spec 0 n) as [Hn|Hn]; cbn [andb].
  2:{ assert (unread = 0) as -> by lia. exists s. simpl. rewrite ?take_0, ?drop_0, ?app_nil_r, ?Nat.sub_0_r.
      split; [done|]. split; [done|]. unfold iterator_source.position; lia. }
  unfold iterator_source.eof. fold (iterator_source.remaining s). fold R.
  destruct R as [|c R'] eqn:HR; cbn [negb].
  { exists s. simpl. rewrite ?take_nil, ?drop_nil, ?app_nil_r, ?Nat.min_0_r, ?Nat.sub_0_r.
    split; [done|]. split; [done|]. unfold iterator_source.position; lia. }
  rewrite <-HR.
  destruct (source_reader_push_back_loop_iterator zero n s v 0) as (s1 & Hpb & Hrem1 & Hpos1).
  rewrite Hpb. fold R in Hrem1, Hpos1 |- *. cbn [Nat.add].
  assert (HRl : 0 < length R) by (subst R; rewrite HR; simpl; lia).
  set (actual := Nat.min n (length R)) in *.
  destruct (IH s1 (v ++ take n R) (unread - actual)) as (s' & Hloop & Hrem' & Hpos'); [lia|].
  rewrite Hrem1 in Hloop, Hrem', Hpos'. rewrite length_drop in Hloop, Hpos'.
  rewrite Hloop. exists s'.
  split.
  { f_equal. f_equal; [f_equal; lia|].
    rewrite <-app_assoc. f_equal. rewrite take_take_drop.
    destruct (decide (unread ≤ length R)).
    - f_equal. lia.
    - rewrite !take_ge by lia. done. }
  split.
  { rewrite Hrem', drop_drop.
    destruct (decide (unread ≤ length R)).
    - f_equal. lia.
    - rewrite !drop_ge by lia. done. }
  rewrite Hpos', Hpos1. lia.
Qed.

(** [source_reader::read] into a container without [data()] from an
    [iterator_source]: it returns the smaller of [length_] and the
    number of elements left, appends exactly the first [length_] of them
    to [v] and nothing else, and advances [position()] by the count. *)
Theorem source_reader_read_push_back_delivers (zero : value_type)
    (s : iterator_source.t value_type) v (length_ : nat) :
  let R := iterator_source.remaining s in
  ∃ s',
    source_reader.read_push_back zero (S length_) s v length_
    = Some (Nat.min length_ (length R), s', v ++ take length_ R)
    ∧ iterator_source.remaining s' = drop length_ R
    ∧ iterator_source.position s'
      = iterator_source.position s + Nat.min length_ (length R).
Proof.
  intros R.
  destruct (source_reader_read_push_back_loop_iterator zero (S length_) s v length_)
    as (s' & Hloop & Hrem & Hpos); [lia|].
  exists s'. unfold source_reader.read_push_back. rewrite Hloop. fold R.
  split; [|done]. do 3 f_equal. lia.
Qed.
End reader_facts.

(** ** Part V: the json value *)

Import variant.

(** *** Construction and the scalar accessors *)

(** C2, as the code has it: a default-constructed value has the tag
    [empty_object_t], not [null_t]: [is_null()] is false, [is_object()]
    is true, its size is 0 and it owns no heap block. *)
Theorem C2_default_constructed_is_empty_object :
  type_ basic_json.default_ = value_types.empty_object_t
  ∧ basic_json.is_null basic_json.default_ = false
  ∧ basic_json.is_object basic_json.default_ = true
  ∧ (∀ h, basic_json.size h basic_json.default_ = Ok 0)
  ∧ heap_payload basic_json.default_ = None.
Proof. repeat split. Qed.

Lemma C2_counterexample : basic_json.is_null basic_json.default_ = false.
Proof. reflexivity. Qed.

(** C5, as the code has it: on a value with the tag [null_t], [as_integer]
    and [as_uinteger] throw [std::runtime_error], and [as_double]
    returns a quiet NaN. *)
Theorem C5_numeric_accessors_on_null (var : variant.t) :
  type_ var = value_types.null_t →
  basic_json.as_integer var = Throw (runtime_error "Not an integer")
  ∧ basic_json.as_uinteger var = Throw (runtime_error "Not an unsigned integer")
  ∧ basic_json.as_double var = Ok quiet_NaN.
Proof. intros Hnull. destruct var; try discriminate Hnull. repeat split. Qed.

Lemma C5_numeric_accessors_on_null_witness :
  basic_json.as_integer null_ = Throw (runtime_error "Not an integer")
  ∧ basic_json.as_uinteger null_ = Throw (runtime_error "Not an unsigned integer")
  ∧ basic_json.as_double null_ = Ok quiet_NaN.
Proof. apply (C5_numeric_accessors_on_null null_). reflexivity. Defined.

Lemma C5_counterexample : basic_json.as_double variant_ops.of_null = Ok S754_nan.
Proof. reflexivity. Qed.

(** What the constructor from a string returns, by the length of the
    string: inline up to [small_string_capacity] units; above it one new
    block, when the block asked for holds the units and the zero after
    them. *)
Lemma of_string_spec (sizeof_char_type : nat) (s : list Z) (h : list (option cell)) :
  variant_ops.of_string sizeof_char_type s h
  = if variant_ops.small_string_capacity sizeof_char_type <? length s
    then if 16 + (length s + 1) * sizeof_char_type <=? 24 + length s
         then Ok (string_val_ (length h), h ++ [Some (string_data s)])
         else Undefined
    else Ok (small_string_val_ s, h).
Proof.
  unfold variant_ops.of_string, variant_ops.create_string_data, alloc,
    variant_ops.aligned_size, variant_ops.offsetof_c, variant_ops.sizeof_storage_type.
  rewrite firstn_all, Nat.mul_1_r.
  destruct (variant_ops.small_string_capacity sizeof_char_type <? length s); [|done].
  by destruct (16 + (length s + 1) * sizeof_char_type <=? 24 + length s).
Qed.

(** The copy of a heap string that was created: [create_string_data]
    on its units returns again, with the block [copy_string_data]
    gives. *)
Lemma create_string_data_of_created (sizeof_char_type : nat) (s : list Z)
    (h h' : list (option cell)) (r : nat * list (option cell)) :
  variant_ops.create_string_data sizeof_char_type s (length s) h = Ok r →
  variant_ops.create_string_data sizeof_char_type s (length s) h'
  = Ok (variant_ops.copy_string_data s h').
Proof.
  unfold variant_ops.create_string_data, variant_ops.copy_string_data.
  by destruct (variant_ops.offsetof_c + (length s + 1) * sizeof_char_type
               <=? variant_ops.aligned_size (length s * 1)).
Qed.

(** C7, on the code: the threshold is [8 / sizeof(char_type) - 1]
    units.  A string of exactly that length becomes an inline small
    string, the heap is left as it is and [as_string()] returns the
    string, for every character type of 1 to 8 bytes.  A string of one
    unit more becomes a heap string in one new block, from which
    [as_string()] returns the string, for a character type of up to 3
    bytes; for a character type of 4 bytes or more
    [create_string_data] asks for [length] bytes where it writes
    [(length + 1) * sizeof(char_type)], and the construction writes past
    the end of its block. *)
Theorem C7_small_string_boundary (sizeof_char_type : nat)
    (to_string : list (option cell) → variant.t → list Z)
    (s : list Z) (h : list (option cell)) :
  0 < sizeof_char_type ≤ 8 →
  (length s = 8 / sizeof_char_type - 1 →
     variant_ops.of_string sizeof_char_type s h = Ok (small_string_val_ s, h)
     ∧ type_ (small_string_val_ s) = value_types.small_string_t
     ∧ basic_json.as_string to_string h (small_string_val_ s) = Ok s)
  ∧ (length s = 8 / sizeof_char_type - 1 + 1 → sizeof_char_type ≤ 3 →
     variant_ops.of_string sizeof_char_type s h
     = Ok (string_val_ (length h), h ++ [Some (string_data s)])
     ∧ type_ (string_val_ (length h)) = value_types.string_t
     ∧ basic_json.as_string to_string (h ++ [Some (string_data s)]) (string_val_ (length h))
       = Ok s)
  ∧ (length s = 8 / sizeof_char_type - 1 + 1 → 4 ≤ sizeof_char_type →
     variant_ops.of_string sizeof_char_type s h = Undefined).
Proof.
  intros Hk. rewrite of_string_spec. unfold variant_ops.small_string_capacity.
  assert (Hw : sizeof_char_type ∈ [1; 2; 3; 4; 5; 6; 7; 8]).
  { rewrite !elem_of_cons, elem_of_nil. lia. }
  split; [|split].
  - intros Hlen. rewrite Hlen.
    destruct (Nat.ltb_spec (8 / sizeof_char_type - 1) (8 / sizeof_char_type - 1)); [lia|].
    split; [done|]. split; [done|].
    cbn [basic_json.as_string]. by rewrite firstn_all.
  - intros Hlen Hle. rewrite Hlen.
    destruct (Nat.ltb_spec (8 / sizeof_char_type - 1) (8 / sizeof_char_type - 1 + 1));
      [|lia].
    assert (Hfit : 16 + (8 / sizeof_char_type - 1 + 1 + 1) * sizeof_char_type
                   ≤ 24 + (8 / sizeof_char_type - 1 + 1)).
    { rewrite !elem_of_cons, elem_of_nil in Hw.
      destruct Hw as [->|[->|[->|Hw]]]; [vm_compute; lia..|lia]. }
    apply Nat.leb_le in Hfit. rewrite Hfit.
    split; [done|]. split; [done|].
    cbn [basic_json.as_string]. unfold deref.
    rewrite lookup_app_r by lia. rewrite Nat.sub_diag. cbn. by rewrite firstn_all.
  - intros Hlen Hge. rewrite Hlen.
    destruct (Nat.ltb_spec (8 / sizeof_char_type - 1) (8 / sizeof_char_type - 1 + 1));
      [|lia].
    assert (Hover : (16 + (8 / sizeof_char_type - 1 + 1 + 1) * sizeof_char_type
                     <=? 24 + (8 / sizeof_char_type - 1 + 1)) = false).
    { rewrite !elem_of_cons, elem_of_nil in Hw.
      destruct Hw as [->|[->|[->|[->|[->|[->|[->|[->|[]]]]]]]]]; solve [lia|by vm_compute]. }
    by rewrite Hover.
Qed.

Lemma C7_small_string_boundary_witness :
  (length [97; 98]%Z = 8 / 4 - 1 →
     variant_ops.of_string 4 [97; 98]%Z [] = Ok (small_string_val_ [97; 98]%Z, [])
     ∧ type_ (small_string_val_ [97; 98]%Z) = value_types.small_string_t
     ∧ basic_json.as_string (λ _ _, []) [] (small_string_val_ [97; 98]%Z) = Ok [97; 98]%Z)
  ∧ (length [97; 98]%Z = 8 / 4 - 1 + 1 → 4 ≤ 3 →
     variant_ops.of_string 4 [97; 98]%Z []
     = Ok (string_val_ (length ([] : list (option cell))),
           [] ++ [Some (string_data [97; 98]%Z)])
     ∧ type_ (string_val_ (length ([] : list (option cell)))) = value_types.string_t
     ∧ basic_json.as_string (λ _ _, []) ([] ++ [Some (string_data [97; 98]%Z)])
         (string_val_ (length ([] : list (option cell))))
       = Ok [97; 98]%Z)
  ∧ (length [97; 98]%Z = 8 / 4 - 1 + 1 → 4 ≤ 4 →
     variant_ops.of_string 4 [97; 98]%Z [] = Undefined).
Proof.
  apply (C7_small_string_boundary 4 (λ _ _, []) [97; 98]%Z []). lia.
Defined.

(** Numbers compare by value across the three numeric tags. *)
Theorem numbers_compare_across_tags :
  variant_ops.equal 1 [] (integer_val_ 5) (uinteger_val_ 5) = Ok true
  ∧ variant_ops.equal 1 [] (uinteger_val_ 5) (double_val_ (Z_to_double 5)) = Ok true
  ∧ variant_ops.equal 1 [] (integer_val_ 5) (double_val_ (Z_to_double 5)) = Ok true
  ∧ variant_ops.equal 1 [] (integer_val_ 5) (double_val_ five_and_a_half) = Ok false
  ∧ (∀ (i : Z) (h : list (option cell)),
       variant_ops.equal 1 h (integer_val_ i) (uinteger_val_ (int64_to_uint64 i)) = Ok true).
Proof.
  repeat split. intros i h. simpl. by rewrite Z.eqb_refl.
Qed.

(** *** References, [swap] and move *)

Section state_facts.
Implicit Types (σ : state) (lv : lvalue) (v w : variant.t) (h : list (option cell)).

Lemma deref_Some_lt h p c : deref h p = Some c → p < length h.
Proof.
  unfold deref. intros H. destruct (h !! p) eqn:E; [|done].
  by apply lookup_lt_Some in E.
Qed.

Lemma deref_insert_eq h p c : p < length h → deref (<[p:=Some c]> h) p = Some c.
Proof. intros. unfold deref. by rewrite list_lookup_insert_eq. Qed.

Lemma deref_insert_ne h p q c : p ≠ q → deref (<[p:=c]> h) q = deref h q.
Proof. intros. unfold deref. by rewrite list_lookup_insert_ne. Qed.

Lemma deref_app_l h cells p : p < length h → deref (h ++ cells) p = deref h p.
Proof. intros. unfold deref. by rewrite lookup_app_l. Qed.

Lemma deref_alloc h c : deref (h ++ [Some c]) (length h) = Some c.
Proof. unfold deref. rewrite lookup_app_r by lia. by rewrite Nat.sub_diag. Qed.

Lemma load_store_same σ lv v :
  is_Some (load σ lv) → load (store σ lv v) lv = Some v.
Proof.
  intros [w Hw]. destruct lv as [x|p i|p i]; simpl in *.
  - apply list_lookup_insert_eq. by apply lookup_lt_Some in Hw.
  - destruct (deref (heap_ σ) p) as [[| |members|]|] eqn:Hp; try done.
    simpl. rewrite deref_insert_eq by (by eapply deref_Some_lt).
    rewrite list_lookup_alter_eq.
    destruct (members !! i) as [[n e]|]; by simplify_eq/=.
  - destruct (deref (heap_ σ) p) as [[|elements| |]|] eqn:Hp; try done.
    simpl. rewrite deref_insert_eq by (by eapply deref_Some_lt).
    apply list_lookup_insert_eq. by apply lookup_lt_Some in Hw.
Qed.

Lemma load_store_other σ lv lv' v :
  lv ≠ lv' → load (store σ lv v) lv' = load σ lv'.
Proof.
  intros Hne. destruct lv as [x|p i|p i]; simpl.
  - destruct lv' as [y|q j|q j]; simpl; [|done|done].
    apply list_lookup_insert_ne. congruence.
  - destruct (deref (heap_ σ) p) as [[| |members|]|] eqn:Hp; try done.
    destruct lv' as [y|q j|q j]; simpl; [done| |].
    + destruct (decide (p = q)) as [->|Hpq].
      * rewrite deref_insert_eq by (by eapply deref_Some_lt). rewrite Hp.
        rewrite list_lookup_alter_ne by congruence. done.
      * by rewrite deref_insert_ne.
    + destruct (decide (p = q)) as [->|Hpq].
      * rewrite deref_insert_eq by (by eapply deref_Some_lt). by rewrite Hp.
      * by rewrite deref_insert_ne.
  - destruct (deref (heap_ σ) p) as [[|elements| |]|] eqn:Hp; try done.
    destruct lv' as [y|q j|q j]; simpl; [done| |].
    + destruct (decide (p = q)) as [->|Hpq].
      * rewrite deref_insert_eq by (by eapply deref_Some_lt). by rewrite Hp.
      * by rewrite deref_insert_ne.
    + destruct (decide (p = q)) as [->|Hpq].
      * rewrite deref_insert_eq by (by eapply deref_Some_lt). rewrite Hp.
        apply list_lookup_insert_ne. congruence.
      * by rewrite deref_insert_ne.
Qed.

Lemma store_heap_length σ lv v : length (heap_ (store σ lv v)) = length (heap_ σ).
Proof.
  destruct lv as [x|p i|p i]; simpl; [done| |].
  - destruct (deref (heap_ σ) p) as [[| |members|]|]; try done.
    simpl. by rewrite length_insert.
  - destruct (deref (heap_ σ) p) as [[|elements| |]|]; try done.
    simpl. by rewrite length_insert.
Qed.

Lemma swap_spec σ (this rhs : lvalue) a b :
  this ≠ rhs → load σ this = Some a → load σ rhs = Some b →
  ∃ σ', basic_json.swap this rhs σ = (Ok (), σ')
        ∧ load σ' this = Some b ∧ load σ' rhs = Some a
        ∧ length (heap_ σ') = length (heap_ σ)
        ∧ (∀ lv, lv ≠ this → lv ≠ rhs → load σ' lv = load σ lv).
Proof.
  intros Hne Ha Hb. unfold basic_json.swap.
  rewrite decide_False by done.
  unfold bind, load_, store_. rewrite Ha, Hb. cbn [of_option].
  eexists. split; [done|]. split; [|split; [|split]].
  - rewrite load_store_other by done. apply load_store_same. by rewrite Ha.
  - apply load_store_same. rewrite load_store_other by done. by rewrite Hb.
  - by rewrite !store_heap_length.
  - intros lv H1 H2. rewrite !load_store_other by done. done.
Qed.
End state_facts.

Section move_facts.
Implicit Types (σ : state) (lv : lvalue) (v w : variant.t) (h : list (option cell)).

(** A store allocates no block and releases none. *)
Lemma store_blocks σ lv v p :
  deref (heap_ (store σ lv v)) p = None ↔ deref (heap_ σ) p = None.
Proof.
  destruct lv as [x|q i|q i]; simpl; [done| |].
  - destruct (deref (heap_ σ) q) as [[| |members|]|] eqn:Hq; try done. simpl.
    destruct (decide (q = p)) as [->|Hne].
    + rewrite deref_insert_eq by (by eapply deref_Some_lt). by rewrite Hq.
    + by rewrite deref_insert_ne.
  - destruct (deref (heap_ σ) q) as [[|elements| |]|] eqn:Hq; try done. simpl.
    destruct (decide (q = p)) as [->|Hne].
    + rewrite deref_insert_eq by (by eapply deref_Some_lt). by rewrite Hq.
    + by rewrite deref_insert_ne.
Qed.

(** A swap allocates no block and releases none; between two variables
    it leaves the heap as it is. *)
Lemma swap_blocks σ (this rhs : lvalue) σ' :
  basic_json.swap this rhs σ = (Ok (), σ') →
  (∀ p, deref (heap_ σ') p = None ↔ deref (heap_ σ) p = None)
  ∧ (∀ x y, this = lv_var x → rhs = lv_var y → heap_ σ' = heap_ σ).
Proof.
  unfold basic_json.swap. destruct (decide (this = rhs)) as [->|Hne].
  { intros [= <-]. done. }
  unfold bind, load_, store_.
  destruct (load σ this) as [a|]; [|done]. destruct (load σ rhs) as [b|]; [|done].
  cbn [of_option]. intros [= <-]. split.
  - intros p. by rewrite !store_blocks.
  - by intros x y -> ->.
Qed.
End move_facts.

(** *** The proxy *)

Section proxy_facts.
Implicit Types (σ : state) (lv : lvalue) (v w : variant.t) (h : list (option cell))
  (members : list (list Z * variant.t)) (name : list Z).

Lemma find_Some_lookup members name i :
  json_object_ops.find members name = Some i →
  ∃ value, members !! i = Some (name, value).
Proof.
  revert i. induction members as [|[n e] members IH]; intros i; simpl; [done|].
  case_bool_decide as Hn.
  - intros [= <-]. subst. by eexists.
  - destruct (json_object_ops.find members name) as [k|] eqn:Hf; [|done].
    intros [= <-]. simpl. by apply IH.
Qed.

Lemma find_None_forall members name :
  json_object_ops.find members name = None ↔ Forall (λ m, m.1 ≠ name) members.
Proof.
  induction members as [|[n e] members IH]; simpl.
  - split; [constructor|done].
  - case_bool_decide as Hn.
    + split; [done|]. intros H. inversion H; simplify_eq/=.
    + destruct (json_object_ops.find members name) eqn:Hf; simpl.
      * split; [done|]. intros H. inversion H as [|?? _ H2]. apply IH in H2. done.
      * split; [|done]. intros _. constructor; [done|]. by apply IH.
Qed.

Lemma find_app_None members1 members2 name value :
  json_object_ops.find members1 name = None →
  json_object_ops.find (members1 ++ (name, value) :: members2) name
  = Some (length members1).
Proof.
  induction members1 as [|[n e] members1 IH]; simpl.
  - intros _. by rewrite bool_decide_eq_true_2.
  - case_bool_decide; [done|].
    destruct (json_object_ops.find members1 name) eqn:Hf; [done|].
    intros _. by rewrite IH.
Qed.

(** An absent name is inserted, wherever the container puts it. *)
Lemma set_absent position members name value :
  json_object_ops.find members name = None →
  ∃ i, json_object_ops.set position members name value
       = (take i members ++ (name, value) :: drop i members, i)
     ∧ i ≤ length members
     ∧ (take i members ++ (name, value) :: drop i members) !! i = Some (name, value)
     ∧ json_object_ops.find (take i members ++ (name, value) :: drop i members) name
       = Some i.
Proof.
  intros Hf. unfold json_object_ops.set. rewrite Hf.
  set (i := Nat.min (position name members) (length members)).
  exists i. assert (Hi : i ≤ length members) by lia.
  split; [done|]. split; [done|]. split.
  - rewrite lookup_app_r by (rewrite length_take; lia).
    rewrite length_take. replace (i - i `min` length members) with 0 by lia. done.
  - rewrite <-(length_take_le members i) at 3 by done.
    apply find_app_None. apply find_None_forall.
    apply find_None_forall in Hf. by apply Forall_take.
Qed.
End proxy_facts.

Lemma load_alloc σ lv c v :
  load σ lv = Some v →
  load {| vars_ := vars_ σ; heap_ := heap_ σ ++ [Some c] |} lv = Some v.
Proof.
  destruct lv as [x|p i|p i]; simpl; [done| |].
  - destruct (deref (heap_ σ) p) eqn:Hp; [|done].
    rewrite deref_app_l by (by eapply deref_Some_lt). by rewrite Hp.
  - destruct (deref (heap_ σ) p) eqn:Hp; [|done].
    rewrite deref_app_l by (by eapply deref_Some_lt). by rewrite Hp.
Qed.

(** C3, as the code has it: when [evaluate_with_default()] of the proxy
    [parent[name]] finds [name] absent from its object-tagged parent
    ([find] returns [end()]), the entry it inserts for [name] is an
    empty Object and not a null: the reference returned is to a value
    with the tag [object_t] whose new block has no members. *)
Theorem C3_absent_key_is_inserted_as_object
    (position : list Z → list (list Z * variant.t) → nat)
    (σ : state) (parent : lvalue) (name : list Z) :
  basic_json.find parent name σ = (Ok None, σ) →
  ∃ p i q σ' members,
    proxy.evaluate_with_default position (proxy_of_json parent name) σ
    = (Ok (lv_member p i), σ')
    ∧ deref (heap_ σ') p = Some (json_object members)
    ∧ members !! i = Some (name, object_val_ q)
    ∧ json_object_ops.find members name = Some i
    ∧ load σ' (lv_member p i) = Some (object_val_ q)
    ∧ deref (heap_ σ') q = Some (json_object [])
    ∧ basic_json.is_null (object_val_ q) = false
    ∧ basic_json.is_object (object_val_ q) = true
    ∧ basic_json.size (heap_ σ') (object_val_ q) = Ok 0.
Proof.
  intros Hfind.
  cbn [proxy.evaluate_with_default]. unfold proxy.evaluate_with_default_in.
  unfold bind at 1. rewrite Hfind.
  unfold basic_json.find, bind, load_ in Hfind.
  destruct (load σ parent) as [var|] eqn:Hload; [|done].
  cbn [of_option] in Hfind.
  destruct var as [| | | | | | | |p| |]; try done.
  - (* the parent is an empty object: it is promoted first *)
    clear Hfind.
    set (p := length (heap_ σ)).
    set (σ1 := store {| vars_ := vars_ σ; heap_ := heap_ σ ++ [Some (json_object [])] |}
                 parent (object_val_ p)).
    assert (Hl0 : load {| vars_ := vars_ σ; heap_ := heap_ σ ++ [Some (json_object [])] |}
                    parent = Some empty_object_) by (by apply load_alloc).
    assert (Hl1 : load σ1 parent = Some (object_val_ p)).
    { apply load_store_same. by rewrite Hl0. }
    assert (Hlen1 : length (heap_ σ1) = S p).
    { unfold σ1. rewrite store_heap_length. simpl. rewrite length_app. simpl. lia. }
    assert (Hp1 : deref (heap_ σ1) p = Some (json_object [])).
    { destruct parent as [x|p0 i0|p0 i0]; unfold σ1; simpl.
      - apply deref_alloc.
      - simpl in Hl0.
        destruct (deref (heap_ σ ++ [Some (json_object [])]) p0) as [[| |ms|]|] eqn:Hp0;
          try done.
        simpl. destruct (decide (p0 = p)) as [->|Hne].
        + rewrite deref_alloc in Hp0. simplify_eq/=.
        + rewrite deref_insert_ne by done. apply deref_alloc.
      - simpl in Hl0.
        destruct (deref (heap_ σ ++ [Some (json_object [])]) p0) as [[|es| |]|] eqn:Hp0;
          try done.
        simpl. destruct (decide (p0 = p)) as [->|Hne].
        + rewrite deref_alloc in Hp0. simplify_eq/=.
        + rewrite deref_insert_ne by done. apply deref_alloc. }
    set (q := length (heap_ σ1)).
    set (σ2 := {| vars_ := vars_ σ1; heap_ := heap_ σ1 ++ [Some (json_object [])] |}).
    assert (Hl2 : load σ2 parent = Some (object_val_ p)) by (by apply load_alloc).
    assert (Hp2 : deref (heap_ σ2) p = Some (json_object [])).
    { unfold σ2. simpl. rewrite deref_app_l by lia. done. }
    exists p, 0, q.
    eexists. exists [(name, object_val_ q)].
    split.
    { unfold basic_json.object_value, basic_json.create_object_implicitly, basic_json.set_hint.
      unfold bind, load_, store_, on_heap, lift, ret, object_at, get_heap, put_heap.
      rewrite Hload. cbn [of_option variant_ops.of_alloc alloc].
      fold p. fold σ1. rewrite Hl1. cbn [of_option heap_payload].
      cbn [heap_ vars_]. fold q. fold σ2. rewrite Hl2. cbn [of_option].
      rewrite Hp2. cbn [json_object_ops.set json_object_ops.find].
      rewrite Nat.min_0_r. cbn [take drop app]. done. }
    cbn [heap_ vars_].
    assert (Hpq : p ≠ q) by (unfold q; lia).
    assert (Hlen2 : p < length (heap_ σ2))
      by (unfold σ2; simpl; rewrite length_app; lia).
    split; [by apply deref_insert_eq|]. split; [done|].
    split; [simpl; by rewrite bool_decide_eq_true_2|].
    split; [simpl; by rewrite deref_insert_eq|].
    assert (Hq : deref (<[p:=Some (json_object [(name, object_val_ q)])]> (heap_ σ2)) q
                 = Some (json_object [])).
    { rewrite deref_insert_ne by done. unfold σ2, q. simpl. apply deref_alloc. }
    split; [done|]. split; [done|]. split; [done|].
    cbn [basic_json.size]. by rewrite Hq.
  - (* the parent is an object without the name *)
    unfold object_at in Hfind.
    destruct (deref (heap_ σ) p) as [[| |members|]|] eqn:Hp; try done.
    unfold ret in Hfind.
    assert (Hnone : json_object_ops.find members name = None) by congruence.
    clear Hfind.
    set (q := length (heap_ σ)).
    set (σ2 := {| vars_ := vars_ σ; heap_ := heap_ σ ++ [Some (json_object [])] |}).
    assert (Hl2 : load σ2 parent = Some (object_val_ p)) by (by apply load_alloc).
    pose proof (deref_Some_lt _ _ _ Hp) as Hplt.
    assert (Hp2 : deref (heap_ σ2) p = Some (json_object members)).
    { unfold σ2. simpl. by rewrite deref_app_l. }
    destruct (set_absent position members name (object_val_ q) Hnone)
      as (i & Hset & Hi & Hlook & Hfind').
    exists p, i, q. eexists.
    exists (take i members ++ (name, object_val_ q) :: drop i members).
    split.
    { unfold basic_json.object_value, basic_json.set_hint.
      unfold bind, load_, store_, on_heap, lift, ret, object_at, get_heap, put_heap.
      rewrite Hload. cbn [of_option variant_ops.of_alloc alloc].
      fold q. fold σ2. rewrite Hl2. cbn [of_option].
      rewrite Hp2. rewrite Hset. done. }
    cbn [heap_ vars_].
    assert (Hpq : p ≠ q) by (unfold q; lia).
    assert (Hlen2 : p < length (heap_ σ2))
      by (unfold σ2; simpl; rewrite length_app; lia).
    split; [by apply deref_insert_eq|]. split; [done|]. split; [done|].
    split; [simpl; rewrite deref_insert_eq by done; by rewrite Hlook|].
    assert (Hq : deref (<[p:=Some (json_object
                   (take i members ++ (name, object_val_ q) :: drop i members))]> (heap_ σ2)) q
                 = Some (json_object [])).
    { rewrite deref_insert_ne by done. unfold σ2, q. simpl. apply deref_alloc. }
    split; [done|]. split; [done|]. split; [done|].
    cbn [basic_json.size]. by rewrite Hq.
Qed.

Lemma C3_absent_key_is_inserted_as_object_witness :
  ∃ p i q σ' members,
    proxy.evaluate_with_default at_the_end (proxy_of_json (lv_var 0) [120%Z]) one_empty_object
    = (Ok (lv_member p i), σ')
    ∧ deref (heap_ σ') p = Some (json_object members)
    ∧ members !! i = Some ([120%Z], object_val_ q)
    ∧ json_object_ops.find members [120%Z] = Some i
    ∧ load σ' (lv_member p i) = Some (object_val_ q)
    ∧ deref (heap_ σ') q = Some (json_object [])
    ∧ basic_json.is_null (object_val_ q) = false
    ∧ basic_json.is_object (object_val_ q) = true
    ∧ basic_json.size (heap_ σ') (object_val_ q) = Ok 0.
Proof.
  apply (C3_absent_key_is_inserted_as_object at_the_end one_empty_object (lv_var 0) [120%Z]).
  reflexivity.
Defined.

Lemma C3_counterexample :
  bind (proxy.evaluate_with_default at_the_end (proxy_of_json (lv_var 0) [120%Z]))
    (λ lv, bind (load_ lv) (λ var, ret (basic_json.is_null var, type_ var)))
    one_empty_object
  = (Ok (false, value_types.object_t),
     {| vars_ := [object_val_ 0];
        heap_ := [Some (json_object [([120%Z], object_val_ 1)]); Some (json_object [])] |}).
Proof. reflexivity. Qed.

Lemma create_object_implicitly_spec (σ : state) (this : lvalue) (var : variant.t) :
  load σ this = Some var →
  type_ var ≠ value_types.object_t →
  ∃ σ1, basic_json.create_object_implicitly this σ = (Ok (), σ1)
        ∧ load σ1 this = Some (object_val_ (length (heap_ σ)))
        ∧ deref (heap_ σ1) (length (heap_ σ)) = Some (json_object [])
        ∧ length (heap_ σ1) = S (length (heap_ σ)).
Proof.
  intros Hload Hty.
  set (p := length (heap_ σ)).
  set (σ0 := {| vars_ := vars_ σ; heap_ := heap_ σ ++ [Some (json_object [])] |}).
  assert (Hl0 : load σ0 this = Some var) by (by apply load_alloc).
  exists (store σ0 this (object_val_ p)). split; [done|]. split; [|split].
  - apply load_store_same. by rewrite Hl0.
  - destruct this as [x|p0 i0|p0 i0]; simpl.
    + apply deref_alloc.
    + simpl in Hl0.
      destruct (deref (heap_ σ ++ [Some (json_object [])]) p0) as [[| |ms|]|] eqn:Hp0;
        try apply deref_alloc.
      simpl. destruct (decide (p0 = p)) as [->|Hne].
      * rewrite deref_alloc in Hp0. simplify_eq/=.
      * rewrite deref_insert_ne by done. apply deref_alloc.
    + simpl in Hl0.
      destruct (deref (heap_ σ ++ [Some (json_object [])]) p0) as [[|es| |]|] eqn:Hp0;
        try apply deref_alloc.
      simpl. destruct (decide (p0 = p)) as [->|Hne].
      * rewrite deref_alloc in Hp0. simplify_eq/=.
      * rewrite deref_insert_ne by done. apply deref_alloc.
  - rewrite store_heap_length. simpl. rewrite length_app. simpl. lia.
Qed.

(** C4, as the code has it: for a value [r] with the tag [empty_object_t],
    [at(name)] and the const [operator[]] throw [std::out_of_range] and
    leave the state as it is.  A read through the proxy of the
    non-const [r[name]] by its [evaluate()], as the conversion to a
    reference does it and the accessors without a [noexcept]
    specification, here [as_integer()], [empty()] and [count(name)],
    throws [std::out_of_range] too, but [operator[]] has promoted [r]
    by then: [r] has the tag [object_t] and a new block without
    members. *)
Theorem C4_read_of_missing_member (σ : state) (r : lvalue) (name : list Z) :
  load σ r = Some empty_object_ →
  basic_json.at_ r name σ = (Throw (out_of_range "%s not found"), σ)
  ∧ proxy.subscript_const r name σ = (Throw (out_of_range "%s not found"), σ)
  ∧ ∃ σ', bind (proxy.subscript r name) proxy.evaluate σ
          = (Throw (out_of_range "%s not found"), σ')
        ∧ bind (proxy.subscript r name) proxy.as_integer σ
          = (Throw (out_of_range "%s not found"), σ')
        ∧ bind (proxy.subscript r name) proxy.empty σ
          = (Throw (out_of_range "%s not found"), σ')
        ∧ (∀ name', bind (proxy.subscript r name) (λ P, proxy.count P name') σ
                    = (Throw (out_of_range "%s not found"), σ'))
        ∧ load σ' r = Some (object_val_ (length (heap_ σ)))
        ∧ deref (heap_ σ') (length (heap_ σ)) = Some (json_object [])
        ∧ basic_json.is_object (object_val_ (length (heap_ σ))) = true
        ∧ basic_json.size (heap_ σ') (object_val_ (length (heap_ σ))) = Ok 0.
Proof.
  intros Hload.
  assert (Hat : basic_json.at_ r name σ = (Throw (out_of_range "%s not found"), σ)).
  { unfold basic_json.at_, bind, load_. by rewrite Hload. }
  split; [done|]. split; [done|].
  destruct (create_object_implicitly_spec σ r empty_object_ Hload)
    as (σ1 & Hcreate & Hl1 & Hp1 & Hlen1); [done|].
  assert (Hsub : proxy.subscript r name σ = (Ok (proxy_of_json r name), σ1)).
  { unfold proxy.subscript, bind at 1, load_ at 1.
    rewrite Hload. cbn [of_option]. unfold bind. by rewrite Hcreate. }
  assert (Hev : proxy.evaluate (proxy_of_json r name) σ1
                = (Throw (out_of_range "%s not found"), σ1)).
  { cbn [proxy.evaluate]. unfold basic_json.at_, bind, load_. rewrite Hl1.
    cbn [of_option]. unfold object_at. by rewrite Hp1. }
  exists σ1.
  split; [by unfold bind; rewrite Hsub|].
  split; [by unfold bind, proxy.as_integer; rewrite Hsub; unfold bind; rewrite Hev|].
  split; [by unfold bind, proxy.empty; rewrite Hsub; unfold bind; rewrite Hev|].
  split; [by intros name'; unfold bind, proxy.count; rewrite Hsub; unfold bind; rewrite Hev|].
  split; [done|]. split; [done|]. split; [done|].
  cbn [basic_json.size]. by rewrite Hp1.
Qed.

Lemma C4_read_of_missing_member_witness :
  basic_json.at_ (lv_var 0) [120%Z] one_empty_object
  = (Throw (out_of_range "%s not found"), one_empty_object)
  ∧ proxy.subscript_const (lv_var 0) [120%Z] one_empty_object
    = (Throw (out_of_range "%s not found"), one_empty_object)
  ∧ ∃ σ', bind (proxy.subscript (lv_var 0) [120%Z]) proxy.evaluate one_empty_object
          = (Throw (out_of_range "%s not found"), σ')
        ∧ bind (proxy.subscript (lv_var 0) [120%Z]) proxy.as_integer one_empty_object
          = (Throw (out_of_range "%s not found"), σ')
        ∧ bind (proxy.subscript (lv_var 0) [120%Z]) proxy.empty one_empty_object
          = (Throw (out_of_range "%s not found"), σ')
        ∧ (∀ name', bind (proxy.subscript (lv_var 0) [120%Z])
                      (λ P, proxy.count P name') one_empty_object
                    = (Throw (out_of_range "%s not found"), σ'))
        ∧ load σ' (lv_var 0) = Some (object_val_ (length (heap_ one_empty_object)))
        ∧ deref (heap_ σ') (length (heap_ one_empty_object)) = Some (json_object [])
        ∧ basic_json.is_object (object_val_ (length (heap_ one_empty_object))) = true
        ∧ basic_json.size (heap_ σ') (object_val_ (length (heap_ one_empty_object))) = Ok 0.
Proof.
  apply (C4_read_of_missing_member one_empty_object (lv_var 0) [120%Z]).
  reflexivity.
Defined.

Lemma C4_counterexample :
  load one_empty_object (lv_var 0) = Some empty_object_
  ∧ bind (proxy.subscript (lv_var 0) [120%Z]) proxy.evaluate one_empty_object
    = (Throw (out_of_range "%s not found"),
       {| vars_ := [object_val_ 0]; heap_ := [Some (json_object [])] |})
  ∧ type_ (object_val_ 0) = value_types.object_t.
Proof. repeat split. Qed.

(** Writing [r[x][y] = value] into a default-constructed [r] makes [r]
    an object whose member [x] is an object whose member [y] is the
    value; nothing else is created. *)
Theorem chained_write_materializes_the_path
    (position : list Z → list (list Z * variant.t) → nat) (x y : list Z) (value : variant.t) :
  bind (proxy.subscript (lv_var 0) x)
    (λ P, proxy.assign position (proxy.subscript_proxy P y) value) one_empty_object
  = (Ok (),
     {| vars_ := [object_val_ 0];
        heap_ := [Some (json_object [(x, object_val_ 1)]);
                  Some (json_object [(y, value)])] |}).
Proof.
  unfold bind, proxy.subscript, proxy.assign, proxy.subscript_proxy. simpl.
  unfold bind, load_, store_, on_heap, object_at, get_heap, put_heap, ret, lift. simpl.
  rewrite !Nat.min_0_r. simpl.
  unfold basic_json.set, basic_json.set_hint.
  unfold bind, load_, store_, on_heap, object_at, get_heap, put_heap, ret, lift. simpl.
  rewrite !Nat.min_0_r. done.
Qed.

(** *** Copies *)

Section repr_facts.
Implicit Types (h H : list (option cell)) (v w : variant.t) (t : tree) (A B : list nat).

(** Every block of a footprint is allocated. *)
Lemma repr_live h :
  (∀ v t A, repr h v t A → ∀ a, a ∈ A → is_Some (deref h a))
  ∧ (∀ es ts A, repr_elements h es ts A → ∀ a, a ∈ A → is_Some (deref h a))
  ∧ (∀ ms tms A, repr_members h ms tms A → ∀ a, a ∈ A → is_Some (deref h a)).
Proof.
  apply repr_mutind; intros;
    repeat match goal with
           | H : _ ∈ [] |- _ => by apply elem_of_nil in H
           | H : _ ∈ [_] |- _ => apply list_elem_of_singleton in H; subst
           | H : _ ∈ _ :: _ |- _ => apply elem_of_cons in H; destruct H as [->|H]
           | H : _ ∈ _ ++ _ |- _ => apply elem_of_app in H; destruct H as [H|H]
           end; eauto.
Qed.

(** The relation looks at the blocks of the footprint only. *)
Lemma repr_frame h :
  (∀ v t A, repr h v t A →
     ∀ H, (∀ a, a ∈ A → deref H a = deref h a) → repr H v t A)
  ∧ (∀ es ts A, repr_elements h es ts A →
     ∀ H, (∀ a, a ∈ A → deref H a = deref h a) → repr_elements H es ts A)
  ∧ (∀ ms tms A, repr_members h ms tms A →
     ∀ H, (∀ a, a ∈ A → deref H a = deref h a) → repr_members H ms tms A).
Proof.
  apply repr_mutind; try (intros; by constructor).
  - intros p s Hp H Hag. constructor. rewrite Hag; [done|elem].
  - intros p ms tms A Hp _ IH H Hag. econstructor.
    + rewrite Hag; [done|elem].
    + apply IH. intros a Ha. apply Hag. elem.
  - intros p es ts A Hp _ IH H Hag. econstructor.
    + rewrite Hag; [done|elem].
    + apply IH. intros a Ha. apply Hag. elem.
  - intros p impl Hp H Hag. constructor. rewrite Hag; [done|elem].
  - intros e t A es ts B _ IHe _ IHes H Hag. constructor.
    + apply IHe. intros a Ha. apply Hag. elem.
    + apply IHes. intros a Ha. apply Hag. elem.
  - intros name e t A ms tms B _ IHe _ IHms H Hag. constructor.
    + apply IHe. intros a Ha. apply Hag. elem.
    + apply IHms. intros a Ha. apply Hag. elem.
Qed.

(** Appending blocks keeps what is represented. *)
Lemma repr_app h cells v t A : repr h v t A → repr (h ++ cells) v t A.
Proof.
  intros Hr. eapply (proj1 (repr_frame h)); [done|].
  intros a Ha. apply deref_app_l.
  destruct (proj1 (repr_live h) _ _ _ Hr a Ha) as [c Hc]. by eapply deref_Some_lt.
Qed.

Lemma repr_elements_app h cells es ts A :
  repr_elements h es ts A → repr_elements (h ++ cells) es ts A.
Proof.
  intros Hr. eapply (proj1 (proj2 (repr_frame h))); [done|].
  intros a Ha. apply deref_app_l.
  destruct (proj1 (proj2 (repr_live h)) _ _ _ Hr a Ha) as [c Hc]. by eapply deref_Some_lt.
Qed.

Lemma repr_members_app h cells ms tms A :
  repr_members h ms tms A → repr_members (h ++ cells) ms tms A.
Proof.
  intros Hr. eapply (proj2 (proj2 (repr_frame h))); [done|].
  intros a Ha. apply deref_app_l.
  destruct (proj2 (proj2 (repr_live h)) _ _ _ Hr a Ha) as [c Hc]. by eapply deref_Some_lt.
Qed.

Lemma repr_lt h v t A a : repr h v t A → a ∈ A → a < length h.
Proof.
  intros Hr Ha. destruct (proj1 (repr_live h) _ _ _ Hr a Ha) as [c Hc].
  by eapply deref_Some_lt.
Qed.

Lemma repr_elements_lt h es ts A a : repr_elements h es ts A → a ∈ A → a < length h.
Proof.
  intros Hr Ha. destruct (proj1 (proj2 (repr_live h)) _ _ _ Hr a Ha) as [c Hc].
  by eapply deref_Some_lt.
Qed.

Lemma repr_members_lt h ms tms A a : repr_members h ms tms A → a ∈ A → a < length h.
Proof.
  intros Hr Ha. destruct (proj2 (proj2 (repr_live h)) _ _ _ Hr a Ha) as [c Hc].
  by eapply deref_Some_lt.
Qed.
End repr_facts.

Section copy_facts.
Implicit Types (h H : list (option cell)) (v w : variant.t) (t : tree) (A B : list nat).

Lemma foldr_max_Forall (l : list nat) n :
  foldr Nat.max 0 l < n → Forall (λ x, x < n) l.
Proof.
  induction l as [|x l IH]; simpl; intros Hn; constructor; [lia|].
  apply IH. lia.
Qed.

Lemma depth_array_inv ts fuel :
  depth (t_array ts) < S fuel → Forall (λ t, depth t < fuel) ts.
Proof.
  simpl. intros Hd. apply Nat.succ_lt_mono in Hd.
  apply foldr_max_Forall in Hd. by apply Forall_fmap in Hd.
Qed.

Lemma depth_object_inv (tms : list (list Z * tree)) fuel :
  depth (t_object tms) < S fuel → Forall (λ m, depth m.2 < fuel) tms.
Proof.
  simpl. intros Hd. apply Nat.succ_lt_mono in Hd.
  apply foldr_max_Forall in Hd. by apply Forall_fmap in Hd.
Qed.

Lemma init_variant_spec h :
  (∀ v t A, repr h v t A →
     ∀ fuel H, depth t < fuel → (∀ a, a ∈ A → deref H a = deref h a) →
     ∃ v' cells A',
       variant_ops.init_variant fuel v H = Ok (v', H ++ cells)
       ∧ repr (H ++ cells) v' t A' ∧ fresh_for H A' ∧ NoDup A')
  ∧ (∀ es ts A, repr_elements h es ts A →
     ∀ fuel H, Forall (λ t, depth t < fuel) ts →
     (∀ a, a ∈ A → deref H a = deref h a) →
     ∃ es' cells A',
       variant_ops.copy_elements (variant_ops.init_variant fuel) es H = Ok (es', H ++ cells)
       ∧ repr_elements (H ++ cells) es' ts A' ∧ fresh_for H A' ∧ NoDup A')
  ∧ (∀ ms tms A, repr_members h ms tms A →
     ∀ fuel H, Forall (λ m, depth m.2 < fuel) tms →
     (∀ a, a ∈ A → deref H a = deref h a) →
     ∃ ms' cells A',
       variant_ops.copy_members (variant_ops.init_variant fuel) ms H = Ok (ms', H ++ cells)
       ∧ repr_members (H ++ cells) ms' tms A' ∧ fresh_for H A' ∧ NoDup A').
Proof.
  apply repr_mutind.
  - intros fuel H Hd _. destruct fuel; [lia|].
    exists empty_object_, [], []. rewrite app_nil_r.
    repeat split; [constructor|by intros ? ?%elem_of_nil|constructor].
  - intros s fuel H Hd _. destruct fuel; [lia|].
    exists (small_string_val_ s), [], []. rewrite app_nil_r. simpl. rewrite firstn_all.
    repeat split; [constructor|by intros ? ?%elem_of_nil|constructor].
  - intros d fuel H Hd _. destruct fuel; [lia|].
    exists (double_val_ d), [], []. rewrite app_nil_r.
    repeat split; [constructor|by intros ? ?%elem_of_nil|constructor].
  - intros i fuel H Hd _. destruct fuel; [lia|].
    exists (integer_val_ i), [], []. rewrite app_nil_r.
    repeat split; [constructor|by intros ? ?%elem_of_nil|constructor].
  - intros u fuel H Hd _. destruct fuel; [lia|].
    exists (uinteger_val_ u), [], []. rewrite app_nil_r.
    repeat split; [constructor|by intros ? ?%elem_of_nil|constructor].
  - intros b fuel H Hd _. destruct fuel; [lia|].
    exists (bool_val_ b), [], []. rewrite app_nil_r.
    repeat split; [constructor|by intros ? ?%elem_of_nil|constructor].
  - intros fuel H Hd _. destruct fuel; [lia|].
    exists null_, [], []. rewrite app_nil_r.
    repeat split; [constructor|by intros ? ?%elem_of_nil|constructor].
  - (* string *)
    intros p s Hp fuel H Hd Hag. destruct fuel; [lia|].
    exists (string_val_ (length H)), [Some (string_data s)], [length H].
    simpl. rewrite Hag by elem. rewrite Hp.
    unfold variant_ops.copy_string_data, alloc. rewrite firstn_all.
    repeat split.
    + constructor. apply deref_alloc.
    + intros a ->%list_elem_of_singleton. done.
    + apply NoDup_singleton.
  - (* object *)
    intros p ms tms A Hp Hms IH fuel H Hd Hag. destruct fuel; [lia|].
    apply depth_object_inv in Hd.
    destruct (IH fuel H Hd) as (ms' & cells & A' & Hcopy & Hrepr & Hfresh & Hnd).
    { intros a Ha. apply Hag. elem. }
    exists (object_val_ (length (H ++ cells))), (cells ++ [Some (json_object ms')]),
      (length (H ++ cells) :: A').
    simpl. rewrite Hag by elem. rewrite Hp. simpl. rewrite Hcopy. simpl.
    unfold alloc. rewrite <-app_assoc.
    repeat split.
    + econstructor.
      * rewrite app_assoc. apply deref_alloc.
      * rewrite app_assoc. by apply repr_members_app.
    + intros a [->|Ha]%elem_of_cons; [rewrite length_app; lia|by apply Hfresh].
    + constructor; [|done]. intros Hin.
      pose proof (repr_members_lt _ _ _ _ _ Hrepr Hin). lia.
  - (* array *)
    intros p es ts A Hp Hes IH fuel H Hd Hag. destruct fuel; [lia|].
    apply depth_array_inv in Hd.
    destruct (IH fuel H Hd) as (es' & cells & A' & Hcopy & Hrepr & Hfresh & Hnd).
    { intros a Ha. apply Hag. elem. }
    exists (array_val_ (length (H ++ cells))), (cells ++ [Some (json_array es')]),
      (length (H ++ cells) :: A').
    simpl. rewrite Hag by elem. rewrite Hp. simpl. rewrite Hcopy. simpl.
    unfold alloc. rewrite <-app_assoc.
    repeat split.
    + econstructor.
      * rewrite app_assoc. apply deref_alloc.
      * rewrite app_assoc. by apply repr_elements_app.
    + intros a [->|Ha]%elem_of_cons; [rewrite length_app; lia|by apply Hfresh].
    + constructor; [|done]. intros Hin.
      pose proof (repr_elements_lt _ _ _ _ _ Hrepr Hin). lia.
  - (* any *)
    intros p impl Hp fuel H Hd Hag. destruct fuel; [lia|].
    exists (any_val_ (length H)), [Some (serializable_any impl)], [length H].
    simpl. rewrite Hag by elem. rewrite Hp. unfold alloc.
    repeat split.
    + constructor. apply deref_alloc.
    + intros a ->%list_elem_of_singleton. done.
    + apply NoDup_singleton.
  - (* no element *)
    intros fuel H _ _. exists [], [], []. rewrite app_nil_r.
    repeat split; [constructor|by intros ? ?%elem_of_nil|constructor].
  - (* an element and the rest *)
    intros e t A es ts B He IHe Hes IHes fuel H Hd Hag.
    apply Forall_cons in Hd as [Hdt Hdts].
    destruct (IHe fuel H Hdt) as (e' & c1 & A' & Hc1 & Hr1 & Hf1 & Hn1).
    { intros a Ha. apply Hag. elem. }
    destruct (IHes fuel (H ++ c1) Hdts) as (es' & c2 & B' & Hc2 & Hr2 & Hf2 & Hn2).
    { intros a Ha. rewrite deref_app_l; [apply Hag; elem|].
      destruct (proj1 (proj2 (repr_live h)) _ _ _ Hes a Ha) as [c Hc].
      rewrite <-Hag in Hc by elem. by eapply deref_Some_lt. }
    exists (e' :: es'), (c1 ++ c2), (A' ++ B').
    simpl. rewrite Hc1. simpl. rewrite Hc2. simpl. rewrite <-app_assoc.
    repeat split.
    + rewrite app_assoc. constructor; [by apply repr_app|done].
    + intros a [Ha|Ha]%elem_of_app; [by apply Hf1|].
      apply Hf2 in Ha. rewrite length_app in Ha. lia.
    + apply NoDup_app. split; [done|]. split; [|done].
      intros a Ha Hb. pose proof (repr_lt _ _ _ _ _ Hr1 Ha). apply Hf2 in Hb. lia.
  - (* no member *)
    intros fuel H _ _. exists [], [], []. rewrite app_nil_r.
    repeat split; [constructor|by intros ? ?%elem_of_nil|constructor].
  - (* a member and the rest *)
    intros name e t A ms tms B He IHe Hms IHms fuel H Hd Hag.
    apply Forall_cons in Hd as [Hdt Hdts]. simpl in Hdt.
    destruct (IHe fuel H Hdt) as (e' & c1 & A' & Hc1 & Hr1 & Hf1 & Hn1).
    { intros a Ha. apply Hag. elem. }
    destruct (IHms fuel (H ++ c1) Hdts) as (ms' & c2 & B' & Hc2 & Hr2 & Hf2 & Hn2).
    { intros a Ha. rewrite deref_app_l; [apply Hag; elem|].
      destruct (proj2 (proj2 (repr_live h)) _ _ _ Hms a Ha) as [c Hc].
      rewrite <-Hag in Hc by elem. by eapply deref_Some_lt. }
    exists ((name, e') :: ms'), (c1 ++ c2), (A' ++ B').
    simpl. rewrite Hc1. simpl. rewrite Hc2. simpl. rewrite <-app_assoc.
    repeat split.
    + rewrite app_assoc. constructor; [by apply repr_app|done].
    + intros a [Ha|Ha]%elem_of_app; [by apply Hf1|].
      apply Hf2 in Ha. rewrite length_app in Ha. lia.
    + apply NoDup_app. split; [done|]. split; [|done].
      intros a Ha Hb. pose proof (repr_lt _ _ _ _ _ Hr1 Ha). apply Hf2 in Hb. lia.
Qed.
End copy_facts.

Section equal_facts.
Implicit Types (h H : list (option cell)) (v w : variant.t) (t : tree) (A B : list nat).

Lemma SFeqb_refl (d : spec_float) : d ≠ S754_nan → SFeqb d d = true.
Proof.
  intros Hd. unfold SFeqb, SFcompare.
  destruct d as [s|s| |s m e]; try done.
  - by destruct s.
  - rewrite Z.compare_refl. rewrite Pos.compare_cont_refl. by destruct s.
Qed.

Lemma comparable_double d : comparable (t_double d) = true → d ≠ S754_nan.
Proof. by destruct d. Qed.

Lemma compare_is_0_refl (s : list Z) : compare_is_0 s s (length s) = true.
Proof. unfold compare_is_0. by apply bool_decide_eq_true. Qed.

Lemma equal_spec h :
  (∀ a t A, repr h a t A →
     ∀ fuel b B, repr h b t B → comparable t = true → depth t < fuel →
     variant_ops.equal fuel h a b = Ok true)
  ∧ (∀ es ts A, repr_elements h es ts A →
     ∀ fuel es2 B, repr_elements h es2 ts B →
     forallb comparable ts = true → Forall (λ t, depth t < fuel) ts →
     variant_ops.equal_elements (variant_ops.equal fuel h) es es2 = Ok true)
  ∧ (∀ ms tms A, repr_members h ms tms A →
     ∀ fuel ms2 B, repr_members h ms2 tms B →
     forallb (λ m, comparable m.2) tms = true → Forall (λ m, depth m.2 < fuel) tms →
     variant_ops.equal_members (variant_ops.equal fuel h) ms ms2 = Ok true).
Proof.
  apply repr_mutind.
  - intros fuel b B Hb _ Hd. destruct fuel; [lia|]. by inversion Hb.
  - intros s fuel b B Hb _ Hd. destruct fuel; [lia|]. inversion Hb; subst. simpl.
    by rewrite Nat.eqb_refl, compare_is_0_refl.
  - intros d fuel b B Hb Hc Hd. destruct fuel; [lia|]. inversion Hb; subst. simpl.
    by rewrite SFeqb_refl by (by apply comparable_double).
  - intros i fuel b B Hb _ Hd. destruct fuel; [lia|]. inversion Hb; subst. simpl.
    by rewrite Z.eqb_refl.
  - intros u fuel b B Hb _ Hd. destruct fuel; [lia|]. inversion Hb; subst. simpl.
    by rewrite Z.eqb_refl.
  - intros c fuel b B Hb _ Hd. destruct fuel; [lia|]. inversion Hb; subst. simpl.
    by destruct c.
  - intros fuel b B Hb _ Hd. destruct fuel; [lia|]. by inversion Hb.
  - intros p s Hp fuel b B Hb _ Hd. destruct fuel; [lia|]. inversion Hb; subst. simpl.
    rewrite Hp. match goal with H : deref h _ = Some (string_data s) |- _ => rewrite H end.
    by rewrite Nat.eqb_refl, compare_is_0_refl.
  - intros p ms tms A Hp Hms IH fuel b B Hb Hc Hd. destruct fuel; [lia|].
    inversion Hb as [| | | | | | | |q ms2 ? B' Hq Hms2| |]; subst. simpl.
    rewrite Hp, Hq. eapply IH; [done|done|by apply depth_object_inv].
  - intros p es ts A Hp Hes IH fuel b B Hb Hc Hd. destruct fuel; [lia|].
    inversion Hb as [| | | | | | | | |q es2 ? B' Hq Hes2|]; subst. simpl.
    rewrite Hp, Hq. eapply IH; [done|done|by apply depth_array_inv].
  - intros p impl Hp fuel b B Hb Hc. done.
  - intros fuel es2 B Hes2 _ _. by inversion Hes2.
  - intros e t A es ts B' He IHe Hes IHes fuel es2 B Hes2 Hc Hd.
    inversion Hes2 as [|e2 ? A2 es2' ? B2 He2 Hes2']; subst.
    simpl in Hc. apply andb_prop in Hc as [Hc1 Hc2].
    apply Forall_cons in Hd as [Hd1 Hd2]. simpl.
    rewrite (IHe fuel e2 A2 He2 Hc1 Hd1). simpl. by eapply IHes.
  - intros fuel ms2 B Hms2 _ _. by inversion Hms2.
  - intros name e t A ms tms B' He IHe Hms IHms fuel ms2 B Hms2 Hc Hd.
    inversion Hms2 as [|? e2 ? A2 ms2' ? B2 He2 Hms2']; subst.
    simpl in Hc. apply andb_prop in Hc as [Hc1 Hc2].
    apply Forall_cons in Hd as [Hd1 Hd2]. simpl in Hd1. simpl.
    rewrite bool_decide_eq_true_2 by done.
    rewrite (IHe fuel e2 A2 He2 Hc1 Hd1). simpl. by eapply IHms.
Qed.
End equal_facts.

Section destroy_facts.
Implicit Types (h H : list (option cell)) (v w : variant.t) (t : tree) (A B : list nat).

Lemma released_nil H : released H H [].
Proof. split; [done|]. split; [done|]. by intros ? ?%elem_of_nil. Qed.

Lemma free_spec H p c :
  deref H p = Some c → free H p = Ok (<[p:=None]> H) ∧ released H (<[p:=None]> H) [p].
Proof.
  intros Hp. unfold free. rewrite Hp. split; [done|].
  split; [by rewrite length_insert|]. split.
  - intros a Ha. apply list_lookup_insert_ne. intros ->. apply Ha. elem.
  - intros a ->%list_elem_of_singleton. unfold deref.
    rewrite list_lookup_insert_eq by (by eapply deref_Some_lt). done.
Qed.

Lemma released_deref H H' W a : released H H' W → a ∉ W → deref H' a = deref H a.
Proof. intros (_ & Hout & _) Ha. unfold deref. by rewrite Hout. Qed.

Lemma released_app H H1 H2 A B :
  released H H1 A → released H1 H2 B → released H H2 (A ++ B).
Proof.
  intros (Hl1 & Ho1 & Hi1) (Hl2 & Ho2 & Hi2). split; [congruence|]. split.
  - intros a Ha. rewrite Ho2, Ho1; [done| |]; intros ?; apply Ha; elem.
  - intros a [Ha|Ha]%elem_of_app.
    + destruct (decide (a ∈ B)) as [Hb|Hb]; [by apply Hi2|].
      unfold deref. rewrite Ho2 by done. by apply Hi1.
    + by apply Hi2.
Qed.

(** After the elements, the block itself. *)
Lemma released_block H H1 p c A :
  p ∉ A → deref H p = Some c → released H H1 A →
  free H1 p = Ok (<[p:=None]> H1) ∧ released H (<[p:=None]> H1) (p :: A).
Proof.
  intros Hp Hc Hrel.
  assert (Hc1 : deref H1 p = Some c) by (by rewrite (released_deref H H1 A)).
  destruct (free_spec H1 p c Hc1) as [Hfree Hrel1]. split; [done|].
  pose proof (released_app _ _ _ _ _ Hrel Hrel1) as (Hl & Ho & Hi).
  split; [done|]. split.
  - intros a Ha. apply Ho. intros Hin. apply Ha.
    apply elem_of_app in Hin as [Hin|Hin%list_elem_of_singleton]; [elem|subst; elem].
  - intros a [->|Ha]%elem_of_cons; apply Hi.
    + apply elem_of_app. right. by apply list_elem_of_singleton.
    + elem.
Qed.

Lemma destroy_variant_spec h :
  (∀ w t W, repr h w t W →
     ∀ fuel H, NoDup W → depth t < fuel → (∀ a, a ∈ W → deref H a = deref h a) →
     ∃ H', variant_ops.destroy_variant fuel w H = Ok H' ∧ released H H' W)
  ∧ (∀ es ts W, repr_elements h es ts W →
     ∀ fuel H, NoDup W → Forall (λ t, depth t < fuel) ts →
     (∀ a, a ∈ W → deref H a = deref h a) →
     ∃ H', variant_ops.destroy_elements (variant_ops.destroy_variant fuel) es H = Ok H'
           ∧ released H H' W)
  ∧ (∀ ms tms W, repr_members h ms tms W →
     ∀ fuel H, NoDup W → Forall (λ m, depth m.2 < fuel) tms →
     (∀ a, a ∈ W → deref H a = deref h a) →
     ∃ H', variant_ops.destroy_elements (variant_ops.destroy_variant fuel) (ms.*2) H = Ok H'
           ∧ released H H' W).
Proof.
  apply repr_mutind.
  - intros fuel H _ Hd _. destruct fuel; [lia|]. exists H. split; [done|apply released_nil].
  - intros s fuel H _ Hd _. destruct fuel; [lia|]. exists H. split; [done|apply released_nil].
  - intros d fuel H _ Hd _. destruct fuel; [lia|]. exists H. split; [done|apply released_nil].
  - intros i fuel H _ Hd _. destruct fuel; [lia|]. exists H. split; [done|apply released_nil].
  - intros u fuel H _ Hd _. destruct fuel; [lia|]. exists H. split; [done|apply released_nil].
  - intros b fuel H _ Hd _. destruct fuel; [lia|]. exists H. split; [done|apply released_nil].
  - intros fuel H _ Hd _. destruct fuel; [lia|]. exists H. split; [done|apply released_nil].
  - intros p s Hp fuel H _ Hd Hag. destruct fuel; [lia|].
    assert (HpH : deref H p = Some (string_data s)) by (rewrite Hag by elem; done).
    destruct (free_spec H p _ HpH) as [Hfree Hrel].
    exists (<[p:=None]> H). simpl. rewrite HpH. done.
  - intros p ms tms A Hp Hms IH fuel H Hnd Hd Hag. destruct fuel; [lia|].
    apply NoDup_cons in Hnd as [HpA HndA].
    assert (HpH : deref H p = Some (json_object ms)) by (rewrite Hag by elem; done).
    destruct (IH fuel H HndA) as (H1 & Hdes & Hrel).
    { by apply depth_object_inv. }
    { intros a Ha. apply Hag. elem. }
    destruct (released_block H H1 p _ A HpA HpH Hrel) as [Hfree Hrel'].
    exists (<[p:=None]> H1). simpl. rewrite HpH, Hdes. simpl. done.
  - intros p es ts A Hp Hes IH fuel H Hnd Hd Hag. destruct fuel; [lia|].
    apply NoDup_cons in Hnd as [HpA HndA].
    assert (HpH : deref H p = Some (json_array es)) by (rewrite Hag by elem; done).
    destruct (IH fuel H HndA) as (H1 & Hdes & Hrel).
    { by apply depth_array_inv. }
    { intros a Ha. apply Hag. elem. }
    destruct (released_block H H1 p _ A HpA HpH Hrel) as [Hfree Hrel'].
    exists (<[p:=None]> H1). simpl. rewrite HpH, Hdes. simpl. done.
  - intros p impl Hp fuel H _ Hd Hag. destruct fuel; [lia|].
    assert (HpH : deref H p = Some (serializable_any impl)) by (rewrite Hag by elem; done).
    destruct (free_spec H p _ HpH) as [Hfree Hrel].
    exists (<[p:=None]> H). simpl. rewrite HpH. done.
  - intros fuel H _ _ _. exists H. split; [done|apply released_nil].
  - intros e t A es ts B He IHe Hes IHes fuel H Hnd Hd Hag.
    apply NoDup_app in Hnd as (HndA & Hdisj & HndB).
    apply Forall_cons in Hd as [Hd1 Hd2].
    destruct (IHe fuel H HndA Hd1) as (H1 & Hdes1 & Hrel1).
    { intros a Ha. apply Hag. elem. }
    destruct (IHes fuel H1 HndB Hd2) as (H2 & Hdes2 & Hrel2).
    { intros a Ha. rewrite (released_deref H H1 A) by (try done; intros ?; by eapply Hdisj).
      apply Hag. elem. }
    exists H2. simpl. rewrite Hdes1. simpl. split; [done|].
    by eapply released_app.
  - intros fuel H _ _ _. exists H. split; [done|apply released_nil].
  - intros name e t A ms tms B He IHe Hms IHms fuel H Hnd Hd Hag.
    apply NoDup_app in Hnd as (HndA & Hdisj & HndB).
    apply Forall_cons in Hd as [Hd1 Hd2]. simpl in Hd1.
    destruct (IHe fuel H HndA Hd1) as (H1 & Hdes1 & Hrel1).
    { intros a Ha. apply Hag. elem. }
    destruct (IHms fuel H1 HndB Hd2) as (H2 & Hdes2 & Hrel2).
    { intros a Ha. rewrite (released_deref H H1 A) by (try done; intros ?; by eapply Hdisj).
      apply Hag. elem. }
    exists H2. simpl. rewrite Hdes1. simpl. split; [done|].
    by eapply released_app.
Qed.
End destroy_facts.

Section deep_copy_facts.
Implicit Types (h H : list (option cell)) (v w : variant.t) (t : tree) (A B : list nat)
  (σ : state).

Lemma store_heap_outside σ lv x a :
  match lv with lv_var _ => True | lv_member p _ | lv_element p _ => a ≠ p end →
  deref (heap_ (store σ lv x)) a = deref (heap_ σ) a.
Proof.
  destruct lv as [y|p i|p i]; simpl; [done| |]; intros Ha.
  - destruct (deref (heap_ σ) p) as [[| | |]|]; try done. simpl. by rewrite deref_insert_ne.
  - destruct (deref (heap_ σ) p) as [[| | |]|]; try done. simpl. by rewrite deref_insert_ne.
Qed.

Lemma deep_copy_intro fuel σ v v' t A A' :
  repr (heap_ σ) v' t A' → repr (heap_ σ) v t A →
  NoDup A' → (∀ a, a ∈ A' → a ∉ A) → depth t < fuel →
  deep_copy fuel σ v v' t A A'.
Proof.
  intros Hv' Hv Hnd Hdisj Hd. split; [done|]. split; [done|]. split; [done|].
  split; [done|]. split; [|split].
  - intros Hc. by eapply (proj1 (equal_spec (heap_ σ))).
  - intros H Hag. by eapply (proj1 (repr_frame (heap_ σ))).
  - intros p i x Hp. split.
    + eapply (proj1 (repr_frame (heap_ σ))); [done|].
      intros a Ha. apply store_heap_outside. intros ->. by eapply Hdisj.
    + eapply (proj1 (repr_frame (heap_ σ))); [done|].
      intros a Ha. apply store_heap_outside. intros ->. by eapply Hdisj.
Qed.

Lemma repr_simple h v t A : repr h v t A → is_simple (type_ v) = true → A = [].
Proof. by destruct 1. Qed.

Lemma init_variant_simple fuel v h :
  is_simple (type_ v) = true → 0 < fuel → variant_ops.init_variant fuel v h = Ok (v, h).
Proof.
  intros Hs Hf. destruct fuel; [lia|]. destruct v; try done.
  simpl. by rewrite firstn_all.
Qed.

Lemma copy_construct_spec fuel σ y v t A :
  vars_ σ !! y = Some v → repr (heap_ σ) v t A → depth t < fuel →
  ∃ σ1 v1 A1,
    basic_json.copy_construct fuel (lv_var y) σ = (Ok (lv_var (length (vars_ σ))), σ1)
    ∧ load σ1 (lv_var (length (vars_ σ))) = Some v1
    ∧ load σ1 (lv_var y) = Some v
    ∧ deep_copy fuel σ1 v v1 t A A1.
Proof.
  intros Hy Hv Hd.
  destruct (proj1 (init_variant_spec (heap_ σ)) v t A Hv fuel (heap_ σ) Hd)
    as (v1 & cells & A1 & Hinit & Hv1 & Hfresh & Hnd); [done|].
  exists {| vars_ := vars_ σ ++ [v1]; heap_ := heap_ σ ++ cells |}, v1, A1.
  split; [|split; [|split]].
  - unfold basic_json.copy_construct, bind, load_, on_heap, new_var. simpl.
    rewrite Hy. simpl. rewrite Hinit. done.
  - simpl. rewrite lookup_app_r by lia. by rewrite Nat.sub_diag.
  - simpl. rewrite lookup_app_l; [done|]. by eapply lookup_lt_Some.
  - apply deep_copy_intro; simpl; [done|by apply repr_app|done| |done].
    intros a Ha Ha'. apply Hfresh in Ha. pose proof (repr_lt _ _ _ _ _ Hv Ha'). lia.
Qed.

Lemma copy_assign_spec fuel σ x y w v tw t W A :
  vars_ σ !! x = Some w → vars_ σ !! y = Some v → x ≠ y →
  repr (heap_ σ) w tw W → repr (heap_ σ) v t A →
  NoDup W → (∀ a, a ∈ W → a ∉ A) →
  depth tw < fuel → depth t < fuel →
  ∃ σ2 v2 A2,
    basic_json.copy_assign fuel (lv_var x) (lv_var y) σ = (Ok (), σ2)
    ∧ load σ2 (lv_var x) = Some v2
    ∧ load σ2 (lv_var y) = Some v
    ∧ deep_copy fuel σ2 v v2 t A A2.
Proof.
  intros Hx Hy Hxy Hw Hv HndW Hdisj Hdw Hd.
  pose proof (lookup_lt_Some _ _ _ Hx) as Hxlt.
  unfold basic_json.copy_assign. rewrite decide_True by congruence.
  unfold bind at 1, load_ at 1. simpl. rewrite Hx. cbn [of_option].
  unfold bind at 1, load_ at 1. simpl. rewrite Hy. cbn [of_option].
  destruct (proj1 (destroy_variant_spec (heap_ σ)) w tw W Hw fuel (heap_ σ) HndW Hdw)
    as (H1 & Hdes & Hrel); [done|].
  assert (Hag : ∀ a, a ∈ A → deref H1 a = deref (heap_ σ) a).
  { intros a Ha. apply (released_deref _ _ W); [done|]. intros HaW. by eapply Hdisj. }
  destruct (proj1 (init_variant_spec (heap_ σ)) v t A Hv fuel H1 Hd Hag)
    as (v2 & cells & A2 & Hinit & Hv2 & Hfresh & Hnd).
  assert (Hlen : length H1 = length (heap_ σ)) by (by destruct Hrel).
  assert (Hv' : repr (H1 ++ cells) v t A).
  { eapply (proj1 (repr_frame (heap_ σ))); [done|]. intros a Ha.
    rewrite deref_app_l; [by apply Hag|]. pose proof (repr_lt _ _ _ _ _ Hv Ha). lia. }
  assert (Hdisj2 : ∀ a, a ∈ A2 → a ∉ A).
  { intros a Ha Ha'. apply Hfresh in Ha. pose proof (repr_lt _ _ _ _ _ Hv Ha'). lia. }
  destruct (is_simple (type_ w)) eqn:Hsw.
  - (* nothing to destroy *)
    pose proof (repr_simple _ _ _ _ Hw Hsw) as ->.
    assert (H1 = heap_ σ) as ->.
    { destruct Hrel as (Hl & Ho & _). apply list_eq. intros a. apply Ho.
      by intros ?%elem_of_nil. }
    destruct (is_simple (type_ v)) eqn:Hsv.
    + pose proof (repr_simple _ _ _ _ Hv Hsv) as ->.
      exists {| vars_ := <[x:=v]> (vars_ σ); heap_ := heap_ σ |}, v, [].
      split; [done|]. split; [|split].
      * simpl. by apply list_lookup_insert_eq.
      * simpl. by rewrite list_lookup_insert_ne.
      * apply deep_copy_intro; simpl; done.
    + exists {| vars_ := <[x:=v2]> (vars_ σ); heap_ := heap_ σ ++ cells |}, v2, A2.
      split; [|split; [|split]].
      * unfold basic_json.init_variant, bind, load_, on_heap, store_. simpl.
        rewrite Hy. simpl. rewrite Hinit. done.
      * simpl. by apply list_lookup_insert_eq.
      * simpl. by rewrite list_lookup_insert_ne.
      * apply deep_copy_intro; simpl; done.
  - exists {| vars_ := <[x:=v2]> (vars_ σ); heap_ := H1 ++ cells |}, v2, A2.
    split; [|split; [|split]].
    + unfold basic_json.destroy_variant, basic_json.init_variant.
      unfold bind, load_, on_heap, store_. simpl.
      rewrite Hx. simpl. rewrite Hdes. simpl. rewrite Hy. simpl. rewrite Hinit. done.
    + simpl. by apply list_lookup_insert_eq.
    + simpl. by rewrite list_lookup_insert_ne.
    + apply deep_copy_intro; simpl; done.
Qed.
End deep_copy_facts.

Section lvalue_copy_facts.
Implicit Types (h H : list (option cell)) (v w : variant.t) (t : tree) (A B W : list nat)
  (σ : state) (lv : lvalue).

(** [operator==] on two values that stand for the same tree: true when
    the tree holds no NaN and no Any payload, false when it does. *)
Lemma equal_repr h :
  (∀ a t A, repr h a t A →
     ∀ fuel b B, repr h b t B → depth t < fuel →
     variant_ops.equal fuel h a b = Ok (comparable t))
  ∧ (∀ es ts A, repr_elements h es ts A →
     ∀ fuel es2 B, repr_elements h es2 ts B →
     Forall (λ t, depth t < fuel) ts →
     variant_ops.equal_elements (variant_ops.equal fuel h) es es2
     = Ok (forallb comparable ts))
  ∧ (∀ ms tms A, repr_members h ms tms A →
     ∀ fuel ms2 B, repr_members h ms2 tms B →
     Forall (λ m, depth m.2 < fuel) tms →
     variant_ops.equal_members (variant_ops.equal fuel h) ms ms2
     = Ok (forallb (λ m, comparable m.2) tms)).
Proof.
  apply repr_mutind.
  - intros fuel b B Hb Hd. destruct fuel; [lia|]. by inversion Hb.
  - intros s fuel b B Hb Hd. destruct fuel; [lia|]. inversion Hb; subst. simpl.
    by rewrite Nat.eqb_refl, compare_is_0_refl.
  - intros d fuel b B Hb Hd. destruct fuel; [lia|]. inversion Hb; subst. simpl.
    assert (d = S754_nan ∨ d ≠ S754_nan) as [->|Hn]
      by (destruct d; [right|right|left|right]; done).
    { done. }
    rewrite SFeqb_refl by done. by destruct d.
  - intros i fuel b B Hb Hd. destruct fuel; [lia|]. inversion Hb; subst. simpl.
    by rewrite Z.eqb_refl.
  - intros u fuel b B Hb Hd. destruct fuel; [lia|]. inversion Hb; subst. simpl.
    by rewrite Z.eqb_refl.
  - intros c fuel b B Hb Hd. destruct fuel; [lia|]. inversion Hb; subst. simpl.
    by destruct c.
  - intros fuel b B Hb Hd. destruct fuel; [lia|]. by inversion Hb.
  - intros p s Hp fuel b B Hb Hd. destruct fuel; [lia|]. inversion Hb; subst. simpl.
    rewrite Hp. match goal with H : deref h _ = Some (string_data s) |- _ => rewrite H end.
    by rewrite Nat.eqb_refl, compare_is_0_refl.
  - intros p ms tms A Hp _ IH fuel b B Hb Hd. destruct fuel; [lia|].
    inversion Hb; subst. simpl. rewrite Hp.
    match goal with H : deref h _ = Some (json_object _) |- _ => rewrite H end.
    eapply IH; [done|]. by apply depth_object_inv.
  - intros p es ts A Hp _ IH fuel b B Hb Hd. destruct fuel; [lia|].
    inversion Hb; subst. simpl. rewrite Hp.
    match goal with H : deref h _ = Some (json_array _) |- _ => rewrite H end.
    eapply IH; [done|]. by apply depth_array_inv.
  - intros p impl Hp fuel b B Hb Hd. destruct fuel; [lia|]. by inversion Hb.
  - intros fuel es2 B Hb _. by inversion Hb.
  - intros e t A es ts B He IHe Hes IHes fuel es2 B2 Hb Hd.
    inversion Hb; subst. apply Forall_cons in Hd as [Hdt Hdts]. simpl.
    erewrite IHe by done. simpl.
    destruct (comparable t); simpl; [|done]. by eapply IHes.
  - intros fuel ms2 B Hb _. by inversion Hb.
  - intros name e t A ms tms B He IHe Hms IHms fuel ms2 B2 Hb Hd.
    inversion Hb; subst. apply Forall_cons in Hd as [Hdt Hdts]. simpl in Hdt. simpl.
    rewrite bool_decide_eq_true_2 by done.
    erewrite IHe by done. simpl.
    destruct (comparable t); simpl; [|done]. by eapply IHms.
Qed.

(** A load looks at the variables and at the block of the lvalue. *)
Lemma load_agree σ vs H lv v :
  load σ lv = Some v →
  (∀ p, slot_block lv = Some p → deref H p = deref (heap_ σ) p) →
  load {| vars_ := vars_ σ ++ vs; heap_ := H |} lv = Some v.
Proof.
  intros Hl Hag. destruct lv as [x|p i|p i]; simpl in *.
  - rewrite lookup_app_l; [done|]. by eapply lookup_lt_Some.
  - by rewrite Hag.
  - by rewrite Hag.
Qed.

Lemma load_slot_live σ lv v p :
  load σ lv = Some v → slot_block lv = Some p → p < length (heap_ σ).
Proof.
  destruct lv as [x|q i|q i]; simpl; [done| |]; intros Hl [= <-].
  - destruct (deref (heap_ σ) q) eqn:Hq; [by eapply deref_Some_lt|done].
  - destruct (deref (heap_ σ) q) eqn:Hq; [by eapply deref_Some_lt|done].
Qed.

(** A store into an lvalue outside a footprint keeps what the
    footprint stands for. *)
Lemma repr_store σ lv x v t A :
  repr (heap_ σ) v t A → (∀ p, slot_block lv = Some p → p ∉ A) →
  repr (heap_ (store σ lv x)) v t A.
Proof.
  intros Hv Hout. eapply (proj1 (repr_frame (heap_ σ))); [done|].
  intros a Ha. apply store_heap_outside.
  destruct lv as [y|p i|p i]; [done| |]; intros ->; by eapply Hout.
Qed.

Lemma copy_construct_lvalue fuel σ (val : lvalue) v t A :
  load σ val = Some v → repr (heap_ σ) v t A → depth t < fuel →
  ∃ σ1 v1 A1,
    basic_json.copy_construct fuel val σ = (Ok (lv_var (length (vars_ σ))), σ1)
    ∧ load σ1 (lv_var (length (vars_ σ))) = Some v1
    ∧ load σ1 val = Some v
    ∧ deep_copy fuel σ1 v v1 t A A1
    ∧ variant_ops.equal fuel (heap_ σ1) v1 v = Ok (comparable t).
Proof.
  intros Hy Hv Hd.
  destruct (proj1 (init_variant_spec (heap_ σ)) v t A Hv fuel (heap_ σ) Hd)
    as (v1 & cells & A1 & Hinit & Hv1 & Hfresh & Hnd); [done|].
  exists {| vars_ := vars_ σ ++ [v1]; heap_ := heap_ σ ++ cells |}, v1, A1.
  split; [|split; [|split; [|split]]].
  - unfold basic_json.copy_construct, bind, load_, on_heap, new_var.
    rewrite Hy. cbn [of_option]. rewrite Hinit. done.
  - simpl. rewrite lookup_app_r by lia. by rewrite Nat.sub_diag.
  - apply load_agree; [done|]. intros p Hp. apply deref_app_l.
    by eapply load_slot_live.
  - apply deep_copy_intro; simpl; [done|by apply repr_app|done| |done].
    intros a Ha Ha'. apply Hfresh in Ha. pose proof (repr_lt _ _ _ _ _ Hv Ha'). lia.
  - simpl. eapply (proj1 (equal_repr _)); [done| |done]. by apply repr_app.
Qed.

Lemma copy_assign_lvalue fuel σ (this val : lvalue) w v tw t W A :
  load σ this = Some w → load σ val = Some v → this ≠ val →
  repr (heap_ σ) w tw W → repr (heap_ σ) v t A →
  NoDup W → (∀ a, a ∈ W → a ∉ A) →
  (∀ p, slot_block this = Some p → p ∉ W) →
  (∀ p, slot_block this = Some p → p ∉ A) →
  (∀ q, slot_block val = Some q → q ∉ W) →
  depth tw < fuel → depth t < fuel →
  ∃ σ2 v2 A2,
    basic_json.copy_assign fuel this val σ = (Ok (), σ2)
    ∧ load σ2 this = Some v2
    ∧ load σ2 val = Some v
    ∧ deep_copy fuel σ2 v v2 t A A2
    ∧ variant_ops.equal fuel (heap_ σ2) v2 v = Ok (comparable t).
Proof.
  intros Hx Hy Hxy Hw Hv HndW Hdisj HthisW HthisA Hval Hdw Hd.
  unfold basic_json.copy_assign. rewrite decide_True by done.
  unfold bind at 1, load_ at 1. rewrite Hx. cbn [of_option].
  unfold bind at 1, load_ at 1. rewrite Hy. cbn [of_option].
  destruct (proj1 (destroy_variant_spec (heap_ σ)) w tw W Hw fuel (heap_ σ) HndW Hdw)
    as (H1 & Hdes & Hrel); [done|].
  assert (Hag : ∀ a, a ∈ A → deref H1 a = deref (heap_ σ) a).
  { intros a Ha. apply (released_deref _ _ W); [done|]. intros HaW. by eapply Hdisj. }
  destruct (proj1 (init_variant_spec (heap_ σ)) v t A Hv fuel H1 Hd Hag)
    as (v2 & cells & A2 & Hinit & Hv2 & Hfresh & Hnd).
  assert (Hlen : length H1 = length (heap_ σ)) by (by destruct Hrel).
  assert (Hv' : repr (H1 ++ cells) v t A).
  { eapply (proj1 (repr_frame (heap_ σ))); [done|]. intros a Ha.
    rewrite deref_app_l; [by apply Hag|]. pose proof (repr_lt _ _ _ _ _ Hv Ha). lia. }
  assert (Hdisj2 : ∀ a, a ∈ A2 → a ∉ A).
  { intros a Ha Ha'. apply Hfresh in Ha. pose proof (repr_lt _ _ _ _ _ Hv Ha'). lia. }
  (* the state after the destruction and the copy, before the store *)
  set (σc := {| vars_ := vars_ σ; heap_ := H1 ++ cells |}).
  assert (Hslot : ∀ lv u p, load σ lv = Some u → slot_block lv = Some p → p ∉ W →
                  deref (H1 ++ cells) p = deref (heap_ σ) p).
  { intros lv u p Hl Hp HpW. rewrite deref_app_l.
    - by apply (released_deref _ _ W).
    - rewrite Hlen. by eapply load_slot_live. }
  assert (Hthis_c : load σc this = Some w).
  { unfold σc. rewrite <-(app_nil_r (vars_ σ)). apply load_agree; [done|].
    intros p Hp. apply (Hslot this w p Hx Hp). by apply HthisW. }
  assert (Hval_c : load σc val = Some v).
  { unfold σc. rewrite <-(app_nil_r (vars_ σ)). apply load_agree; [done|].
    intros q Hq. apply (Hslot val v q Hy Hq). by apply Hval. }
  assert (Hfinal : load (store σc this v2) this = Some v2
                   ∧ load (store σc this v2) val = Some v
                   ∧ deep_copy fuel (store σc this v2) v v2 t A A2
                   ∧ variant_ops.equal fuel (heap_ (store σc this v2)) v2 v
                     = Ok (comparable t)).
  { assert (Hr2 : repr (heap_ (store σc this v2)) v2 t A2).
    { apply repr_store; [done|]. intros p Hp Hin. apply Hfresh in Hin.
      pose proof (load_slot_live _ _ _ _ Hx Hp). lia. }
    assert (Hr : repr (heap_ (store σc this v2)) v t A).
    { apply repr_store; [done|]. intros p Hp. by apply HthisA. }
    split; [apply load_store_same; by rewrite Hthis_c|].
    split; [by rewrite load_store_other|].
    split; [by apply deep_copy_intro|].
    by eapply (proj1 (equal_repr _)). }
  destruct (is_simple (type_ w)) eqn:Hsw.
  - (* nothing to destroy *)
    pose proof (repr_simple _ _ _ _ Hw Hsw) as ->.
    assert (H1 = heap_ σ) as ->.
    { destruct Hrel as (Hl & Ho & _). apply list_eq. intros a. apply Ho.
      by intros ?%elem_of_nil. }
    destruct (is_simple (type_ v)) eqn:Hsv.
    + pose proof (repr_simple _ _ _ _ Hv Hsv) as ->.
      assert (Hf : 0 < fuel) by lia.
      rewrite (init_variant_simple fuel v (heap_ σ) Hsv Hf) in Hinit.
      injection Hinit as <- Hc. 
      assert (cells = []) as -> by (by apply (app_inv_head (heap_ σ)); rewrite app_nil_r).
      subst σc. rewrite app_nil_r in Hfinal. destruct σ as [vs hs]. simpl in *.
      exists (store {| vars_ := vs; heap_ := hs |} this v), v, A2.
      split; [done|]. exact Hfinal.
    + exists (store σc this v2), v2, A2. split; [|exact Hfinal].
      unfold basic_json.init_variant, bind, load_, on_heap, store_.
      rewrite Hy. cbn [of_option]. rewrite Hinit. done.
  - exists (store σc this v2), v2, A2. split; [|exact Hfinal].
    unfold basic_json.destroy_variant, basic_json.init_variant.
    unfold bind, load_, on_heap, store_.
    rewrite Hx. cbn [of_option]. rewrite Hdes. cbn [obind].
    assert (Hval_d : load {| vars_ := vars_ σ; heap_ := H1 |} val = Some v).
    { rewrite <-(app_nil_r (vars_ σ)). apply load_agree; [done|].
      intros q Hq. apply (released_deref _ _ W); [done|]. by apply Hval. }
    rewrite Hval_d. cbn [of_option heap_ vars_]. rewrite Hinit. done.
Qed.
End lvalue_copy_facts.




(** Assigning to a value one of its own elements: [operator=] destroys
    the payload first and then copies from the reference into it. *)
Lemma copy_assign_from_own_element :
  basic_json.copy_assign 3 (lv_var 0) (lv_element 0 0) alias_state
  = (Undefined, {| vars_ := [array_val_ 0]; heap_ := [None; None] |}).
Proof. reflexivity. Qed.

(** *** The example states *)

Lemma nested_values_repr :
  repr (heap_ nested_values) (array_val_ 3) nested_tree (3 :: [] ++ [1] ++ (2 :: [] ++ []) ++ []).
Proof.
  eapply repr_array; [reflexivity|].
  eapply repr_elements_cons; [apply repr_integer|].
  eapply repr_elements_cons; [by apply repr_string|].
  eapply repr_elements_cons; [|apply repr_elements_nil].
  eapply repr_object; [reflexivity|].
  eapply repr_members_cons; [apply repr_null|apply repr_members_nil].
Qed.

Lemma nested_values_NoDup : NoDup (3 :: [] ++ [1] ++ (2 :: [] ++ []) ++ []).
Proof.
  simpl. repeat (apply NoDup_cons; split; [rewrite ?elem_of_cons, elem_of_nil; lia|]).
  apply NoDup_nil_2.
Qed.

Lemma alias_state_repr :
  repr (heap_ alias_state) (array_val_ 0)
    (t_array [t_string [97; 32; 108; 111; 110; 103; 32; 115; 116; 114]%Z]) (0 :: [1] ++ []).
Proof.
  eapply repr_array; [reflexivity|].
  eapply repr_elements_cons; [by apply repr_string|apply repr_elements_nil].
Qed.

Lemma alias_state_NoDup : NoDup (0 :: [1] ++ []).
Proof.
  simpl. repeat (apply NoDup_cons; split; [rewrite ?elem_of_cons, elem_of_nil; lia|]).
  apply NoDup_nil_2.
Qed.

(** *** [operator==] *)

Section equality_facts.
Implicit Types (h : list (option cell)) (a b : variant.t).

Lemma SFeqb_sym (x y : spec_float) : SFeqb x y = SFeqb y x.
Proof.
  unfold SFeqb.
  destruct x as [sx|sx| |sx mx ex], y as [sy|sy| |sy my ey]; simpl; try done;
    try (by destruct sx, sy); try (by destruct sx); try (by destruct sy).
  rewrite (Z.compare_antisym ex ey).
  change (Pos.compare_cont Eq my mx) with (my ?= mx)%positive.
  change (Pos.compare_cont Eq mx my) with (mx ?= my)%positive.
  rewrite (Pos.compare_antisym mx my).
  destruct sx, sy; try done; destruct (ex ?= ey)%Z; simpl; try done;
    by destruct (mx ?= my)%positive.
Qed.

Lemma number_equal_sym a b :
  variant_ops.number_equal a b = variant_ops.number_equal b a.
Proof.
  destruct a, b; simpl; try done; f_equal;
    first [apply Z.eqb_sym | apply SFeqb_sym].
Qed.

Lemma string_equal_sym (s1 s2 : list Z) :
  (if length s1 =? length s2 then compare_is_0 s1 s2 (length s1) else false)
  = (if length s2 =? length s1 then compare_is_0 s2 s1 (length s2) else false).
Proof.
  rewrite (Nat.eqb_sym (length s2)).
  destruct (Nat.eqb_spec (length s1) (length s2)) as [->|]; [|done].
  unfold compare_is_0. apply bool_decide_ext. split; intros; by symmetry.
Qed.

Lemma equal_elements_sym (eq : variant.t → variant.t → outcome bool) l1 l2 :
  (∀ x y, eq x y = eq y x) →
  variant_ops.equal_elements eq l1 l2 = variant_ops.equal_elements eq l2 l1.
Proof.
  intros Heq. revert l2. induction l1 as [|x l1 IH]; intros [|y l2]; simpl; try done.
  rewrite (Heq y x). destruct (eq x y) as [[]| | |]; simpl; [apply IH|done..].
Qed.

Lemma equal_members_sym (eq : variant.t → variant.t → outcome bool)
    (l1 l2 : list (list Z * variant.t)) :
  (∀ x y, eq x y = eq y x) →
  variant_ops.equal_members eq l1 l2 = variant_ops.equal_members eq l2 l1.
Proof.
  intros Heq. revert l2. induction l1 as [|[n1 x] l1 IH]; intros [|[n2 y] l2]; simpl; try done.
  rewrite (Heq y x).
  destruct (decide (n1 = n2)) as [->|Hne].
  - rewrite bool_decide_eq_true_2 by done.
    destruct (eq x y) as [[]| | |]; simpl; [apply IH|done..].
  - rewrite !bool_decide_eq_false_2 by done. done.
Qed.

(** [operator==] is symmetric: [a == b] and [b == a] give the same
    result, or fail alike, for all values in every heap. *)
Theorem equal_is_symmetric fuel h a b :
  variant_ops.equal fuel h a b = variant_ops.equal fuel h b a.
Proof.
  revert a b. induction fuel as [|fuel IH]; intros a b; [done|].
  cbn [variant_ops.equal]. rewrite (number_equal_sym b a).
  destruct (variant_ops.number_equal a b) as [r|] eqn:Hn; [done|].
  destruct a, b; try done; cbn [type_ value_types.eqb value_types.ord Nat.eqb negb].
  - apply f_equal, string_equal_sym.
  - f_equal. by destruct b, b0.
  - destruct (deref h p) as [[s1| | |]|], (deref h p0) as [[s2| | |]|]; try done.
    apply f_equal, string_equal_sym.
  - destruct (deref h p) as [[|?|l1|]|], (deref h p0) as [[|?|l2|]|]; try done.
    by apply equal_members_sym.
  - destruct (deref h p) as [[|l1| |]|], (deref h p0) as [[|l2| |]|]; try done.
    by apply equal_elements_sym.
Qed.
End equality_facts.

(** *** Strings and integers *)

Section string_facts.
Implicit Types (h : list (option cell)) (s : list Z).

(** When the construction from a string is defined: for one-byte
    characters always; otherwise when the string is held inline or its
    block holds it. *)
Lemma of_string_defined (sizeof_char_type : nat) s h :
  sizeof_char_type = 1 ∨ length s ≤ 8 / sizeof_char_type - 1
  ∨ (length s + 1) * sizeof_char_type ≤ length s + 8 →
  variant_ops.of_string sizeof_char_type s h
  = if 8 / sizeof_char_type - 1 <? length s
    then Ok (string_val_ (length h), h ++ [Some (string_data s)])
    else Ok (small_string_val_ s, h).
Proof.
  intros Hdef. rewrite of_string_spec. unfold variant_ops.small_string_capacity.
  destruct (Nat.ltb_spec (8 / sizeof_char_type - 1) (length s)) as [Hlt|Hge]; [|done].
  destruct (Nat.leb_spec (16 + (length s + 1) * sizeof_char_type) (24 + length s))
    as [Hfit|Hover]; [done|].
  destruct Hdef as [->|[Hin|Hfit]]; lia.
Qed.

(** A string comes back from [as_string()] as it went in, whenever its
    construction is defined: for one-byte characters always, for wider
    ones when the string is held inline or the block asked for holds
    it.  It is held inline exactly when it has at most
    [8 / sizeof(char_type) - 1] units, and in one new block otherwise.
    The construction of any other string writes past its block. *)
Theorem string_round_trip (sizeof_char_type : nat)
    (to_string : list (option cell) → variant.t → list Z) s h :
  0 < sizeof_char_type ≤ 8 →
  (sizeof_char_type = 1 ∨ length s ≤ 8 / sizeof_char_type - 1
   ∨ (length s + 1) * sizeof_char_type ≤ length s + 8 →
   ∃ var h1,
     variant_ops.of_string sizeof_char_type s h = Ok (var, h1)
     ∧ basic_json.as_string to_string h1 var = Ok s
     ∧ basic_json.is_string var = true
     ∧ (type_ var = value_types.small_string_t ∧ h1 = h
          ∧ length s ≤ 8 / sizeof_char_type - 1
        ∨ type_ var = value_types.string_t ∧ h1 = h ++ [Some (string_data s)]
          ∧ 8 / sizeof_char_type - 1 < length s))
  ∧ (8 / sizeof_char_type - 1 < length s →
     length s + 8 < (length s + 1) * sizeof_char_type →
     variant_ops.of_string sizeof_char_type s h = Undefined).
Proof.
  intros Hsz. split.
  - intros Hdef. rewrite of_string_defined by done.
    destruct (Nat.ltb_spec (8 / sizeof_char_type - 1) (length s)) as [Hlt|Hge].
    + eexists _, _. split; [done|].
      cbn [basic_json.as_string]. rewrite deref_alloc, firstn_all.
      split; [done|]. split; [done|]. right. done.
    + eexists _, _. split; [done|].
      cbn [basic_json.as_string]. rewrite firstn_all.
      split; [done|]. split; [done|]. left. done.
  - intros Hlt Hover. rewrite of_string_spec. unfold variant_ops.small_string_capacity.
    destruct (Nat.ltb_spec (8 / sizeof_char_type - 1) (length s)); [|lia].
    by destruct (Nat.leb_spec (16 + (length s + 1) * sizeof_char_type) (24 + length s));
      [lia|].
Qed.

Lemma string_round_trip_witness :
  (2 = 1 ∨ length [97; 98; 99; 100; 101]%Z ≤ 8 / 2 - 1
   ∨ (length [97; 98; 99; 100; 101]%Z + 1) * 2 ≤ length [97; 98; 99; 100; 101]%Z + 8 →
   ∃ var h1,
     variant_ops.of_string 2 [97; 98; 99; 100; 101]%Z [] = Ok (var, h1)
     ∧ basic_json.as_string (λ _ _, []) h1 var = Ok [97; 98; 99; 100; 101]%Z
     ∧ basic_json.is_string var = true
     ∧ (type_ var = value_types.small_string_t ∧ h1 = []
          ∧ length [97; 98; 99; 100; 101]%Z ≤ 8 / 2 - 1
        ∨ type_ var = value_types.string_t
          ∧ h1 = [] ++ [Some (string_data [97; 98; 99; 100; 101]%Z)]
          ∧ 8 / 2 - 1 < length [97; 98; 99; 100; 101]%Z))
  ∧ (8 / 2 - 1 < length [97; 98; 99; 100; 101]%Z →
     length [97; 98; 99; 100; 101]%Z + 8 < (length [97; 98; 99; 100; 101]%Z + 1) * 2 →
     variant_ops.of_string 2 [97; 98; 99; 100; 101]%Z [] = Undefined).
Proof.
  apply (string_round_trip 2 (λ _ _, []) [97; 98; 99; 100; 101]%Z []). lia.
Defined.

(** Two values made from strings whose construction is defined compare
    equal exactly when the strings are the same, whether they are held
    inline or on the heap. *)
Theorem string_equality_is_content_equality (sizeof_char_type fuel : nat) s1 s2 h :
  0 < sizeof_char_type ≤ 8 →
  sizeof_char_type = 1 ∨ length s1 ≤ 8 / sizeof_char_type - 1
  ∨ (length s1 + 1) * sizeof_char_type ≤ length s1 + 8 →
  sizeof_char_type = 1 ∨ length s2 ≤ 8 / sizeof_char_type - 1
  ∨ (length s2 + 1) * sizeof_char_type ≤ length s2 + 8 →
  ∃ v1 h1 v2 h2,
    variant_ops.of_string sizeof_char_type s1 h = Ok (v1, h1)
    ∧ variant_ops.of_string sizeof_char_type s2 h1 = Ok (v2, h2)
    ∧ variant_ops.equal (S fuel) h2 v1 v2 = Ok (bool_decide (s1 = s2)).
Proof.
  intros Hsz Hd1 Hd2.
  assert (Hcmp : ∀ a b : list Z,
    (if length a =? length b then compare_is_0 a b (length a) else false)
    = bool_decide (a = b)).
  { intros a b. destruct (Nat.eqb_spec (length a) (length b)) as [Hl|Hl].
    - unfold compare_is_0. rewrite !take_ge by lia. done.
    - symmetry. apply bool_decide_eq_false. intros ->. done. }
  rewrite of_string_defined by done.
  destruct (Nat.ltb_spec (8 / sizeof_char_type - 1) (length s1)) as [H1|H1];
    eexists _, _; rewrite of_string_defined by done;
    destruct (Nat.ltb_spec (8 / sizeof_char_type - 1) (length s2)) as [H2|H2];
    eexists _, _; (split; [done|]); (split; [done|]).
  - cbn [variant_ops.equal variant_ops.number_equal type_ value_types.eqb value_types.ord
         Nat.eqb negb].
    assert (Hp1 : deref ((h ++ [Some (string_data s1)]) ++ [Some (string_data s2)]) (length h)
                  = Some (string_data s1)).
    { rewrite deref_app_l by (rewrite length_app; simpl; lia). apply deref_alloc. }
    rewrite Hp1, deref_alloc. by rewrite Hcmp.
  - cbn. symmetry. f_equal. apply bool_decide_eq_false. intros ->. lia.
  - cbn. symmetry. f_equal. apply bool_decide_eq_false. intros ->. lia.
  - cbn [variant_ops.equal variant_ops.number_equal type_ value_types.eqb value_types.ord
         Nat.eqb negb]. by rewrite Hcmp.
Qed.

Lemma string_equality_is_content_equality_witness :
  ∃ v1 h1 v2 h2,
    variant_ops.of_string 1 [97; 32; 108; 111; 110; 103; 32; 115; 116; 114]%Z [] = Ok (v1, h1)
    ∧ variant_ops.of_string 1 [104; 105]%Z h1 = Ok (v2, h2)
    ∧ variant_ops.equal 1 h2 v1 v2
      = Ok (bool_decide ([97; 32; 108; 111; 110; 103; 32; 115; 116; 114]%Z = [104; 105]%Z)).
Proof.
  apply (string_equality_is_content_equality 1 0
           [97; 32; 108; 111; 110; 103; 32; 115; 116; 114]%Z [104; 105]%Z []).
  - lia.
  - left. reflexivity.
  - left. reflexivity.
Defined.
End string_facts.

Lemma mod_2_64_nonneg (x : Z) : (0 ≤ x < 2 ^ 64)%Z → (x mod 2 ^ 64 = x)%Z.
Proof. intros. apply Z.mod_small. lia. Qed.

Lemma mod_2_64_neg (x : Z) : (- 2 ^ 64 ≤ x < 0)%Z → (x mod 2 ^ 64 = x + 2 ^ 64)%Z.
Proof.
  intros. symmetry. apply (Z.mod_unique x (2 ^ 64) (-1) (x + 2 ^ 64)); [left; lia|lia].
Qed.

(** [as_uinteger()] of an integer and [as_integer()] of an unsigned
    integer are inverse to each other: converting a 64-bit payload to
    the other signedness and back gives the payload. *)
Theorem integer_conversions_round_trip (i u : Z) :
  (- 2 ^ 63 ≤ i < 2 ^ 63)%Z → (0 ≤ u < 2 ^ 64)%Z →
  (∃ u', basic_json.as_uinteger (integer_val_ i) = Ok u'
         ∧ (0 ≤ u' < 2 ^ 64)%Z
         ∧ basic_json.as_integer (uinteger_val_ u') = Ok i)
  ∧ (∃ i', basic_json.as_integer (uinteger_val_ u) = Ok i'
           ∧ (- 2 ^ 63 ≤ i' < 2 ^ 63)%Z
           ∧ basic_json.as_uinteger (integer_val_ i') = Ok u).
Proof.
  intros Hi Hu. split.
  - exists (int64_to_uint64 i). split; [done|]. unfold int64_to_uint64.
    cbn [basic_json.as_integer]. unfold uint64_to_int64.
    destruct (Z.le_gt_cases 0 i).
    + rewrite mod_2_64_nonneg by lia. split; [lia|].
      destruct (Z.ltb_spec i (2 ^ 63)); [done|lia].
    + rewrite mod_2_64_neg by lia. split; [lia|].
      destruct (Z.ltb_spec (i + 2 ^ 64) (2 ^ 63)); [lia|f_equal; lia].
  - exists (uint64_to_int64 u). split; [done|]. unfold uint64_to_int64.
    cbn [basic_json.as_uinteger]. unfold int64_to_uint64.
    destruct (Z.ltb_spec u (2 ^ 63)) as [Hlt|Hge].
    + split; [lia|]. by rewrite mod_2_64_nonneg by lia.
    + split; [lia|]. rewrite mod_2_64_neg by lia. f_equal. lia.
Qed.

Lemma integer_conversions_round_trip_witness :
  (∃ u', basic_json.as_uinteger (integer_val_ (-1)) = Ok u'
         ∧ (0 ≤ u' < 2 ^ 64)%Z
         ∧ basic_json.as_integer (uinteger_val_ u') = Ok (-1)%Z)
  ∧ (∃ i', basic_json.as_integer (uinteger_val_ 18446744073709551615) = Ok i'
           ∧ (- 2 ^ 63 ≤ i' < 2 ^ 63)%Z
           ∧ basic_json.as_uinteger (integer_val_ i') = Ok 18446744073709551615%Z).
Proof.
  apply (integer_conversions_round_trip (-1) 18446744073709551615); lia.
Defined.

(** [is_integer()] and [is_uinteger()] hold exactly when the number an
    integer-tagged or unsigned-tagged value stands for fits the signed,
    respectively the unsigned, 64-bit range, and then [as_integer()],
    respectively [as_uinteger()], returns that number. *)
Theorem is_integer_is_uinteger_lossless (var : variant.t) (z : Z) :
  var = integer_val_ z ∧ (- 2 ^ 63 ≤ z < 2 ^ 63)%Z
  ∨ var = uinteger_val_ z ∧ (0 ≤ z < 2 ^ 64)%Z →
  (basic_json.is_integer var = true ↔ (- 2 ^ 63 ≤ z < 2 ^ 63)%Z)
  ∧ (basic_json.is_integer var = true → basic_json.as_integer var = Ok z)
  ∧ (basic_json.is_uinteger var = true ↔ (0 ≤ z < 2 ^ 64)%Z)
  ∧ (basic_json.is_uinteger var = true → basic_json.as_uinteger var = Ok z).
Proof.
  intros [[-> Hz]|[-> Hz]].
  - unfold basic_json.is_integer, basic_json.is_uinteger. cbn.
    split; [done|]. split; [done|]. split.
    + rewrite Z.leb_le. lia.
    + rewrite Z.leb_le. intros H0. f_equal. apply mod_2_64_nonneg. lia.
  - unfold basic_json.is_integer, basic_json.is_uinteger. cbn.
    split; [rewrite Z.leb_le; lia|]. split.
    + rewrite Z.leb_le. intros H0. f_equal. unfold uint64_to_int64.
      destruct (Z.ltb_spec z (2 ^ 63)); lia.
    + done.
Qed.

Lemma is_integer_is_uinteger_lossless_witness :
  (basic_json.is_integer (uinteger_val_ 9223372036854775808) = true
   ↔ (- 2 ^ 63 ≤ 9223372036854775808 < 2 ^ 63)%Z)
  ∧ (basic_json.is_integer (uinteger_val_ 9223372036854775808) = true →
     basic_json.as_integer (uinteger_val_ 9223372036854775808) = Ok 9223372036854775808%Z)
  ∧ (basic_json.is_uinteger (uinteger_val_ 9223372036854775808) = true
     ↔ (0 ≤ 9223372036854775808 < 2 ^ 64)%Z)
  ∧ (basic_json.is_uinteger (uinteger_val_ 9223372036854775808) = true →
     basic_json.as_uinteger (uinteger_val_ 9223372036854775808) = Ok 9223372036854775808%Z).
Proof.
  apply (is_integer_is_uinteger_lossless (uinteger_val_ 9223372036854775808) 9223372036854775808).
  right. split; [reflexivity|lia].
Defined.

(** *** [to_stream] *)

Section to_stream_facts.
Implicit Types (h H : list (option cell)) (v w : variant.t) (t : tree) (A B : list nat)
  (stack : list frame) (evs : list handler.event).

Lemma handler_run_app stack evs1 evs2 :
  handler_run stack (evs1 ++ evs2)
  = match handler_run stack evs1 with
    | Some stack' => handler_run stack' evs2
    | None => None
    end.
Proof.
  revert stack. induction evs1 as [|ev evs1 IH]; intros stack; simpl; [done|].
  destruct (handler_step stack ev); [apply IH|done].
Qed.

Lemma to_stream_members_well_formed (f : variant.t → outcome (list handler.event))
    (members : list (list Z * variant.t)) evs stack :
  (∀ v evs, f v = Ok evs → ∀ stack, value_allowed stack = true →
     handler_run stack evs = Some (after_value stack)) →
  basic_json.to_stream_members f members = Ok evs →
  handler_run (expect_name :: stack) evs = Some (expect_name :: stack).
Proof.
  intros Hf. revert evs. induction members as [|[name value] members IH]; intros evs; simpl.
  - by intros [= <-].
  - destruct (f value) as [evs1| | |] eqn:H1; try done. simpl.
    destruct (basic_json.to_stream_members f members) as [evs2| | |] eqn:H2; try done. simpl.
    intros [= <-]. simpl. rewrite handler_run_app.
    rewrite (Hf value evs1 H1 (expect_value :: stack)) by done. simpl. by apply IH.
Qed.

Lemma to_stream_elements_well_formed (f : variant.t → outcome (list handler.event))
    (elements : list variant.t) evs stack :
  (∀ v evs, f v = Ok evs → ∀ stack, value_allowed stack = true →
     handler_run stack evs = Some (after_value stack)) →
  basic_json.to_stream_elements f elements = Ok evs →
  handler_run (in_array :: stack) evs = Some (in_array :: stack).
Proof.
  intros Hf. revert evs. induction elements as [|e elements IH]; intros evs; simpl.
  - by intros [= <-].
  - destruct (f e) as [evs1| | |] eqn:H1; try done. simpl.
    destruct (basic_json.to_stream_elements f elements) as [evs2| | |] eqn:H2; try done. simpl.
    intros [= <-]. rewrite handler_run_app.
    rewrite (Hf e evs1 H1 (in_array :: stack)) by done. simpl. by apply IH.
Qed.

Lemma to_stream_well_formed fuel h v evs :
  basic_json.to_stream fuel h v = Ok evs →
  ∀ stack, value_allowed stack = true →
  handler_run stack evs = Some (after_value stack).
Proof.
  revert v evs. induction fuel as [|fuel IH]; intros v evs; [done|].
  destruct v; cbn [basic_json.to_stream].
  all: try (intros [= <-] stack Hs; simpl; by rewrite Hs).
  - destruct (deref h p) as [[s| | |]|]; try done.
    intros [= <-] stack Hs; simpl; by rewrite Hs.
  - destruct (deref h p) as [[|?|members|]|]; try done.
    destruct (basic_json.to_stream_members (basic_json.to_stream fuel h) members)
      as [body| | |] eqn:Hb; try done. simpl.
    intros [= <-] stack Hs. simpl. rewrite Hs. rewrite handler_run_app.
    rewrite (to_stream_members_well_formed _ _ _ stack IH Hb). done.
  - destruct (deref h p) as [[|elements| |]|]; try done.
    destruct (basic_json.to_stream_elements (basic_json.to_stream fuel h) elements)
      as [body| | |] eqn:Hb; try done. simpl.
    intros [= <-] stack Hs. simpl. rewrite Hs. rewrite handler_run_app.
    rewrite (to_stream_elements_well_formed _ _ _ stack IH Hb). done.
  - destruct (deref h p) as [[| | |[impl|]]|]; try done.
    intros [= <-] stack Hs; simpl; by rewrite Hs.
Qed.

Lemma to_stream_spec h :
  (∀ v t A, repr h v t A →
     ∀ fuel, serializable t = true → depth t < fuel →
     basic_json.to_stream fuel h v = Ok (tree_events t))
  ∧ (∀ es ts A, repr_elements h es ts A →
     ∀ fuel, forallb serializable ts = true → Forall (λ t, depth t < fuel) ts →
     basic_json.to_stream_elements (basic_json.to_stream fuel h) es
     = Ok (concat (map tree_events ts)))
  ∧ (∀ ms tms A, repr_members h ms tms A →
     ∀ fuel, forallb (λ m, serializable m.2) tms = true →
     Forall (λ m, depth m.2 < fuel) tms →
     basic_json.to_stream_members (basic_json.to_stream fuel h) ms
     = Ok (concat (map (λ m, handler.name m.1 :: tree_events m.2) tms))).
Proof.
  apply repr_mutind.
  - intros fuel _ Hd. destruct fuel; [lia|]. done.
  - intros s fuel _ Hd. destruct fuel; [lia|]. simpl. by rewrite firstn_all.
  - intros d fuel _ Hd. destruct fuel; [lia|]. done.
  - intros i fuel _ Hd. destruct fuel; [lia|]. done.
  - intros u fuel _ Hd. destruct fuel; [lia|]. done.
  - intros c fuel _ Hd. destruct fuel; [lia|]. done.
  - intros fuel _ Hd. destruct fuel; [lia|]. done.
  - intros p s Hp fuel _ Hd. destruct fuel; [lia|]. simpl. by rewrite Hp, firstn_all.
  - intros p ms tms A Hp Hms IH fuel Hs Hd. destruct fuel; [lia|].
    cbn [basic_json.to_stream]. rewrite Hp.
    rewrite (IH fuel); [done|done|by apply depth_object_inv].
  - intros p es ts A Hp Hes IH fuel Hs Hd. destruct fuel; [lia|].
    cbn [basic_json.to_stream]. rewrite Hp.
    rewrite (IH fuel); [done|done|by apply depth_array_inv].
  - intros p impl Hp fuel Hs Hd. destruct fuel; [lia|].
    cbn [basic_json.to_stream]. rewrite Hp. by destruct impl.
  - done.
  - intros e t A es ts B He IHe Hes IHes fuel Hs Hd.
    simpl in Hs. apply andb_prop in Hs as [Hs1 Hs2].
    apply Forall_cons in Hd as [Hd1 Hd2]. simpl.
    rewrite (IHe fuel Hs1 Hd1). simpl. by rewrite (IHes fuel Hs2 Hd2).
  - done.
  - intros name e t A ms tms B He IHe Hms IHms fuel Hs Hd.
    simpl in Hs. apply andb_prop in Hs as [Hs1 Hs2].
    apply Forall_cons in Hd as [Hd1 Hd2]. simpl in Hd1. simpl.
    rewrite (IHe fuel Hs1 Hd1). simpl. by rewrite (IHms fuel Hs2 Hd2).
Qed.
End to_stream_facts.

(** [to_stream]: for a value that stands for a document whose Any
    payloads have their handles, the call returns, and the calls it
    makes on the handler are those of the document, whatever blocks
    hold it.  They are well formed: every [begin] has its [end] in
    order, names come only inside objects, each followed by one value,
    and the whole is one value. *)
Theorem to_stream_emits_the_document (fuel : nat) (h : list (option cell))
    (v : variant.t) (t : tree) (A : list nat) :
  repr h v t A → serializable t = true → depth t < fuel →
  basic_json.to_stream fuel h v = Ok (tree_events t)
  ∧ handler_run [] (tree_events t) = Some []
  ∧ ∀ stack, value_allowed stack = true →
      handler_run stack (tree_events t) = Some (after_value stack).
Proof.
  intros Hv Hs Hd.
  pose proof (proj1 (to_stream_spec h) v t A Hv fuel Hs Hd) as Hts.
  split; [done|]. split.
  - by apply (to_stream_well_formed fuel h v _ Hts []).
  - by apply (to_stream_well_formed fuel h v _ Hts).
Qed.

Lemma to_stream_emits_the_document_witness :
  basic_json.to_stream 3 (heap_ nested_values) (array_val_ 3) = Ok (tree_events nested_tree)
  ∧ handler_run [] (tree_events nested_tree) = Some []
  ∧ ∀ stack, value_allowed stack = true →
      handler_run stack (tree_events nested_tree) = Some (after_value stack).
Proof.
  apply (to_stream_emits_the_document 3 (heap_ nested_values) (array_val_ 3) nested_tree
           (3 :: [] ++ [1] ++ (2 :: [] ++ []) ++ [])).
  - apply nested_values_repr.
  - reflexivity.
  - simpl. lia.
Defined.

(** A copy serializes as its source does: after the copy construction
    both drive a handler with the same calls, though no block is
    shared. *)
Theorem copy_serializes_identically (fuel : nat) (σ : state) (y : nat) (v : variant.t)
    (t : tree) (A : list nat) :
  vars_ σ !! y = Some v → repr (heap_ σ) v t A →
  serializable t = true → depth t < fuel →
  ∃ σ1 v1,
    basic_json.copy_construct fuel (lv_var y) σ = (Ok (lv_var (length (vars_ σ))), σ1)
    ∧ load σ1 (lv_var (length (vars_ σ))) = Some v1
    ∧ basic_json.to_stream fuel (heap_ σ1) v1 = Ok (tree_events t)
    ∧ basic_json.to_stream fuel (heap_ σ1) v = Ok (tree_events t)
    ∧ basic_json.to_stream fuel (heap_ σ) v = Ok (tree_events t).
Proof.
  intros Hy Hv Hs Hd.
  destruct (copy_construct_spec fuel σ y v t A Hy Hv Hd) as (σ1 & v1 & A1 & Hc & Hl1 & _ & Hdc).
  destruct Hdc as (Hv1 & Hv' & _).
  exists σ1, v1. split; [done|]. split; [done|].
  split; [by apply (proj1 (to_stream_spec _) v1 t A1)|].
  split; [by apply (proj1 (to_stream_spec _) v t A)|].
  by apply (proj1 (to_stream_spec _) v t A).
Qed.

Lemma copy_serializes_identically_witness :
  ∃ σ1 v1,
    basic_json.copy_construct 3 (lv_var 1) nested_values
    = (Ok (lv_var (length (vars_ nested_values))), σ1)
    ∧ load σ1 (lv_var (length (vars_ nested_values))) = Some v1
    ∧ basic_json.to_stream 3 (heap_ σ1) v1 = Ok (tree_events nested_tree)
    ∧ basic_json.to_stream 3 (heap_ σ1) (array_val_ 3) = Ok (tree_events nested_tree)
    ∧ basic_json.to_stream 3 (heap_ nested_values) (array_val_ 3)
      = Ok (tree_events nested_tree).
Proof.
  apply (copy_serializes_identically 3 nested_values 1 (array_val_ 3) nested_tree
           (3 :: [] ++ [1] ++ (2 :: [] ++ []) ++ [])).
  - reflexivity.
  - apply nested_values_repr.
  - reflexivity.
  - simpl. lia.
Defined.

(** *** Assignment and destruction *)

Section more_facts.
Implicit Types (h H : list (option cell)) (v w : variant.t) (t : tree) (A B W : list nat)
  (σ : state).

Lemma destroy_variable_spec fuel σ x w tw W :
  vars_ σ !! x = Some w → repr (heap_ σ) w tw W → NoDup W → depth tw < fuel →
  ∃ H1, basic_json.destroy_variant fuel (lv_var x) σ
        = (Ok (), {| vars_ := vars_ σ; heap_ := H1 |})
      ∧ released (heap_ σ) H1 W.
Proof.
  intros Hx Hw Hnd Hd.
  destruct (proj1 (destroy_variant_spec (heap_ σ)) w tw W Hw fuel (heap_ σ) Hnd Hd)
    as (H1 & Hdes & Hrel); [done|].
  exists H1. split; [|done].
  unfold basic_json.destroy_variant, bind, load_, on_heap. simpl.
  rewrite Hx. simpl. rewrite Hdes. done.
Qed.








(** Copy-assigning to a variable that holds an array or an object one
    of its own elements or member values ([a = a[i]]): [operator=]
    destroys the payload of the target first, the element with it, and
    then copies from the reference into the released block. *)
Theorem copy_assigning_an_own_element_reads_a_released_block (fuel : nat) σ (x : nat)
    (p i : nat) w tw W (val : lvalue) (e : variant.t) :
  vars_ σ !! x = Some w → heap_payload w = Some p →
  val = lv_element p i ∨ val = lv_member p i →
  load σ val = Some e →
  repr (heap_ σ) w tw W → NoDup W → depth tw < fuel →
  ∃ σ', basic_json.copy_assign fuel (lv_var x) val σ = (Undefined, σ')
        ∧ released (heap_ σ) (heap_ σ') W
        ∧ deref (heap_ σ') p = None.
Proof.
  intros Hx Hp Hval He Hw Hnd Hd.
  destruct (destroy_variable_spec fuel σ x w tw W Hx Hw Hnd Hd) as (H1 & Hdes & Hrel).
  assert (HpW : p ∈ W).
  { inversion Hw; subst; simpl in Hp; try done; simplify_eq; apply elem_of_cons; by left. }
  assert (Hnone : deref H1 p = None) by (destruct Hrel as (_ & _ & Hr); by apply Hr).
  assert (Hns : is_simple (type_ w) = false) by (by destruct w).
  exists {| vars_ := vars_ σ; heap_ := H1 |}. split; [|done].
  unfold basic_json.copy_assign.
  rewrite decide_True by (destruct Hval as [->| ->]; done).
  unfold bind at 1, load_ at 1. simpl. rewrite Hx. cbn [of_option].
  unfold bind at 1, load_ at 1. rewrite He. cbn [of_option]. rewrite Hns.
  unfold bind at 1. rewrite Hdes.
  unfold basic_json.init_variant, bind, load_.
  destruct Hval as [->| ->]; simpl; by rewrite Hnone.
Qed.

Lemma copy_assigning_an_own_element_reads_a_released_block_witness :
  ∃ σ', basic_json.copy_assign 3 (lv_var 0) (lv_element 0 0) alias_state = (Undefined, σ')
        ∧ released (heap_ alias_state) (heap_ σ') (0 :: [1] ++ [])
        ∧ deref (heap_ σ') 0 = None.
Proof.
  apply (copy_assigning_an_own_element_reads_a_released_block 3 alias_state 0 0 0
           (array_val_ 0) (t_array [t_string [97; 32; 108; 111; 110; 103; 32; 115; 116; 114]%Z])
           (0 :: [1] ++ []) (lv_element 0 0) (string_val_ 1)).
  - reflexivity.
  - reflexivity.
  - left. reflexivity.
  - reflexivity.
  - apply alias_state_repr.
  - apply alias_state_NoDup.
  - simpl. lia.
Defined.

(** A default-constructed value and an object without members are both
    [is_object()] with size 0 and drive a handler alike, but
    [operator==] tells them apart.  So the read [r[name]] of a missing
    member through the non-const [operator[]], which fails, leaves a
    default-constructed [r] unequal to a default-constructed value. *)
Theorem failed_read_changes_equality (fuel : nat) σ (r : lvalue) (name : list Z) :
  load σ r = Some empty_object_ →
  ∃ σ' p,
    bind (proxy.subscript r name) proxy.evaluate σ
    = (Throw (out_of_range "%s not found"), σ')
    ∧ load σ' r = Some (object_val_ p)
    ∧ variant_ops.equal (S fuel) (heap_ σ) empty_object_ basic_json.default_ = Ok true
    ∧ variant_ops.equal (S fuel) (heap_ σ') (object_val_ p) basic_json.default_ = Ok false
    ∧ basic_json.size (heap_ σ') (object_val_ p) = basic_json.size (heap_ σ) empty_object_
    ∧ basic_json.is_object (object_val_ p) = basic_json.is_object empty_object_
    ∧ basic_json.to_stream (S (S fuel)) (heap_ σ') (object_val_ p)
      = basic_json.to_stream (S (S fuel)) (heap_ σ) empty_object_.
Proof.
  intros Hload.
  destruct (create_object_implicitly_spec σ r empty_object_ Hload)
    as (σ1 & Hcreate & Hl1 & Hp1 & Hlen1); [done|].
  exists σ1, (length (heap_ σ)).
  split; [|split; [done|split; [done|split; [done|split; [|split; [done|]]]]]].
  - unfold proxy.subscript, bind at 1, bind at 1, load_ at 1.
    rewrite Hload. cbn [of_option]. unfold bind at 1. rewrite Hcreate.
    unfold ret. cbn [proxy.evaluate].
    unfold basic_json.at_, bind, load_. rewrite Hl1. cbn [of_option].
    unfold object_at. rewrite Hp1. done.
  - cbn [basic_json.size]. by rewrite Hp1.
  - cbn [basic_json.to_stream]. by rewrite Hp1.
Qed.

Lemma failed_read_changes_equality_witness :
  ∃ σ' p,
    bind (proxy.subscript (lv_var 0) [120%Z]) proxy.evaluate one_empty_object
    = (Throw (out_of_range "%s not found"), σ')
    ∧ load σ' (lv_var 0) = Some (object_val_ p)
    ∧ variant_ops.equal 1 (heap_ one_empty_object) empty_object_ basic_json.default_ = Ok true
    ∧ variant_ops.equal 1 (heap_ σ') (object_val_ p) basic_json.default_ = Ok false
    ∧ basic_json.size (heap_ σ') (object_val_ p)
      = basic_json.size (heap_ one_empty_object) empty_object_
    ∧ basic_json.is_object (object_val_ p) = basic_json.is_object empty_object_
    ∧ basic_json.to_stream 2 (heap_ σ') (object_val_ p)
      = basic_json.to_stream 2 (heap_ one_empty_object) empty_object_.
Proof.
  apply (failed_read_changes_equality 0 one_empty_object (lv_var 0) [120%Z]).
  reflexivity.
Defined.
End more_facts.

(** *** Members *)

Section object_facts.
Implicit Types (σ : state) (members : list (list Z * variant.t)) (name : list Z)
  (value : variant.t).

Lemma find_insert_same members name value i :
  json_object_ops.find members name = Some i →
  json_object_ops.find (<[i:=(name, value)]> members) name = Some i
  ∧ (<[i:=(name, value)]> members) !! i = Some (name, value)
  ∧ ∀ name', name' ≠ name →
      json_object_ops.find (<[i:=(name, value)]> members) name'
      = json_object_ops.find members name'
      ∧ ∀ j, json_object_ops.find members name' = Some j →
          (<[i:=(name, value)]> members) !! j = members !! j.
Proof.
  revert i. induction members as [|[n e] members IH]; intros i; simpl; [done|].
  case_bool_decide as Hn.
  - intros [= <-]. subst n. simpl. rewrite bool_decide_eq_true_2 by done.
    split; [done|]. split; [done|]. intros name' Hne.
    rewrite !bool_decide_eq_false_2 by done. split; [done|].
    intros j Hj. destruct j; [|done].
    by destruct (json_object_ops.find members name').
  - destruct (json_object_ops.find members name) as [k|] eqn:Hf; [|done].
    intros [= <-]. simpl. rewrite bool_decide_eq_false_2 by done.
    destruct (IH k eq_refl) as (H1 & H2 & H3). rewrite H1.
    split; [done|]. split; [done|]. intros name' Hne.
    destruct (H3 name' Hne) as [H4 H5]. rewrite H4. split; [done|].
    intros j. case_bool_decide; [by intros [= <-]|].
    destruct (json_object_ops.find members name') as [j0|] eqn:Hf'; [|done].
    intros [= <-]. simpl. by apply H5.
Qed.

Lemma find_insert_other members name value name' i :
  name' ≠ name → i ≤ length members →
  json_object_ops.find (take i members ++ (name, value) :: drop i members) name'
  = (λ j, if j <? i then j else S j) <$> json_object_ops.find members name'.
Proof.
  intros Hne. revert i. induction members as [|[n e] members IH]; intros i Hi.
  - simpl in Hi. assert (i = 0) as -> by lia. simpl.
    by rewrite bool_decide_eq_false_2 by done.
  - destruct i as [|i].
    + simpl. rewrite (bool_decide_eq_false_2 (name = name')) by done.
      case_bool_decide; [done|].
      by destruct (json_object_ops.find members name').
    + simpl in Hi. simpl. case_bool_decide; [done|].
      rewrite IH by lia.
      destruct (json_object_ops.find members name') as [j|]; [|done]. simpl.
      f_equal. change (S j <? S i) with (j <? i). by destruct (j <? i).
Qed.

Lemma lookup_insert_at members (m : list Z * variant.t) i j :
  i ≤ length members →
  (take i members ++ m :: drop i members) !! (if j <? i then j else S j) = members !! j.
Proof.
  intros Hi. destruct (Nat.ltb_spec j i) as [Hlt|Hge].
  - rewrite lookup_app_l by (rewrite length_take; lia). by apply lookup_take_lt.
  - rewrite lookup_app_r by (rewrite length_take; lia).
    rewrite length_take. replace (S j - i `min` length members) with (S (j - i)) by lia.
    simpl. rewrite lookup_drop. f_equal. lia.
Qed.

(** What [json_object::set] does to a lookup: the name set is found,
    with the value set; every other name is found as before, with the
    value it had. *)
Lemma set_spec (position : list Z → list (list Z * variant.t) → nat) members name value :
  let r := json_object_ops.set position members name value in
  json_object_ops.find r.1 name = Some r.2
  ∧ r.1 !! r.2 = Some (name, value)
  ∧ length r.1
    = match json_object_ops.find members name with
      | Some _ => length members
      | None => S (length members)
      end
  ∧ ∀ name' j, name' ≠ name → json_object_ops.find members name' = Some j →
      ∃ j', json_object_ops.find r.1 name' = Some j' ∧ r.1 !! j' = members !! j.
Proof.
  intros r. subst r. unfold json_object_ops.set.
  destruct (json_object_ops.find members name) as [i|] eqn:Hf; cbn [fst snd].
  - destruct (find_insert_same members name value i Hf) as (H1 & H2 & H3).
    split; [done|]. split; [done|]. split; [by rewrite length_insert|].
    intros name' j Hne Hj. destruct (H3 name' Hne) as [H4 H5].
    exists j. rewrite H4. split; [done|]. by apply H5.
  - set (i := Nat.min (position name members) (length members)).
    assert (Hi : i ≤ length members) by lia.
    destruct (set_absent position members name value Hf) as (i' & Hset & _ & Hl & Hfi).
    unfold json_object_ops.set in Hset. rewrite Hf in Hset. fold i in Hset.
    assert (i' = i) as -> by congruence.
    split; [done|]. split; [done|]. split.
    { rewrite length_app, length_take. simpl. rewrite length_drop. lia. }
    intros name' j Hne Hj. exists (if j <? i then j else S j).
    rewrite find_insert_other by done. rewrite Hj. split; [done|].
    by apply lookup_insert_at.
Qed.
End object_facts.

(** [r[name] = value] and then the read [r[name]], for a variable [r]
    that holds an object: the write returns, the read returns a
    reference to a member called [name] that holds [value], the read
    changes nothing, and every other name of [r] still leads to the
    value it led to. *)
Theorem proxy_write_then_read (position : list Z → list (list Z * variant.t) → nat)
    (σ : state) (x p : nat) (members : list (list Z * variant.t))
    (name : list Z) (value : variant.t) :
  vars_ σ !! x = Some (object_val_ p) →
  deref (heap_ σ) p = Some (json_object members) →
  ∃ σ' i members',
    bind (proxy.subscript (lv_var x) name) (λ P, proxy.assign position P value) σ
    = (Ok (), σ')
    ∧ deref (heap_ σ') p = Some (json_object members')
    ∧ bind (proxy.subscript (lv_var x) name) proxy.evaluate σ' = (Ok (lv_member p i), σ')
    ∧ load σ' (lv_member p i) = Some value
    ∧ members' !! i = Some (name, value)
    ∧ length members'
      = match json_object_ops.find members name with
      | Some _ => length members
      | None => S (length members)
      end
    ∧ ∀ name' j, name' ≠ name → json_object_ops.find members name' = Some j →
        ∃ j', bind (proxy.subscript (lv_var x) name') proxy.evaluate σ'
              = (Ok (lv_member p j'), σ')
            ∧ load σ' (lv_member p j') = load σ (lv_member p j).
Proof.
  intros Hx Hp.
  pose proof (deref_Some_lt _ _ _ Hp) as Hplt.
  destruct (set_spec position members name value) as (Hfind & Hlook & Hlen & Hother).
  destruct (json_object_ops.set position members name value) as [members' i] eqn:Hset.
  cbn [fst snd] in *.
  set (σ' := {| vars_ := vars_ σ; heap_ := <[p:=Some (json_object members')]> (heap_ σ) |}).
  assert (Hp' : deref (heap_ σ') p = Some (json_object members'))
    by (by apply deref_insert_eq).
  assert (Hread : ∀ n k, json_object_ops.find members' n = Some k →
            bind (proxy.subscript (lv_var x) n) proxy.evaluate σ' = (Ok (lv_member p k), σ')).
  { intros n k Hk. unfold proxy.subscript, bind at 1, bind at 1, load_ at 1. simpl.
    rewrite Hx. cbn [of_option]. unfold ret. cbn [proxy.evaluate].
    unfold basic_json.at_, bind, load_. simpl. rewrite Hx. cbn [of_option].
    unfold object_at. rewrite Hp'. by rewrite Hk. }
  exists σ', i, members'.
  split.
  { unfold proxy.subscript, bind at 1, bind at 1, load_ at 1. simpl.
    rewrite Hx. cbn [of_option]. unfold ret.
    unfold proxy.assign. cbn [proxy.parent_evaluate_with_default proxy.name_].
    unfold bind at 1, ret. unfold basic_json.set, basic_json.set_hint.
    unfold bind, load_, ret, object_at, get_heap, put_heap. simpl.
    rewrite Hx. cbn [of_option]. rewrite Hp. rewrite Hset. done. }
  split; [done|]. split; [by apply Hread|].
  split; [simpl; rewrite deref_insert_eq by done; by rewrite Hlook|].
  split; [done|]. split; [done|].
  intros name' j Hne Hj. destruct (Hother name' j Hne Hj) as (j' & Hj' & Hl').
  exists j'. split; [by apply Hread|].
  simpl. rewrite deref_insert_eq by done. rewrite Hp. by rewrite Hl'.
Qed.

Lemma proxy_write_then_read_witness :
  ∃ σ' i members',
    bind (proxy.subscript (lv_var 1) [120%Z])
      (λ P, proxy.assign at_the_end P (integer_val_ 7))
      an_object
    = (Ok (), σ')
    ∧ deref (heap_ σ') 0 = Some (json_object members')
    ∧ bind (proxy.subscript (lv_var 1) [120%Z]) proxy.evaluate σ' = (Ok (lv_member 0 i), σ')
    ∧ load σ' (lv_member 0 i) = Some (integer_val_ 7)
    ∧ members' !! i = Some ([120%Z], integer_val_ 7)
    ∧ length members'
      = match json_object_ops.find [([107%Z], null_)] [120%Z] with
        | Some _ => length [([107%Z], null_)]
        | None => S (length [([107%Z], null_)])
        end
    ∧ ∀ name' j, name' ≠ [120%Z] →
        json_object_ops.find [([107%Z], null_)] name' = Some j →
        ∃ j', bind (proxy.subscript (lv_var 1) name') proxy.evaluate σ'
              = (Ok (lv_member 0 j'), σ')
            ∧ load σ' (lv_member 0 j')
              = load an_object (lv_member 0 j).
Proof.
  apply (proxy_write_then_read at_the_end an_object 1 0 [([107%Z], null_)] [120%Z] (integer_val_ 7)); reflexivity.
Defined.

(** A call through the proxy [r[name]] that needs an array,
    [r[name].add(value)] or [r[name][i]], when [r] is an object that
    has no member [name]: the call throws [std::runtime_error], and
    [r] has the member [name] afterwards, an object without members. *)
Theorem failed_proxy_call_leaves_the_key
    (position : list Z → list (list Z * variant.t) → nat)
    (σ : state) (x p : nat) (members : list (list Z * variant.t))
    (name : list Z) (value : variant.t) (i : nat) :
  vars_ σ !! x = Some (object_val_ p) →
  deref (heap_ σ) p = Some (json_object members) →
  json_object_ops.find members name = None →
  ∃ σ' q k members',
    bind (proxy.subscript (lv_var x) name) (λ P, proxy.add position P value) σ
    = (Throw (runtime_error "Attempting to insert into a value that is not an array"), σ')
    ∧ bind (proxy.subscript (lv_var x) name) (λ P, proxy.subscript_index position P i) σ
      = (Throw (runtime_error "Index on non-array value not supported"), σ')
    ∧ deref (heap_ σ') p = Some (json_object members')
    ∧ json_object_ops.find members' name = Some k
    ∧ members' !! k = Some (name, object_val_ q)
    ∧ deref (heap_ σ') q = Some (json_object [])
    ∧ length members' = S (length members).
Proof.
  intros Hx Hp Hnone.
  pose proof (deref_Some_lt _ _ _ Hp) as Hplt.
  set (q := length (heap_ σ)).
  destruct (set_spec position members name (object_val_ q)) as (Hfind & Hlook & Hlen & _).
  rewrite Hnone in Hlen.
  destruct (json_object_ops.set position members name (object_val_ q)) as [members' k] eqn:Hset.
  cbn [fst snd] in *.
  set (σ' := {| vars_ := vars_ σ;
                heap_ := <[p:=Some (json_object members')]>
                           (heap_ σ ++ [Some (json_object [])]) |}).
  assert (Hp2 : deref (heap_ σ ++ [Some (json_object [])]) p = Some (json_object members))
    by (by rewrite deref_app_l).
  assert (Hp' : deref (heap_ σ') p = Some (json_object members')).
  { apply deref_insert_eq. rewrite length_app. simpl. lia. }
  assert (Hq' : deref (heap_ σ') q = Some (json_object [])).
  { unfold σ'. simpl. rewrite deref_insert_ne by (unfold q; lia). apply deref_alloc. }
  assert (Hev : proxy.evaluate_with_default position (proxy_of_json (lv_var x) name) σ
                = (Ok (lv_member p k), σ')).
  { cbn [proxy.evaluate_with_default]. unfold proxy.evaluate_with_default_in.
    unfold basic_json.find, basic_json.object_value, basic_json.set_hint.
    unfold bind, load_, store_, on_heap, lift, ret, object_at, get_heap, put_heap. simpl.
    rewrite Hx. cbn [of_option]. rewrite Hp, Hnone. simpl.
    rewrite Hx. cbn [of_option]. simpl. rewrite Hx. cbn [of_option].
    cbn [heap_ vars_]. fold q. rewrite Hp2, Hset. done. }
  assert (Hl : load σ' (lv_member p k) = Some (object_val_ q)).
  { simpl. rewrite deref_insert_eq by (rewrite length_app; simpl; lia). by rewrite Hlook. }
  exists σ', q, k, members'.
  split.
  { unfold proxy.subscript, bind at 1, bind at 1, load_ at 1. simpl.
    rewrite Hx. cbn [of_option]. unfold ret. unfold proxy.add, bind at 1. rewrite Hev.
    unfold basic_json.add, bind, load_. by rewrite Hl. }
  split.
  { unfold proxy.subscript, bind at 1, bind at 1, load_ at 1. simpl.
    rewrite Hx. cbn [of_option]. unfold ret. unfold proxy.subscript_index, bind at 1.
    rewrite Hev. unfold basic_json.at_index, bind, load_. by rewrite Hl. }
  done.
Qed.

Lemma failed_proxy_call_leaves_the_key_witness :
  ∃ σ' q k members',
    bind (proxy.subscript (lv_var 0) [120%Z]) (λ P, proxy.add at_the_end P null_)
      an_object_without_members
    = (Throw (runtime_error "Attempting to insert into a value that is not an array"), σ')
    ∧ bind (proxy.subscript (lv_var 0) [120%Z])
        (λ P, proxy.subscript_index at_the_end P 0)
        an_object_without_members
      = (Throw (runtime_error "Index on non-array value not supported"), σ')
    ∧ deref (heap_ σ') 0 = Some (json_object members')
    ∧ json_object_ops.find members' [120%Z] = Some k
    ∧ members' !! k = Some ([120%Z], object_val_ q)
    ∧ deref (heap_ σ') q = Some (json_object [])
    ∧ length members' = S (length ([] : list (list Z * variant.t))).
Proof.
  apply (failed_proxy_call_leaves_the_key at_the_end
           an_object_without_members
           0 0 [] [120%Z] null_ 0); reflexivity.
Defined.

Section lookup_facts.
Implicit Types (σ : state) (members : list (list Z * variant.t)) (name : list Z).

Lemma count_loop_ge members name count :
  count ≤ basic_json.count_loop members name count.
Proof.
  revert count. induction members as [|[n e] members IH]; intros count; simpl; [done|].
  case_bool_decide; [|done]. specialize (IH (S count)). lia.
Qed.

Lemma count_loop_found members name i :
  json_object_ops.find members name = Some i →
  0 < basic_json.count_loop (drop i members) name 0.
Proof.
  intros Hf. destruct (find_Some_lookup members name i Hf) as [value Hl].
  rewrite (drop_S _ _ _ Hl). simpl. rewrite bool_decide_eq_true_2 by done.
  pose proof (count_loop_ge (drop (S i) members) name 1). lia.
Qed.

(** The lookups of a member agree.  On an object, [has_member(name)]
    holds exactly when [find(name)] is not [end()], when [count(name)]
    is positive and when [at(name)] returns a reference to a member of
    that name, where [at] throws [std::out_of_range] otherwise.  On a
    value that is no object, [has_member] and [count] report absence
    and [find] and [at] throw [std::runtime_error].  None of them
    changes the state. *)
Theorem lookup_functions_agree σ (this that : lvalue) (p : nat) members
    (var : variant.t) name :
  load σ this = Some (object_val_ p) →
  deref (heap_ σ) p = Some (json_object members) →
  load σ that = Some var → basic_json.is_object var = false →
  match json_object_ops.find members name with
  | Some i =>
      basic_json.has_member (heap_ σ) (object_val_ p) name = Ok true
      ∧ (∃ c, basic_json.count (heap_ σ) (object_val_ p) name = Ok c ∧ 0 < c)
      ∧ basic_json.find this name σ = (Ok (Some i), σ)
      ∧ basic_json.at_ this name σ = (Ok (lv_member p i), σ)
      ∧ ∃ value, load σ (lv_member p i) = Some value ∧ members !! i = Some (name, value)
  | None =>
      basic_json.has_member (heap_ σ) (object_val_ p) name = Ok false
      ∧ basic_json.count (heap_ σ) (object_val_ p) name = Ok 0
      ∧ basic_json.find this name σ = (Ok None, σ)
      ∧ basic_json.at_ this name σ = (Throw (out_of_range "%s not found"), σ)
  end
  ∧ basic_json.has_member (heap_ σ) var name = Ok false
  ∧ basic_json.count (heap_ σ) var name = Ok 0
  ∧ basic_json.find that name σ
    = (Throw (runtime_error "Attempting to get %s from a value that is not an object"), σ)
  ∧ basic_json.at_ that name σ
    = (Throw (runtime_error "Attempting to get %s from a value that is not an object"), σ).
Proof.
  intros Hload Hp Hthat Hno. split.
  2:{ destruct var; try done;
        unfold basic_json.find, basic_json.at_, bind, load_; rewrite Hthat; done. }
  destruct (json_object_ops.find members name) as [i|] eqn:Hf.
  - destruct (find_Some_lookup members name i Hf) as [value Hl].
    split; [simpl; by rewrite Hp, Hf|]. split.
    { eexists. split; [simpl; by rewrite Hp, Hf|]. by apply count_loop_found. }
    split; [unfold basic_json.find, bind, load_, object_at, ret; by rewrite Hload; simpl; rewrite Hp, Hf|].
    split; [unfold basic_json.at_, bind, load_, object_at, ret; by rewrite Hload; simpl; rewrite Hp, Hf|].
    exists value. split; [simpl; by rewrite Hp, Hl|done].
  - split; [simpl; by rewrite Hp, Hf|]. split; [simpl; by rewrite Hp, Hf|].
    split; [unfold basic_json.find, bind, load_, object_at, ret; by rewrite Hload; simpl; rewrite Hp, Hf|].
    unfold basic_json.at_, bind, load_, object_at, throw; by rewrite Hload; simpl; rewrite Hp, Hf.
Qed.

Lemma lookup_functions_agree_witness :
  match json_object_ops.find [([107%Z], null_)] [107%Z] with
  | Some i =>
      basic_json.has_member (heap_ an_object) (object_val_ 0) [107%Z] = Ok true
      ∧ (∃ c, basic_json.count (heap_ an_object) (object_val_ 0) [107%Z] = Ok c ∧ 0 < c)
      ∧ basic_json.find (lv_var 1) [107%Z] an_object = (Ok (Some i), an_object)
      ∧ basic_json.at_ (lv_var 1) [107%Z] an_object = (Ok (lv_member 0 i), an_object)
      ∧ ∃ value, load an_object (lv_member 0 i) = Some value
                 ∧ [([107%Z], null_)] !! i = Some ([107%Z], value)
  | None =>
      basic_json.has_member (heap_ an_object) (object_val_ 0) [107%Z] = Ok false
      ∧ basic_json.count (heap_ an_object) (object_val_ 0) [107%Z] = Ok 0
      ∧ basic_json.find (lv_var 1) [107%Z] an_object = (Ok None, an_object)
      ∧ basic_json.at_ (lv_var 1) [107%Z] an_object
        = (Throw (out_of_range "%s not found"), an_object)
  end
  ∧ basic_json.has_member (heap_ an_object) null_ [107%Z] = Ok false
  ∧ basic_json.count (heap_ an_object) null_ [107%Z] = Ok 0
  ∧ basic_json.find (lv_var 0) [107%Z] an_object
    = (Throw (runtime_error "Attempting to get %s from a value that is not an object"),
       an_object)
  ∧ basic_json.at_ (lv_var 0) [107%Z] an_object
    = (Throw (runtime_error "Attempting to get %s from a value that is not an object"),
       an_object).
Proof.
  apply (lookup_functions_agree an_object (lv_var 1) (lv_var 0) 0 [([107%Z], null_)] null_
           [107%Z]); reflexivity.
Defined.

(** [swap] twice is no change: [a.swap(b); a.swap(b)] leaves two
    variables, and the heap, as they were; so does [a.swap(a)]. *)
Theorem swap_twice_is_identity σ (x y : nat) (a b : variant.t) :
  vars_ σ !! x = Some a → vars_ σ !! y = Some b →
  bind (basic_json.swap (lv_var x) (lv_var y))
    (λ _, basic_json.swap (lv_var x) (lv_var y)) σ = (Ok (), σ)
  ∧ basic_json.swap (lv_var x) (lv_var x) σ = (Ok (), σ).
Proof.
  intros Hx Hy. split.
  2:{ unfold basic_json.swap. by rewrite decide_True. }
  destruct (decide (x = y)) as [->|Hne].
  { unfold bind, basic_json.swap. by rewrite decide_True. }
  pose proof (lookup_lt_Some _ _ _ Hx) as Hxl. pose proof (lookup_lt_Some _ _ _ Hy) as Hyl.
  unfold bind at 1. unfold basic_json.swap at 1. rewrite decide_False by congruence.
  unfold bind, load_, store_. simpl. rewrite Hx, Hy. simpl.
  unfold basic_json.swap. rewrite decide_False by congruence.
  unfold bind, load_, store_. simpl.
  rewrite list_lookup_insert_ne by done. rewrite list_lookup_insert_eq by done. simpl.
  rewrite list_lookup_insert_eq by (by rewrite length_insert). simpl.
  f_equal. destruct σ as [vars heap]. simpl in *. f_equal.
  apply list_eq. intros k.
  destruct (decide (k = y)) as [->|Hky].
  - rewrite list_lookup_insert_eq by (by rewrite !length_insert). done.
  - rewrite list_lookup_insert_ne by done.
    destruct (decide (k = x)) as [->|Hkx].
    + rewrite list_lookup_insert_eq by (by rewrite !length_insert). done.
    + rewrite !list_lookup_insert_ne by done. done.
Qed.

Lemma swap_twice_is_identity_witness :
  bind (basic_json.swap (lv_var 0) (lv_var 1))
    (λ _, basic_json.swap (lv_var 0) (lv_var 1)) two_values = (Ok (), two_values)
  ∧ basic_json.swap (lv_var 0) (lv_var 0) two_values = (Ok (), two_values).
Proof.
  apply (swap_twice_is_identity two_values 0 1 (string_val_ 0) (integer_val_ 2)); reflexivity.
Defined.
End lookup_facts.

(** *** Arrays *)

(** [add(value)] and then [at(i)], for a variable that holds an array
    of [n] elements: the call returns, the array has [n + 1] elements
    and is not [empty()], [at(n)] returns a reference to an element
    that holds [value], every [at(i)] below [n] returns a reference to
    the value it led to before, and [at(i)] above [n] throws
    [std::out_of_range].  None of the reads changes the state. *)
Theorem array_add_then_at (σ : state) (x p : nat) (elements : list variant.t)
    (value : variant.t) :
  vars_ σ !! x = Some (array_val_ p) →
  deref (heap_ σ) p = Some (json_array elements) →
  ∃ σ',
    basic_json.add (lv_var x) value σ = (Ok (), σ')
    ∧ basic_json.size (heap_ σ') (array_val_ p) = Ok (S (length elements))
    ∧ basic_json.empty (heap_ σ') (array_val_ p) = Ok false
    ∧ basic_json.at_index (lv_var x) (length elements) σ'
      = (Ok (lv_element p (length elements)), σ')
    ∧ load σ' (lv_element p (length elements)) = Some value
    ∧ (∀ i, i < length elements →
         basic_json.at_index (lv_var x) i σ' = (Ok (lv_element p i), σ')
         ∧ load σ' (lv_element p i) = load σ (lv_element p i))
    ∧ (∀ i, length elements < i →
         basic_json.at_index (lv_var x) i σ'
         = (Throw (out_of_range "Invalid array subscript"), σ'))
    ∧ ∀ q, q ≠ p → deref (heap_ σ') q = deref (heap_ σ) q.
Proof.
  intros Hx Hp. pose proof (deref_Some_lt _ _ _ Hp) as Hlt.
  eexists. split.
  { unfold basic_json.add, bind, load_, array_at, get_heap, put_heap. cbn [load].
    rewrite Hx. cbn [of_option]. rewrite Hp. reflexivity. }
  set (σ' := {| vars_ := vars_ σ; heap_ := _ |}).
  assert (Hp' : deref (heap_ σ') p = Some (json_array (elements ++ [value])))
    by (by apply deref_insert_eq).
  assert (Hat : ∀ i, basic_json.at_index (lv_var x) i σ'
                     = (if length (elements ++ [value]) <=? i
                        then (Throw (out_of_range "Invalid array subscript"), σ')
                        else (Ok (lv_element p i), σ'))).
  { intros i. unfold basic_json.at_index, bind, load_, array_at. cbn [load].
    change (vars_ σ') with (vars_ σ). rewrite Hx. cbn [of_option]. rewrite Hp'.
    by destruct (length (elements ++ [value]) <=? i). }
  assert (Hlen : length (elements ++ [value]) = S (length elements))
    by (rewrite length_app; simpl; lia).
  split; [by unfold basic_json.size; rewrite Hp', Hlen|].
  split.
  { unfold basic_json.empty, variant_ops.empty. by rewrite Hp', Hlen. }
  split.
  { rewrite Hat, Hlen. by destruct (Nat.leb_spec (S (length elements)) (length elements));
      [lia|]. }
  split.
  { cbn [load]. rewrite Hp'. rewrite lookup_app_r by lia. by rewrite Nat.sub_diag. }
  split.
  { intros i Hi. split.
    - rewrite Hat, Hlen. by destruct (Nat.leb_spec (S (length elements)) i); [lia|].
    - cbn [load]. rewrite Hp', Hp. by rewrite lookup_app_l. }
  split.
  { intros i Hi. rewrite Hat, Hlen.
    by destruct (Nat.leb_spec (S (length elements)) i); [|lia]. }
  intros q Hq. subst σ'. cbn [heap_]. by apply deref_insert_ne.
Qed.

Lemma array_add_then_at_witness :
  ∃ σ',
    basic_json.add (lv_var 0) (integer_val_ 5) alias_state = (Ok (), σ')
    ∧ basic_json.size (heap_ σ') (array_val_ 0) = Ok (S (length [string_val_ 1]))
    ∧ basic_json.empty (heap_ σ') (array_val_ 0) = Ok false
    ∧ basic_json.at_index (lv_var 0) (length [string_val_ 1]) σ'
      = (Ok (lv_element 0 (length [string_val_ 1])), σ')
    ∧ load σ' (lv_element 0 (length [string_val_ 1])) = Some (integer_val_ 5)
    ∧ (∀ i, i < length [string_val_ 1] →
         basic_json.at_index (lv_var 0) i σ' = (Ok (lv_element 0 i), σ')
         ∧ load σ' (lv_element 0 i) = load alias_state (lv_element 0 i))
    ∧ (∀ i, length [string_val_ 1] < i →
         basic_json.at_index (lv_var 0) i σ'
         = (Throw (out_of_range "Invalid array subscript"), σ'))
    ∧ ∀ q, q ≠ 0 → deref (heap_ σ') q = deref (heap_ alias_state) q.
Proof.
  apply (array_add_then_at alias_state 0 0 [string_val_ 1] (integer_val_ 5)); reflexivity.
Defined.
